(** * Shallow embedding of [vector_search.c] (HNSW index, brute-force search,
      topology serializer) and verification of its specification. *)

From Stdlib Require Import ZArith List Bool Lia Sorted Permutation.
From Stdlib Require Import Floats.SpecFloat.
From stdpp Require Import base list relations.
From coqutil Require Import Byte Word.LittleEndianList.
Import ListNotations.
Local Open Scope Z_scope.

(** ** Machine integers

    C [int] values are carried as [Z].  Where the source multiplies or adds
    caller-controlled quantities the 32-bit two's complement wrap-around is
    written out with [wrap_int]; loop counters bounded by a list length
    cannot overflow and are left plain. *)

Definition INT_MAX : Z := 2147483647.
Definition INT_MIN : Z := -2147483648.
Definition wrap_int (z : Z) : Z := (z + 2147483648) mod 4294967296 - 2147483648.
Definition in_int_range (z : Z) : Prop := INT_MIN <= z <= INT_MAX.

(** [malloc(sizeof(T) * count)] and [calloc(count, sizeof(T))] for a signed
    [count]: a negative count converts to a [size_t] above [PTRDIFF_MAX] and
    the allocator refuses it; every other request is granted (a request of
    zero bytes yields a unique non-null pointer, as on glibc). *)
Definition malloc_ok (count : Z) : bool := 0 <=? count.

(** ** Single-precision floats

    [float] is IEEE-754 binary32: [spec_float] with a 24-bit significand and
    maximal exponent 128, rounding to nearest even. *)

Definition float : Type := spec_float.
Definition fzero : float := S754_zero false.              (* 0.0f *)
Definition FLT_MAX : float := SFmax_float 24 128.
Definition fadd : float -> float -> float := SFadd 24 128.
Definition fsub : float -> float -> float := SFsub 24 128.
Definition fmul : float -> float -> float := SFmul 24 128.
Definition fdiv : float -> float -> float := SFdiv 24 128.
Definition sqrtf : float -> float := SFsqrt 24 128.
Definition flt (a b : float) : bool := SFltb a b.         (* a <  b *)
Definition fgt (a b : float) : bool := SFltb b a.         (* a >  b *)
Definition fge (a b : float) : bool := SFleb b a.         (* a >= b *)
Definition feq (a b : float) : bool := SFeqb a b.         (* a == b *)
Definition float_of_int (z : Z) : float := binary_normalize 24 128 z 0 false.
Definition is_nan (a : float) : bool :=
  match a with S754_nan => true | _ => false end.

(** ** Data model (vector_search.h) *)

Record Vector := { data : list float; len : Z }.

Record SearchCandidate := { node_id : Z; distance : float }.

(** A node's [layer_connections[l]] array is represented by its first
    [connection_counts[l]] entries; [allocated_connection_sizes] only tracks
    spare capacity and is not represented. *)
Record HNSWNode := {
  vector_id : Z;
  maximum_layer : Z;
  layer_connections : list (list Z)
}.

Record HNSWGraph := {
  nodes : list HNSWNode;
  original_vectors : list Vector;
  node_count : Z;
  entry_point_node_id : Z;
  maximum_layer_in_graph : Z;
  max_connections_per_node : Z;
  max_connections_layer_zero : Z;
  level_generation_factor : float;
  construction_search_width : Z
}.

Record VectorIndex := {
  vectors : list Vector;
  index_len : Z;
  hnsw_graph : option HNSWGraph;
  use_hnsw_optimization : bool
}.

Record SearchConfig := {
  search_width : Z;
  max_distance_computations : Z;
  accuracy_threshold : float;
  use_approximate_search : bool
}.

(** Array reads.  An index outside the array is undefined behaviour in C;
    the model reads a default there and the theorems exclude it by
    hypothesis. *)
Definition empty_vector : Vector := {| data := []; len := 0 |}.
Definition empty_node : HNSWNode :=
  {| vector_id := 0; maximum_layer := 0; layer_connections := [] |}.
Definition vector_at (vs : list Vector) (id : Z) : Vector :=
  nth (Z.to_nat id) vs empty_vector.
Definition node_at (ns : list HNSWNode) (id : Z) : HNSWNode :=
  nth (Z.to_nat id) ns empty_node.
Definition connections (node : HNSWNode) (layer : Z) : list Z :=
  nth (Z.to_nat layer) (layer_connections node) [].
Definition connection_counts (node : HNSWNode) (layer : Z) : Z :=
  Z.of_nat (length (connections node layer)).

(** A vector whose [data] array holds exactly [len] floats. *)
Definition valid_vector (v : Vector) : Prop :=
  0 <= len v /\ Z.of_nat (length (data v)) = len v.

(** ** Utility functions *)

Definition calculate_euclidean_distance (vector_a vector_b : Vector) : float :=
  if negb (len vector_a =? len vector_b) then FLT_MAX
  else
    let distance_squared :=
      fold_left
        (fun distance_squared dimension_index =>
           let dimension_difference :=
             fsub (nth dimension_index (data vector_a) fzero)
                  (nth dimension_index (data vector_b) fzero) in
           fadd distance_squared (fmul dimension_difference dimension_difference))
        (seq 0 (Z.to_nat (len vector_a))) fzero in
    sqrtf distance_squared.

(** [rand()] is modelled by a tape holding the values it will return, in
    order.  The sampling loop consumes draws up to and including the first
    one that fails the test; a tape that ends before such a draw gives
    [None] (the C loop would still be running). *)
Fixpoint determine_random_layer_from (RAND_MAX : Z) (level_generation_factor : float)
    (tape : list Z) (layer : Z) : option (Z * list Z) :=
  match tape with
  | [] => None
  | r :: tape' =>
      if flt (fdiv (float_of_int r) (float_of_int RAND_MAX)) level_generation_factor
      then determine_random_layer_from RAND_MAX level_generation_factor tape' (layer + 1)
      else Some (layer, tape')
  end.

Definition determine_random_layer (RAND_MAX : Z) (level_generation_factor : float)
    (tape : list Z) : option (Z * list Z) :=
  determine_random_layer_from RAND_MAX level_generation_factor tape 0.

(** ** Priority queue for search candidates

    The [candidates] array is represented by its first [size] entries. *)

Record PriorityQueue := {
  candidates : list SearchCandidate;
  capacity : Z;
  is_max_heap : bool
}.

Definition size (queue : PriorityQueue) : Z := Z.of_nat (length (candidates queue)).

Definition with_candidates (queue : PriorityQueue) (cs : list SearchCandidate)
  : PriorityQueue :=
  {| candidates := cs; capacity := capacity queue; is_max_heap := is_max_heap queue |}.

(** The allocation itself is not represented.  With a capacity below 1, or
    when [malloc] refuses the request, the first [insert_candidate] of the C
    code reads [candidates[0]] of no array; the theorems stating that a
    search or the builder returns ask for [1 <= capacity]. *)
Definition create_priority_queue (capacity : Z) (is_max_heap : bool) : PriorityQueue :=
  {| candidates := []; capacity := capacity; is_max_heap := is_max_heap |}.

Definition distance_at (cs : list SearchCandidate) (i : nat) : float :=
  match cs !! i with Some c => distance c | None => fzero end.

Definition swap_candidates (cs : list SearchCandidate) (a b : nat)
  : list SearchCandidate :=
  match cs !! a, cs !! b with
  | Some ca, Some cb => <[b := ca]> (<[a := cb]> cs)
  | _, _ => cs
  end.

(** [better is_max c p]: the comparison both heapify routines use to decide
    that the entry with distance [c] must move above the one with [p]. *)
Definition better (is_max : bool) (c p : float) : bool :=
  if is_max then fgt c p else flt c p.

(** The recursion of [heapify_up] follows the parent chain, which strictly
    decreases until index 0, where the entry is compared with itself and
    nothing is swapped; [S child_index] unfoldings always suffice.
    [(child_index - 1) / 2] is 0 for [child_index = 0] both in C (division
    truncates) and on [nat]. *)
Fixpoint heapify_up_rec (fuel : nat) (is_max : bool) (cs : list SearchCandidate)
    (child_index : nat) : list SearchCandidate :=
  match fuel with
  | O => cs
  | S fuel' =>
      let parent_index := ((child_index - 1) / 2)%nat in
      let should_swap :=
        better is_max (distance_at cs child_index) (distance_at cs parent_index) in
      if should_swap
      then heapify_up_rec fuel' is_max (swap_candidates cs child_index parent_index)
                          parent_index
      else cs
  end.

Definition heapify_up (is_max : bool) (cs : list SearchCandidate) (child_index : nat)
  : list SearchCandidate :=
  heapify_up_rec (S child_index) is_max cs child_index.

(** [heapify_down] recurses on a strictly larger index below [size];
    [length cs] unfoldings always suffice. *)
Fixpoint heapify_down_rec (fuel : nat) (is_max : bool) (cs : list SearchCandidate)
    (parent_index : nat) : list SearchCandidate :=
  match fuel with
  | O => cs
  | S fuel' =>
      let left_child := (2 * parent_index + 1)%nat in
      let right_child := (2 * parent_index + 2)%nat in
      let target_index := parent_index in
      let target_index :=
        if (left_child <? length cs)%nat
        then if better is_max (distance_at cs left_child) (distance_at cs target_index)
             then left_child else target_index
        else target_index in
      let target_index :=
        if (right_child <? length cs)%nat
        then if better is_max (distance_at cs right_child) (distance_at cs target_index)
             then right_child else target_index
        else target_index in
      if negb (target_index =? parent_index)%nat
      then heapify_down_rec fuel' is_max (swap_candidates cs parent_index target_index)
                            target_index
      else cs
  end.

Definition heapify_down (is_max : bool) (cs : list SearchCandidate) (parent_index : nat)
  : list SearchCandidate :=
  heapify_down_rec (length cs) is_max cs parent_index.

Definition insert_candidate (queue : PriorityQueue) (node_id : Z) (distance : float)
  : PriorityQueue :=
  let new := {| node_id := node_id; distance := distance |} in
  if size queue <? capacity queue then
    with_candidates queue
      (heapify_up (is_max_heap queue) (candidates queue ++ [new])
                  (length (candidates queue)))
  else if is_max_heap queue && flt distance (distance_at (candidates queue) 0) then
    with_candidates queue
      (heapify_down (is_max_heap queue) (<[0%nat := new]> (candidates queue)) 0)
  else if negb (is_max_heap queue) && fgt distance (distance_at (candidates queue) 0) then
    with_candidates queue
      (heapify_down (is_max_heap queue) (<[0%nat := new]> (candidates queue)) 0)
  else queue.

(** Undefined on an empty queue in C; [None] here. *)
Definition extract_top_candidate (queue : PriorityQueue)
  : option (SearchCandidate * PriorityQueue) :=
  match candidates queue with
  | [] => None
  | top :: _ =>
      let new_size := (length (candidates queue) - 1)%nat in
      let kept := take new_size (candidates queue) in
      if (0 <? new_size)%nat then
        match candidates queue !! new_size with
        | Some last_candidate =>
            Some (top, with_candidates queue
                         (heapify_down (is_max_heap queue)
                                       (<[0%nat := last_candidate]> kept) 0))
        | None => None
        end
      else Some (top, with_candidates queue kept)
  end.

(** ** HNSW node management *)

Definition create_hnsw_node (vector_id maximum_layer : Z) : HNSWNode :=
  {| vector_id := vector_id;
     maximum_layer := maximum_layer;
     layer_connections := repeat [] (Z.to_nat (maximum_layer + 1)) |}.

Definition add_connection_to_node (node : HNSWNode) (layer connected_node_id : Z)
  : HNSWNode :=
  if layer >? maximum_layer node then node
  else if existsb (Z.eqb connected_node_id) (connections node layer) then node
  else
    {| vector_id := vector_id node;
       maximum_layer := maximum_layer node;
       layer_connections :=
         <[Z.to_nat layer := connections node layer ++ [connected_node_id]]>
           (layer_connections node) |}.

(** ** Search algorithms *)

Record search_state := {
  st_candidates : PriorityQueue;   (* min-heap of the frontier *)
  st_visited : PriorityQueue;      (* max-heap of the best so far *)
  st_flags : list bool             (* visited_flags *)
}.

Definition flag_at (flags : list bool) (id : Z) : bool :=
  nth (Z.to_nat id) flags false.

(** Body of the neighbor loop of [search_layer] for one [neighbor_id]. *)
Definition search_layer_visit (graph : HNSWGraph) (query : Vector) (search_width : Z)
    (st : search_state) (neighbor_id : Z) : search_state :=
  if flag_at (st_flags st) neighbor_id then st
  else
    let flags := <[Z.to_nat neighbor_id := true]> (st_flags st) in
    let neighbor_distance :=
      calculate_euclidean_distance query (vector_at (original_vectors graph) neighbor_id) in
    if (size (st_visited st) <? search_width)
       || flt neighbor_distance (distance_at (candidates (st_visited st)) 0)
    then {| st_candidates := insert_candidate (st_candidates st) neighbor_id neighbor_distance;
            st_visited := insert_candidate (st_visited st) neighbor_id neighbor_distance;
            st_flags := flags |}
    else {| st_candidates := st_candidates st;
            st_visited := st_visited st;
            st_flags := flags |}.

(** The [while (candidates->size > 0)] loop.  Each round pops one candidate
    and pushes only nodes whose flag was clear, so [node_count + 1] rounds
    always suffice on a graph whose neighbor ids are in range; [None] reports
    exhausted fuel. *)
Fixpoint search_layer_loop (fuel : nat) (graph : HNSWGraph) (query : Vector)
    (layer search_width : Z) (st : search_state) : option search_state :=
  match fuel with
  | O => None
  | S fuel' =>
      if 0 <? size (st_candidates st) then
        match extract_top_candidate (st_candidates st) with
        | None => None
        | Some (current, rest) =>
            let st := {| st_candidates := rest;
                         st_visited := st_visited st;
                         st_flags := st_flags st |} in
            if (search_width <=? size (st_visited st))
               && fgt (distance current) (distance_at (candidates (st_visited st)) 0)
            then Some st
            else
              let current_node := node_at (nodes graph) (node_id current) in
              let st :=
                if layer <=? maximum_layer current_node
                then fold_left (search_layer_visit graph query search_width)
                               (connections current_node layer) st
                else st in
              search_layer_loop fuel' graph query layer search_width st
        end
      else Some st
  end.

(** The result loop fills [results] from its last slot down to slot 0 with
    the successive tops of the max-heap. *)
Fixpoint drain_results (count : nat) (visited : PriorityQueue) (results : list Z)
  : list Z :=
  match count with
  | O => results
  | S count' =>
      match extract_top_candidate visited with
      | Some (result, visited') => drain_results count' visited' (node_id result :: results)
      | None => results
      end
  end.

(** The state in which the search loop of [search_layer] ends. *)
Definition search_layer_final (graph : HNSWGraph) (query : Vector)
    (entry_point layer search_width : Z) : option search_state :=
  let candidates_queue := create_priority_queue search_width false in
  let visited_queue := create_priority_queue (wrap_int (search_width * 2)) true in
  let visited_flags := repeat false (Z.to_nat (node_count graph)) in
  let entry_distance :=
    calculate_euclidean_distance query (vector_at (original_vectors graph) entry_point) in
  let st := {| st_candidates := insert_candidate candidates_queue entry_point entry_distance;
               st_visited := insert_candidate visited_queue entry_point entry_distance;
               st_flags := <[Z.to_nat entry_point := true]> visited_flags |} in
  search_layer_loop (S (Z.to_nat (node_count graph))) graph query layer search_width st.

(** Returns the [results] array; [*result_count] is its length. *)
Definition search_layer (graph : HNSWGraph) (query : Vector)
    (entry_point layer search_width : Z) : option (list Z) :=
  match search_layer_final graph query entry_point layer search_width with
  | None => None
  | Some st =>
      Some (drain_results (length (candidates (st_visited st))) (st_visited st) [])
  end.

(** For negative [k] the C code would [memcpy] into a refused allocation;
    the model reports the null pointer. *)
Definition hnsw_knn_search (index : VectorIndex) (query : Vector) (k : Z)
    (search_config : option SearchConfig) : option (list Z) :=
  match hnsw_graph index with
  | None => None
  | Some graph =>
      let search_width :=
        match search_config with
        | Some config => search_width config
        | None => wrap_int (k * 2)
        end in
      let descend :=
        fold_left
          (fun (acc : option Z) (layer : Z) =>
             match acc with
             | None => None
             | Some current_closest =>
                 match search_layer graph query current_closest layer 1 with
                 | None => None
                 | Some layer_results =>
                     match layer_results with
                     | closest :: _ => Some closest
                     | [] => Some current_closest
                     end
                 end
             end)
          (map (fun i => maximum_layer_in_graph graph - Z.of_nat i)
               (seq 0 (Z.to_nat (maximum_layer_in_graph graph))))
          (Some (entry_point_node_id graph)) in
      match descend with
      | None => None
      | Some current_closest =>
          match search_layer graph query current_closest 0 search_width with
          | None => None
          | Some all_candidates =>
              let result_count := Z.of_nat (length all_candidates) in
              let return_count := if result_count <? k then result_count else k in
              if malloc_ok return_count
              then Some (take (Z.to_nat return_count) all_candidates)
              else None
          end
      end
  end.

Definition approximate_search (index : VectorIndex) (query : Vector) (k search_width : Z)
  : option (list Z) :=
  hnsw_knn_search index query k
    (Some {| search_width := search_width;
             max_distance_computations := wrap_int (search_width * 10);
             accuracy_threshold := fdiv (float_of_int 9) (float_of_int 10);
             use_approximate_search := true |}).

Definition beam_search (index : VectorIndex) (query : Vector) (k beam_width : Z)
  : option (list Z) :=
  hnsw_knn_search index query k
    (Some {| search_width := beam_width;
             max_distance_computations := wrap_int (beam_width * 5);
             accuracy_threshold := fdiv (float_of_int 95) (float_of_int 100);
             use_approximate_search := false |}).

(** ** Traditional brute-force search *)

(** First [insertion_position] whose stored distance is strictly greater. *)
Fixpoint find_insertion_position (current_distance : float) (distances : list float)
    (insertion_position : nat) : option nat :=
  match distances with
  | [] => None
  | d :: distances' =>
      if flt current_distance d then Some insertion_position
      else find_insertion_position current_distance distances' (S insertion_position)
  end.

(** The shift loop moves slots [pos .. k-2] one place up (dropping slot
    [k-1]); then slot [pos] is overwritten. *)
Definition shift_insert {A} (pos : nat) (x : A) (arr : list A) : list A :=
  take pos arr ++ x :: removelast (drop pos arr).

Definition knn_insert (current_distance : float) (vector_index : Z)
    (slots : list Z * list float) : list Z * list float :=
  let '(neighbors, distances) := slots in
  match find_insertion_position current_distance distances 0 with
  | Some insertion_position =>
      (shift_insert insertion_position vector_index neighbors,
       shift_insert insertion_position current_distance distances)
  | None => (neighbors, distances)
  end.

Definition knn_search (index : VectorIndex) (query : Vector) (k : Z) : option (list Z) :=
  match use_hnsw_optimization index, hnsw_graph index with
  | true, Some _ =>
      hnsw_knn_search index query k
        (Some {| search_width := wrap_int (k * 4);
                 max_distance_computations := INT_MAX;
                 accuracy_threshold := float_of_int 1;
                 use_approximate_search := false |})
  | _, _ =>
      if malloc_ok k then
        let slots := (repeat (-1) (Z.to_nat k), repeat FLT_MAX (Z.to_nat k)) in
        let slots :=
          fold_left
            (fun slots vector_index =>
               let current_distance :=
                 calculate_euclidean_distance query
                   (vector_at (vectors index) (Z.of_nat vector_index)) in
               knn_insert current_distance (Z.of_nat vector_index) slots)
            (seq 0 (Z.to_nat (index_len index))) slots in
        Some (fst slots)
      else None
  end.

(** ** Brute-force cosine similarity search with threshold

    Pointer arguments are [option]s ([None] is the null pointer);
    [out_count] tells whether the out-parameter is non-null.  The result is
    the returned pointer and the final value stored through [out_count]. *)

Definition cosine_terms (v query : Vector) : float * float * float :=
  fold_left
    (fun '(dot_product, norm_a, norm_b) j =>
       let a := nth j (data v) fzero in
       let b := nth j (data query) fzero in
       (fadd dot_product (fmul a b), fadd norm_a (fmul a a), fadd norm_b (fmul b b)))
    (seq 0 (Z.to_nat (len v))) (fzero, fzero, fzero).

Definition swap_at {A} (l : list A) (j : nat) : list A :=
  match l !! j, l !! (S j) with
  | Some x, Some y => <[S j := x]> (<[j := y]> l)
  | _, _ => l
  end.

Definition bubble_pass (match_count i : nat) (arrays : list Z * list float)
  : list Z * list float :=
  fold_left
    (fun '(neighbors, similarities) j =>
       match similarities !! j, similarities !! (S j) with
       | Some s, Some s' =>
           if flt s s' then (swap_at neighbors j, swap_at similarities j)
           else (neighbors, similarities)
       | _, _ => (neighbors, similarities)
       end)
    (seq 0 (match_count - 1 - i)) arrays.

Definition brute_force_knn_search (vectors : option (list Vector)) (len : Z)
    (query : option Vector) (k : Z) (similarity_threshold : float) (out_count : bool)
  : option (list Z) * option Z :=
  match vectors, query with
  | Some vectors, Some query =>
      if (len <=? 0) || (k <=? 0) || negb out_count then
        (None, if out_count then Some 0 else None)
      else
        let matches :=
          fold_left
            (fun '(neighbors, similarities) i =>
               let '(dot_product, norm_a, norm_b) :=
                 cosine_terms (vector_at vectors (Z.of_nat i)) query in
               if feq norm_a fzero || feq norm_b fzero then (neighbors, similarities)
               else
                 let similarity := fdiv dot_product (fmul (sqrtf norm_a) (sqrtf norm_b)) in
                 if fge similarity similarity_threshold
                 then (neighbors ++ [Z.of_nat i], similarities ++ [similarity])
                 else (neighbors, similarities))
            (seq 0 (Z.to_nat len)) ([], []) in
        let match_count := length (fst matches) in
        let sorted :=
          fold_left (fun arrays i => bubble_pass match_count i arrays)
                    (seq 0 (match_count - 1)) matches in
        let match_count :=
          if k <? Z.of_nat match_count then Z.to_nat k else match_count in
        (Some (take match_count (fst sorted)), Some (Z.of_nat match_count))
  | _, _ => (None, if out_count then Some 0 else None)
  end.

(** ** HNSW graph construction *)

(** Layers [hi, hi-1, ..., lo] of a descending [for] loop. *)
Definition layers_down (hi lo : Z) : list Z :=
  map (fun i => hi - Z.of_nat i) (seq 0 (Z.to_nat (hi - lo + 1))).

Definition set_nodes (graph : HNSWGraph) (ns : list HNSWNode) : HNSWGraph :=
  {| nodes := ns;
     original_vectors := original_vectors graph;
     node_count := node_count graph;
     entry_point_node_id := entry_point_node_id graph;
     maximum_layer_in_graph := maximum_layer_in_graph graph;
     max_connections_per_node := max_connections_per_node graph;
     max_connections_layer_zero := max_connections_layer_zero graph;
     level_generation_factor := level_generation_factor graph;
     construction_search_width := construction_search_width graph |}.

(** [add_connection_to_node(&graph->nodes[id], layer, connected)] *)
Definition connect (ns : list HNSWNode) (id layer connected_node_id : Z)
  : list HNSWNode :=
  <[Z.to_nat id := add_connection_to_node (node_at ns id) layer connected_node_id]> ns.

(** The two calls of the "Make bidirectional connections" loop body. *)
Definition link (ns : list HNSWNode) (q layer r : Z) : list HNSWNode :=
  connect (connect ns q layer r) r layer q.

(** Phase 1: "Initialize all nodes first". *)
Fixpoint initialize_nodes (RAND_MAX : Z) (level_factor : float) (remaining : nat)
    (vector_index : Z) (tape : list Z) (graph : HNSWGraph) : option HNSWGraph :=
  match remaining with
  | O => Some graph
  | S remaining' =>
      match determine_random_layer RAND_MAX level_factor tape with
      | None => None
      | Some (node_layer, tape') =>
          let ns := nodes graph ++ [create_hnsw_node vector_index node_layer] in
          let graph :=
            if node_layer >? maximum_layer_in_graph graph then
              {| nodes := ns;
                 original_vectors := original_vectors graph;
                 node_count := node_count graph;
                 entry_point_node_id := vector_index;
                 maximum_layer_in_graph := node_layer;
                 max_connections_per_node := max_connections_per_node graph;
                 max_connections_layer_zero := max_connections_layer_zero graph;
                 level_generation_factor := level_generation_factor graph;
                 construction_search_width := construction_search_width graph |}
            else set_nodes graph ns in
          initialize_nodes RAND_MAX level_factor remaining' (vector_index + 1) tape' graph
      end
  end.

(** One layer of the greedy descent above the new node's top layer. *)
Definition greedy_step (graph : HNSWGraph) (vectors : list Vector)
    (current_vector : Vector) (current_search_node search_layer : Z) : Z :=
  let best_distance :=
    calculate_euclidean_distance current_vector (vector_at vectors current_search_node) in
  let search_node := node_at (nodes graph) current_search_node in
  if search_layer <=? maximum_layer search_node then
    snd (fold_left
           (fun '(best_distance, current_search_node) neighbor_id =>
              let neighbor_distance :=
                calculate_euclidean_distance current_vector (vector_at vectors neighbor_id) in
              if flt neighbor_distance best_distance
              then (neighbor_distance, neighbor_id)
              else (best_distance, current_search_node))
           (connections search_node search_layer)
           (best_distance, current_search_node))
  else current_search_node.

(** Body of the neighbor loop of the construction beam search. *)
Definition build_visit (vectors : list Vector) (current_vector : Vector)
    (construction_search_width : Z) (queues : PriorityQueue * PriorityQueue)
    (neighbor_id : Z) : PriorityQueue * PriorityQueue :=
  let '(layer_candidates, visited_nodes) := queues in
  let neighbor_distance :=
    calculate_euclidean_distance current_vector (vector_at vectors neighbor_id) in
  if (size visited_nodes <? construction_search_width)
     || flt neighbor_distance (distance_at (candidates visited_nodes) 0)
  then (insert_candidate layer_candidates neighbor_id neighbor_distance,
        insert_candidate visited_nodes neighbor_id neighbor_distance)
  else (layer_candidates, visited_nodes).

(** The [while (layer_candidates->size > 0)] loop of the builder: it has no
    [break], so it ends only when [layer_candidates] is empty.  [None]
    reports exhausted fuel. *)
Fixpoint build_beam_loop (fuel : nat) (graph : HNSWGraph) (vectors : list Vector)
    (current_vector : Vector) (connection_layer construction_search_width : Z)
    (queues : PriorityQueue * PriorityQueue)
  : option (PriorityQueue * PriorityQueue) :=
  match fuel with
  | O => None
  | S fuel' =>
      let '(layer_candidates, visited_nodes) := queues in
      if 0 <? size layer_candidates then
        match extract_top_candidate layer_candidates with
        | None => None
        | Some (current_candidate, layer_candidates) =>
            let candidate_node := node_at (nodes graph) (node_id current_candidate) in
            let queues :=
              if connection_layer <=? maximum_layer candidate_node
              then fold_left (build_visit vectors current_vector construction_search_width)
                             (connections candidate_node connection_layer)
                             (layer_candidates, visited_nodes)
              else (layer_candidates, visited_nodes) in
            build_beam_loop fuel' graph vectors current_vector connection_layer
                            construction_search_width queues
        end
      else Some queues
  end.

(** "Copy priority queue to array for deterministic selection": at most one
    extraction per stored candidate. *)
Fixpoint copy_candidates (fuel : nat) (layer_candidates : PriorityQueue) (max_conn : Z)
    (candidates_array : list SearchCandidate) : list SearchCandidate :=
  match fuel with
  | O => candidates_array
  | S fuel' =>
      if (0 <? size layer_candidates) && (Z.of_nat (length candidates_array) <? max_conn)
      then match extract_top_candidate layer_candidates with
           | Some (sc, layer_candidates) =>
               copy_candidates fuel' layer_candidates max_conn (candidates_array ++ [sc])
           | None => candidates_array
           end
      else candidates_array
  end.

(** "Select up to max_conn unique connections". *)
Definition select_connections (candidates_array : list SearchCandidate) (max_conn : Z)
  : list Z :=
  fold_left
    (fun selected_connections sc =>
       if Z.of_nat (length selected_connections) <? max_conn then
         if existsb (Z.eqb (node_id sc)) selected_connections
         then selected_connections
         else selected_connections ++ [node_id sc]
       else selected_connections)
    candidates_array [].

(** One iteration of the [connection_layer] loop for node [current_node_id]. *)
Definition connect_layer (fuel : nat) (vectors : list Vector) (current_node_id : Z)
    (current_search_node construction_search_width : Z)
    (graph : HNSWGraph) (connection_layer : Z) : option HNSWGraph :=
  let current_vector := vector_at vectors current_node_id in
  let layer_candidates := create_priority_queue construction_search_width false in
  let visited_nodes :=
    create_priority_queue (wrap_int (construction_search_width * 2)) true in
  let entry_distance :=
    calculate_euclidean_distance current_vector (vector_at vectors current_search_node) in
  let queues := (insert_candidate layer_candidates current_search_node entry_distance,
                 insert_candidate visited_nodes current_search_node entry_distance) in
  match build_beam_loop fuel graph vectors current_vector connection_layer
                        construction_search_width queues with
  | None => None
  | Some (layer_candidates, visited_nodes) =>
      let max_conn :=
        if connection_layer =? 0 then max_connections_layer_zero graph
        else max_connections_per_node graph in
      let candidates_array :=
        copy_candidates (S (length (candidates layer_candidates))) layer_candidates
                        max_conn [] in
      let selected_connections := select_connections candidates_array max_conn in
      Some (set_nodes graph
              (fold_left
                 (fun ns selected => link ns current_node_id connection_layer selected)
                 selected_connections (nodes graph)))
  end.

(** Body of the insertion loop for [current_node_id]. *)
Definition insert_node (fuel : nat) (vectors : list Vector)
    (construction_search_width : Z) (graph : HNSWGraph) (current_node_id : Z)
  : option HNSWGraph :=
  let current_node := node_at (nodes graph) current_node_id in
  let current_vector := vector_at vectors current_node_id in
  let current_search_node :=
    fold_left (greedy_step graph vectors current_vector)
              (layers_down (maximum_layer_in_graph graph) (maximum_layer current_node + 1))
              (entry_point_node_id graph) in
  fold_left
    (fun (acc : option HNSWGraph) connection_layer =>
       match acc with
       | None => None
       | Some graph =>
           connect_layer fuel vectors current_node_id current_search_node
                         construction_search_width graph connection_layer
       end)
    (layers_down (maximum_layer current_node) 0)
    (Some graph).

(** Phase 2: [for (current_node_id = 1; current_node_id < vector_count; ...)].
    The second component is a ghost log of the ids whose loop body has run to
    its end; the [return graph] statement follows the loop. *)
Fixpoint insertion_loop (fuel : nat) (remaining : nat) (current_node_id : Z)
    (vectors : list Vector) (vector_count construction_search_width : Z)
    (graph : HNSWGraph) (inserted : list Z) : option (HNSWGraph * list Z) :=
  match remaining with
  | O => Some (graph, inserted)
  | S remaining' =>
      if current_node_id <? vector_count then
        match insert_node fuel vectors construction_search_width graph current_node_id with
        | None => None
        | Some graph =>
            insertion_loop fuel remaining' (current_node_id + 1) vectors vector_count
                           construction_search_width graph (inserted ++ [current_node_id])
        end
      else Some (graph, inserted)
  end.

(** The graph header as filled in before any node exists. *)
Definition allocate_graph (vectors : list Vector)
    (vector_count max_connections max_connections_layer_zero : Z)
    (level_factor : float) (construction_search_width : Z) : HNSWGraph :=
  {| nodes := [];
     original_vectors := vectors;
     node_count := vector_count;
     entry_point_node_id := 0;
     maximum_layer_in_graph := 0;
     max_connections_per_node := max_connections;
     max_connections_layer_zero := max_connections_layer_zero;
     level_generation_factor := level_factor;
     construction_search_width := construction_search_width |}.

(** [fuel] bounds the rounds of each construction beam search and [tape]
    holds the future results of [rand()]. *)
Definition build_hnsw_graph_logged (fuel : nat) (RAND_MAX : Z) (tape : list Z)
    (vectors : list Vector) (vector_count max_connections max_connections_layer_zero : Z)
    (level_factor : float) (construction_search_width : Z)
  : option (HNSWGraph * list Z) :=
  let graph :=
    allocate_graph vectors vector_count max_connections max_connections_layer_zero
                   level_factor construction_search_width in
  match initialize_nodes RAND_MAX level_factor (Z.to_nat vector_count) 0 tape graph with
  | None => None
  | Some graph =>
      insertion_loop fuel (Z.to_nat (vector_count - 1)) 1 vectors vector_count
                     construction_search_width graph []
  end.

Definition build_hnsw_graph (fuel : nat) (RAND_MAX : Z) (tape : list Z)
    (vectors : list Vector) (vector_count max_connections max_connections_layer_zero : Z)
    (level_factor : float) (construction_search_width : Z) : option HNSWGraph :=
  option_map fst
    (build_hnsw_graph_logged fuel RAND_MAX tape vectors vector_count max_connections
                             max_connections_layer_zero level_factor
                             construction_search_width).

(** ** Index creation *)

Definition create_index (vectors : list Vector) (vector_count : Z) : VectorIndex :=
  {| vectors := vectors; index_len := vector_count;
     hnsw_graph := None; use_hnsw_optimization := false |}.

Definition create_hnsw_index (fuel : nat) (RAND_MAX : Z) (tape : list Z)
    (vectors : list Vector) (vector_count max_connections max_connections_layer_zero : Z)
    (level_factor : float) : option VectorIndex :=
  let construction_search_width := wrap_int (max_connections * 2) in
  match build_hnsw_graph fuel RAND_MAX tape vectors vector_count max_connections
                         max_connections_layer_zero level_factor
                         construction_search_width with
  | None => None
  | Some graph =>
      Some {| vectors := vectors; index_len := vector_count;
              hnsw_graph := Some graph; use_hnsw_optimization := true |}
  end.

(** ** Serialization

    Results of the C functions that can run into undefined behaviour:
    [Ret a] is a normal return, [Fault] an invalid memory access (a null or
    indeterminate pointer dereferenced or freed, a read or write outside an
    allocation). *)

Inductive outcome (A : Type) : Type :=
  | Ret (a : A)
  | Fault.
Arguments Ret {A} a.
Arguments Fault {A}.

(** [*((int* )ptr) = v] on a little-endian host. *)
Definition write_int (v : Z) : list byte := le_split 4 v.

Definition node_layers (node : HNSWNode) : list Z :=
  map Z.of_nat (seq 0 (Z.to_nat (maximum_layer node + 1))).

(** The size computation accumulates into an [int]. *)
Definition serialized_node_size (total_size : Z) (node : HNSWNode) : Z :=
  let total_size := wrap_int (total_size + 4) in
  let total_size := wrap_int (total_size + 4 * wrap_int (maximum_layer node + 1)) in
  fold_left
    (fun total_size layer =>
       let conn_count := connection_counts node layer in
       let total_size := wrap_int (total_size + 4) in
       wrap_int (total_size + 4 * conn_count))
    (node_layers node) total_size.

Definition serialize_node (node : HNSWNode) : list byte :=
  write_int (maximum_layer node)
  ++ flat_map (fun layer => write_int (connection_counts node layer)) (node_layers node)
  ++ flat_map
       (fun layer =>
          write_int (connection_counts node layer)
          ++ flat_map write_int (connections node layer))
       (node_layers node).

Definition graph_nodes (graph : HNSWGraph) : list HNSWNode :=
  map (fun i => node_at (nodes graph) (Z.of_nat i)) (seq 0 (Z.to_nat (node_count graph))).

(** [graph] is [None] for a null pointer; the out-parameters are taken to be
    non-null.  [Ret None] is the return value 0; [Ret (Some (buffer, size))]
    is the return value 1 with [*out_buffer] and [*out_size].  Writing more
    bytes than were allocated is a [Fault]. *)
Definition serialize_hnsw_graph (graph : option HNSWGraph)
  : outcome (option (list byte * Z)) :=
  match graph with
  | None => Ret None
  | Some graph =>
      let total_size := fold_left serialized_node_size (graph_nodes graph) 4 in
      if negb (malloc_ok total_size) then Ret None
      else
        let buffer :=
          write_int (node_count graph) ++ flat_map serialize_node (graph_nodes graph) in
        if Z.of_nat (length buffer) <=? total_size
        then Ret (Some (buffer, total_size))
        else Fault
  end.

(** ** Deserialization

    The graph under construction lives in freshly allocated memory, so the
    state of every pointer field matters to the cleanup path: [cnull] is
    [NULL] (as left by [calloc]), [cwild] an indeterminate value (as left by
    [malloc]), [cptr_to a] a valid allocation holding [a]. *)

Inductive cptr (A : Type) : Type :=
  | cnull
  | cwild
  | cptr_to (a : A).
Arguments cnull {A}.
Arguments cwild {A}.
Arguments cptr_to {A} a.

Record MemNode := {
  m_vector_id : Z;
  m_maximum_layer : Z;
  m_layer_connections : cptr (list (cptr (list Z)));
  m_connection_counts : cptr (list Z);
  m_allocated_connection_sizes : cptr (list Z)
}.

Record MemGraph := {
  m_nodes : list MemNode;
  m_node_count : Z
}.

(** A node as [calloc] leaves it. *)
Definition zero_node : MemNode :=
  {| m_vector_id := 0; m_maximum_layer := 0; m_layer_connections := cnull;
     m_connection_counts := cnull; m_allocated_connection_sizes := cnull |}.

(** [free(p)]: fine on [NULL] and on a valid allocation. *)
Definition free_ok {A} (p : cptr A) : bool :=
  match p with cwild => false | _ => true end.

(** [free(node->layer_connections[layer])] reads the array first. *)
Definition free_layer (node : MemNode) (layer : nat) : bool :=
  match m_layer_connections node with
  | cptr_to arr =>
      match arr !! layer with
      | Some p => free_ok p
      | None => false
      end
  | _ => false
  end.

Definition free_hnsw_node_fields (node : MemNode) : bool :=
  forallb (free_layer node) (seq 0 (Z.to_nat (m_maximum_layer node + 1)))
  && free_ok (m_layer_connections node)
  && free_ok (m_connection_counts node)
  && free_ok (m_allocated_connection_sizes node).

(** [true] when every access of [free_hnsw_graph] is valid. *)
Definition free_hnsw_graph (graph : MemGraph) : bool :=
  forallb
    (fun node_index =>
       match m_nodes graph !! node_index with
       | Some node => free_hnsw_node_fields node
       | None => false
       end)
    (seq 0 (Z.to_nat (m_node_count graph))).

(** [*((const int* )ptr)] at byte offset [ptr]; [None] when the four bytes
    are not all inside the buffer. *)
Definition read_int (buffer : list byte) (ptr : Z) : option Z :=
  let bytes := take 4 (drop (Z.to_nat ptr) buffer) in
  if (length bytes =? 4)%nat then Some (wrap_int (le_combine bytes)) else None.

(** Progress of the parser over one part of a node: [Parsed a ptr size]
    continues with the advanced cursor, [Corrupt a] is a
    [free_hnsw_graph(graph); return NULL;] exit taken with the node in state
    [a], [OutOfBounds] a read outside the buffer. *)
Inductive parse (A : Type) : Type :=
  | Parsed (a : A) (ptr size : Z)
  | Corrupt (a : A)
  | OutOfBounds.
Arguments Parsed {A} a ptr size.
Arguments Corrupt {A} a.
Arguments OutOfBounds {A}.

(** "Read connection_counts array". *)
Fixpoint read_connection_counts (remaining : nat) (buffer : list byte) (ptr size : Z)
    (counts : list Z) : parse (list Z) :=
  match remaining with
  | O => Parsed counts ptr size
  | S remaining' =>
      if size <? 4 then Corrupt counts
      else match read_int buffer ptr with
           | None => OutOfBounds
           | Some count =>
               read_connection_counts remaining' buffer (ptr + 4) (wrap_int (size - 4))
                                      (counts ++ [count])
           end
  end.

(** The copy loop [for (c = 0; c < conn_count; c++)]. *)
Fixpoint read_connections (remaining : nat) (buffer : list byte) (ptr : Z)
    (conns : list Z) : option (list Z * Z) :=
  match remaining with
  | O => Some (conns, ptr)
  | S remaining' =>
      match read_int buffer ptr with
      | None => None
      | Some id => read_connections remaining' buffer (ptr + 4) (conns ++ [id])
      end
  end.

(** "Read connections for each layer"; [arr] is [node->layer_connections]. *)
Fixpoint read_layers (remaining : nat) (layer : nat) (buffer : list byte) (ptr size : Z)
    (counts : list Z) (arr : list (cptr (list Z))) : parse (list (cptr (list Z))) :=
  match remaining with
  | O => Parsed arr ptr size
  | S remaining' =>
      if size <? 4 then Corrupt arr
      else match read_int buffer ptr with
           | None => OutOfBounds
           | Some conn_count =>
               let ptr := ptr + 4 in
               let size := wrap_int (size - 4) in
               if negb (conn_count =? nth layer counts 0) then Corrupt arr
               else if size <? wrap_int (conn_count * 4) then Corrupt arr
               else if negb (malloc_ok conn_count) then Corrupt (<[layer := cnull]> arr)
               else match read_connections (Z.to_nat conn_count) buffer ptr [] with
                    | None => OutOfBounds
                    | Some (conns, ptr) =>
                        read_layers remaining' (S layer) buffer ptr
                                    (wrap_int (size - conn_count * 4)) counts
                                    (<[layer := cptr_to conns]> arr)
                    end
           end
  end.

(** Body of the node loop after its first bounds check. *)
Definition deserialize_node (buffer : list byte) (ptr size : Z) : parse MemNode :=
  match read_int buffer ptr with
  | None => OutOfBounds
  | Some top_layer =>
      let ptr := ptr + 4 in
      let size := wrap_int (size - 4) in
      let node := {| m_vector_id := 0; m_maximum_layer := top_layer;
                     m_layer_connections := cnull; m_connection_counts := cnull;
                     m_allocated_connection_sizes := cnull |} in
      if top_layer <? 0 then Corrupt node
      else
        let max_layer_count := wrap_int (top_layer + 1) in
        if negb (malloc_ok max_layer_count) then Corrupt node
        else
          let arr := repeat cwild (Z.to_nat max_layer_count) in
          let with_arrays counts arr :=
            {| m_vector_id := 0; m_maximum_layer := top_layer;
               m_layer_connections := cptr_to arr;
               m_connection_counts := cptr_to counts;
               m_allocated_connection_sizes := cptr_to counts |} in
          match read_connection_counts (Z.to_nat max_layer_count) buffer ptr size [] with
          | OutOfBounds => OutOfBounds
          | Corrupt counts => Corrupt (with_arrays counts arr)
          | Parsed counts ptr size =>
              match read_layers (Z.to_nat max_layer_count) 0 buffer ptr size counts arr with
              | OutOfBounds => OutOfBounds
              | Corrupt arr => Corrupt (with_arrays counts arr)
              | Parsed arr ptr size => Parsed (with_arrays counts arr) ptr size
              end
          end
  end.

Definition set_m_node (graph : MemGraph) (i : nat) (node : MemNode) : MemGraph :=
  {| m_nodes := <[i := node]> (m_nodes graph); m_node_count := m_node_count graph |}.

(** [free_hnsw_graph(graph); return NULL;] *)
Definition cleanup_and_fail (graph : MemGraph) : outcome (option MemGraph) :=
  if free_hnsw_graph graph then Ret None else Fault.

(** "Deserialize each node". *)
Fixpoint deserialize_nodes (remaining : nat) (i : nat) (buffer : list byte)
    (ptr size : Z) (graph : MemGraph) : outcome (option MemGraph) :=
  match remaining with
  | O => Ret (Some graph)
  | S remaining' =>
      if size <? 4 then cleanup_and_fail graph
      else match deserialize_node buffer ptr size with
           | OutOfBounds => Fault
           | Corrupt node => cleanup_and_fail (set_m_node graph i node)
           | Parsed node ptr size =>
               deserialize_nodes remaining' (S i) buffer ptr size (set_m_node graph i node)
           end
  end.

(** [buffer] is a non-null pointer to the given bytes and [size] the length
    the caller announces.  [Ret None] is the null return. *)
Definition deserialize_hnsw_graph (buffer : list byte) (size : Z)
  : outcome (option MemGraph) :=
  if size <=? 0 then Ret None
  else if size <? 4 then Ret None
  else match read_int buffer 0 with
       | None => Fault
       | Some node_count =>
           if negb (malloc_ok node_count) then Ret None
           else
             deserialize_nodes (Z.to_nat node_count) 0 buffer 4 (wrap_int (size - 4))
               {| m_nodes := repeat zero_node (Z.to_nat node_count);
                  m_node_count := node_count |}
       end.

(** The node a fully built [MemNode] stands for. *)
Definition node_of_mem (node : MemNode) : option HNSWNode :=
  match m_layer_connections node with
  | cptr_to arr =>
      option_map
        (fun layers => {| vector_id := m_vector_id node;
                          maximum_layer := m_maximum_layer node;
                          layer_connections := layers |})
        (mapM (fun p => match p with cptr_to conns => Some conns | _ => None end) arr)
  | _ => None
  end.

(** ** Specification vocabulary *)

(** A stored id with its distance to the query; all of them in id order. *)
Definition scored_at (index : VectorIndex) (query : Vector) (i : nat) : float * Z :=
  (calculate_euclidean_distance query (vector_at (vectors index) (Z.of_nat i)),
   Z.of_nat i).

Definition scored (index : VectorIndex) (query : Vector) : list (float * Z) :=
  map (scored_at index query) (seq 0 (Z.to_nat (index_len index))).

(** A distance that compares strictly below the [FLT_MAX] filler. *)
Definition eligible (p : float * Z) : bool := flt (fst p) FLT_MAX.

(** Ascending distance, ties between equal distances by ascending id. *)
Definition ranked_before (x y : float * Z) : Prop :=
  flt (fst x) (fst y) = true \/ (flt (fst y) (fst x) = false /\ snd x < snd y).

(** [result] lists the ids of [cands] in rank order, cut or padded with the
    sentinel [-1] to exactly [k] entries. *)
Definition knn_answer (cands : list (float * Z)) (k : Z) (result : option (list Z))
  : Prop :=
  exists ranked : list (float * Z),
    Permutation ranked cands
    /\ StronglySorted ranked_before ranked
    /\ result = Some (take (Z.to_nat k) (map snd ranked ++ repeat (-1) (Z.to_nat k))).

(** Layer-0 adjacency, direction ignored. *)
Definition linked0 (graph : HNSWGraph) (a b : Z) : Prop :=
  In b (connections (node_at (nodes graph) a) 0)
  \/ In a (connections (node_at (nodes graph) b) 0).

Definition weakly_connected_layer0 (graph : HNSWGraph) : Prop :=
  forall a b, 0 <= a < node_count graph -> 0 <= b < node_count graph ->
              rtc (linked0 graph) a b.

(** Every listed neighbor exists on the layer and lists the node back. *)
Definition bidirectional (ns : list HNSWNode) : Prop :=
  forall n layer,
    0 <= n < Z.of_nat (length ns) -> 0 <= layer ->
    Forall (fun m => layer <= maximum_layer (node_at ns m)
                     /\ In n (connections (node_at ns m) layer))
           (connections (node_at ns n) layer).

(** ** Well-formed graphs for serialization *)

(** A node as the builder makes it: a non-negative top layer, one neighbor
    list per layer, every stored number an [int]. *)
Definition wf_node (node : HNSWNode) : Prop :=
  0 <= maximum_layer node <= INT_MAX
  /\ Z.of_nat (length (layer_connections node)) = maximum_layer node + 1
  /\ Forall (Forall in_int_range) (layer_connections node).

Definition wf_graph (graph : HNSWGraph) : Prop :=
  node_count graph = Z.of_nat (length (nodes graph))
  /\ node_count graph <= INT_MAX
  /\ Forall wf_node (nodes graph).

(** The memory image of a node after a complete parse. *)
Definition mem_of_node (node : HNSWNode) : MemNode :=
  {| m_vector_id := 0;
     m_maximum_layer := maximum_layer node;
     m_layer_connections := cptr_to (map cptr_to (layer_connections node));
     m_connection_counts :=
       cptr_to (map (fun conns => Z.of_nat (length conns)) (layer_connections node));
     m_allocated_connection_sizes :=
       cptr_to (map (fun conns => Z.of_nat (length conns)) (layer_connections node)) |}.

(** Distance of a stored node to the query, and lists of node ids in
    ascending order of that distance (no later id is strictly closer). *)
Definition distance_to (graph : HNSWGraph) (query : Vector) (id : Z) : float :=
  calculate_euclidean_distance query (vector_at (original_vectors graph) id).

Definition closest_first (graph : HNSWGraph) (query : Vector) (ids : list Z) : Prop :=
  StronglySorted
    (fun a b => flt (distance_to graph query b) (distance_to graph query a) = false) ids.

(** What [search_layer] relies on: the arrays have [node_count] entries and
    every stored neighbor id indexes them. *)
Definition wf_search_graph (graph : HNSWGraph) : Prop :=
  0 <= node_count graph
  /\ forall id layer neighbor,
       In neighbor (connections (node_at (nodes graph) id) layer) ->
       0 <= neighbor < node_count graph.

Definition brute_force_slots (index : VectorIndex) (query : Vector) (k : Z) (n : nat)
  : list Z * list float :=
  fold_left
    (fun slots vector_index =>
       knn_insert (fst (scored_at index query vector_index))
                  (snd (scored_at index query vector_index)) slots)
    (seq 0 n) (repeat (-1) (Z.to_nat k), repeat FLT_MAX (Z.to_nat k)).

Fixpoint ins (x : float * Z) (l : list (float * Z)) : list (float * Z) :=
  match l with
  | [] => [x]
  | y :: l' => if flt (fst x) (fst y) then x :: y :: l' else y :: ins x l'
  end.

(** The eligible ids among the first [n], inserted in id order. *)
Definition ranking (index : VectorIndex) (query : Vector) (n : nat) : list (float * Z) :=
  fold_left
    (fun R i => if eligible (scored_at index query i)
                then ins (scored_at index query i) R else R)
    (seq 0 n) [].

Definition padding (k : Z) : list (float * Z) := repeat (FLT_MAX, -1) (Z.to_nat k).

Definition vector_of_ints (zs : list Z) : Vector :=
  {| data := map float_of_int zs; len := Z.of_nat (length zs) |}.

(** One stored vector [(2^100)] and the query [(0)]: the squared difference
    overflows binary32. *)
Definition overflow_index : VectorIndex :=
  create_index [ {| data := [S754_finite false 8388608 77]; len := 1 |} ] 1.
Definition origin_query : Vector := vector_of_ints [0].

Definition line_index : VectorIndex :=
  create_index [vector_of_ints [0]; vector_of_ints [5]; vector_of_ints [2]] 3.

Definition stray_graph : HNSWGraph :=
  {| nodes := [ {| vector_id := 0; maximum_layer := 0; layer_connections := [[7]] |} ];
     original_vectors := [origin_query];
     node_count := 1; entry_point_node_id := 0; maximum_layer_in_graph := 0;
     max_connections_per_node := 16; max_connections_layer_zero := 32;
     level_generation_factor := fzero; construction_search_width := 32 |}.

Definition no_edges (ns : list HNSWNode) : Prop :=
  forall id layer, connections (node_at ns id) layer = [].

Definition ids_1_to (vector_count : Z) : list Z :=
  map Z.of_nat (seq 1 (Z.to_nat vector_count - 1)).

Definition glibc_RAND_MAX : Z := 2147483647.
Definition one_half : float := fdiv (float_of_int 1) (float_of_int 2).
Definition four_points : list Vector :=
  [vector_of_ints [0]; vector_of_ints [5]; vector_of_ints [2]; vector_of_ints [9]].
(** Draws giving the four nodes the top layers 0, 1, 0, 0. *)
Definition four_draws : list Z :=
  [glibc_RAND_MAX; 0; glibc_RAND_MAX; glibc_RAND_MAX; glibc_RAND_MAX].

(** The cursor: [stream] is what lies at byte offset [ptr]. *)
Definition at_offset (buffer : list byte) (ptr : Z) (stream : list byte) : Prop :=
  0 <= ptr /\ drop (Z.to_nat ptr) buffer = stream.

Definition layer_stream (conns : list Z) : list byte :=
  write_int (Z.of_nat (length conns)) ++ flat_map write_int conns.

Definition parent (i : nat) : nat := ((i - 1) / 2)%nat.

Definition heap_ok (m : bool) (cs : list SearchCandidate) : Prop :=
  forall i, (0 < i < length cs)%nat ->
            better m (distance_at cs i) (distance_at cs (parent i)) = false.

(** The order holds except between [c] and its parent, and the children of
    [c] respect the parent of [c]. *)
Definition heap_except_up (m : bool) (cs : list SearchCandidate) (c : nat) : Prop :=
  (forall i, (0 < i < length cs)%nat -> i <> c ->
             better m (distance_at cs i) (distance_at cs (parent i)) = false)
  /\ (forall j, (0 < j < length cs)%nat -> parent j = c -> (0 < c)%nat ->
                better m (distance_at cs j) (distance_at cs (parent c)) = false).

(** The order holds except between [p] and its children, and the children
    of [p] respect the parent of [p]. *)
Definition heap_except_down (m : bool) (cs : list SearchCandidate) (p : nat) : Prop :=
  (forall i, (0 < i < length cs)%nat -> parent i <> p ->
             better m (distance_at cs i) (distance_at cs (parent i)) = false)
  /\ (forall j, (0 < j < length cs)%nat -> parent j = p -> (0 < p)%nat ->
                better m (distance_at cs j) (distance_at cs (parent p)) = false).

Definition numbers (cs : list SearchCandidate) : Prop :=
  Forall (fun c => is_nan (distance c) = false) cs.

(** The index [heapify_down] selects among a node and its children. *)
Definition down_target (m : bool) (cs : list SearchCandidate) (p : nat) : nat :=
  let left_child := (2 * p + 1)%nat in
  let right_child := (2 * p + 2)%nat in
  let target_index :=
    if (left_child <? length cs)%nat
    then if better m (distance_at cs left_child) (distance_at cs p)
         then left_child else p
    else p in
  if (right_child <? length cs)%nat
  then if better m (distance_at cs right_child) (distance_at cs target_index)
       then right_child else target_index
  else target_index.

Definition tagged (graph : HNSWGraph) (query : Vector) (cs : list SearchCandidate) : Prop :=
  Forall (fun c => distance c = distance_to graph query (node_id c)) cs.

Definition count_clear (flags : list bool) : nat := length (List.filter negb flags).

(** The queue holding the best results so far. *)
Definition visited_ok (graph : HNSWGraph) (query : Vector) (cap : Z)
    (visited : PriorityQueue) : Prop :=
  is_max_heap visited = true
  /\ capacity visited = cap
  /\ heap_ok true (candidates visited)
  /\ numbers (candidates visited)
  /\ tagged graph query (candidates visited)
  /\ size visited <= cap.

(** What the search loop maintains, and what decreases with every round. *)
Definition loop_inv (graph : HNSWGraph) (query : Vector) (ef : Z) (st : search_state)
  : Prop :=
  visited_ok graph query (2 * ef) (st_visited st)
  /\ (1 <= length (candidates (st_visited st)))%nat
  /\ length (st_flags st) = Z.to_nat (node_count graph).

Definition loop_measure (st : search_state) : nat :=
  (count_clear (st_flags st) + length (candidates (st_candidates st)))%nat.

Definition layer0_node (id : Z) (neighbors : list Z) : HNSWNode :=
  {| vector_id := id; maximum_layer := 0; layer_connections := [neighbors] |}.

Definition layer0_graph (ns : list HNSWNode) (vs : list Vector) : HNSWGraph :=
  {| nodes := ns; original_vectors := vs; node_count := Z.of_nat (length ns);
     entry_point_node_id := 0; maximum_layer_in_graph := 0;
     max_connections_per_node := 16; max_connections_layer_zero := 32;
     level_generation_factor := fzero; construction_search_width := 32 |}.

(** The path 0 - 1 - 2 - 3 over the points 0, 5, 2, 9 of the line. *)
Definition path_graph : HNSWGraph :=
  layer0_graph
    [layer0_node 0 [1]; layer0_node 1 [0; 2]; layer0_node 2 [1; 3]; layer0_node 3 [2]]
    four_points.

(** A star around node 0 whose first leaf stores a NaN coordinate. *)
Definition nan_star : HNSWGraph :=
  layer0_graph
    [layer0_node 0 [1; 2; 3]; layer0_node 1 []; layer0_node 2 []; layer0_node 3 []]
    [vector_of_ints [3]; {| data := [S754_nan]; len := 1 |};
     vector_of_ints [2]; vector_of_ints [10]].

(** Two nodes on layers 0 and 1, linked to each other on both. *)
Definition two_layer_graph : HNSWGraph :=
  {| nodes := [ {| vector_id := 0; maximum_layer := 1; layer_connections := [[1]; [1]] |};
                {| vector_id := 1; maximum_layer := 1; layer_connections := [[0]; [0]] |} ];
     original_vectors := [vector_of_ints [0]; vector_of_ints [5]];
     node_count := 2; entry_point_node_id := 0; maximum_layer_in_graph := 1;
     max_connections_per_node := 16; max_connections_layer_zero := 32;
     level_generation_factor := one_half; construction_search_width := 32 |}.

Definition two_layer_stream : list byte :=
  flat_map write_int [2; 1; 1; 1; 1; 1; 1; 1; 1; 1; 1; 1; 0; 1; 0].

(** [two_layer_stream] with the redundant count of node 0, layer 0 changed
    from 1 to 2, and with that of node 1, layer 1 changed from 1 to 2. *)
Definition flipped_first_count : list byte :=
  flat_map write_int [2; 1; 1; 1; 2; 1; 1; 1; 1; 1; 1; 1; 0; 1; 0].
Definition flipped_last_count : list byte :=
  flat_map write_int [2; 1; 1; 1; 1; 1; 1; 1; 1; 1; 1; 1; 0; 2; 0].

Definition in_heap (cs : list SearchCandidate) (id : Z) : Prop :=
  exists c, c ∈ cs /\ node_id c = id.

(** Every entry of the result heap is a visited node, and every visited
    node is either in the heap or not strictly closer than any entry of a
    heap that already holds [ef] entries. *)
Definition covers (graph : HNSWGraph) (query : Vector) (ef : Z) (st : search_state)
  : Prop :=
  (forall c, c ∈ candidates (st_visited st) ->
             flag_at (st_flags st) (node_id c) = true
             /\ 0 <= node_id c < node_count graph)
  /\ (forall id, 0 <= id < node_count graph -> flag_at (st_flags st) id = true ->
                 in_heap (candidates (st_visited st)) id
                 \/ (ef <= size (st_visited st)
                     /\ forall c, c ∈ candidates (st_visited st) ->
                                  flt (distance_to graph query id) (distance c) = false)).

(** Equality up to the sign bit. *)
Definition same_magnitude (x y : float) : Prop :=
  match x, y with
  | S754_zero _, S754_zero _ => True
  | S754_infinity _, S754_infinity _ => True
  | S754_nan, S754_nan => True
  | S754_finite _ mx ex, S754_finite _ my ey => mx = my /\ ex = ey
  | _, _ => False
  end.

(** A value whose sign bit is clear, or NaN. *)
Definition sign_clear (x : float) : Prop :=
  match x with
  | S754_zero s | S754_infinity s | S754_finite s _ _ => s = false
  | S754_nan => True
  end.

(** A number: zero or finite, neither infinite nor NaN. *)
Definition is_number (x : float) : bool :=
  match x with
  | S754_zero _ | S754_finite _ _ _ => true
  | _ => false
  end.

(** The test of the sampling loop for one value returned by [rand()]. *)
Definition draw_passes (RAND_MAX : Z) (level_generation_factor : float) (r : Z) : bool :=
  flt (fdiv (float_of_int r) (float_of_int RAND_MAX)) level_generation_factor.

(** A queue in the state the heap routines maintain: heap order for its
    kind, no NaN key, and not more entries than its capacity. *)
Definition queue_ok (queue : PriorityQueue) : Prop :=
  heap_ok (is_max_heap queue) (candidates queue)
  /\ numbers (candidates queue)
  /\ size queue <= capacity queue.

(** The layout [create_hnsw_node] gives a node: one neighbor list for each
    of the layers [0 .. maximum_layer]. *)
Definition node_shape (node : HNSWNode) : Prop :=
  0 <= maximum_layer node
  /\ Z.of_nat (length (layer_connections node)) = maximum_layer node + 1.

(** What the initialization loop maintains while the nodes of [graph] are
    the ones created so far; [bound] limits the number of draws left. *)
Definition sampled_ok (bound : Z) (graph : HNSWGraph) : Prop :=
  (forall i node,
      nodes graph !! i = Some node ->
      node = create_hnsw_node (Z.of_nat i) (maximum_layer node)
      /\ 0 <= maximum_layer node <= bound
      /\ maximum_layer node <= maximum_layer_in_graph graph
      /\ (Z.of_nat i < entry_point_node_id graph ->
          maximum_layer node < maximum_layer_in_graph graph))
  /\ 0 <= maximum_layer_in_graph graph
  /\ (nodes graph = [] ->
      entry_point_node_id graph = 0 /\ maximum_layer_in_graph graph = 0)
  /\ (nodes graph <> [] ->
      exists node,
        0 <= entry_point_node_id graph
        /\ nodes graph !! Z.to_nat (entry_point_node_id graph) = Some node
        /\ maximum_layer node = maximum_layer_in_graph graph).

(** The fields the initialization loop never writes. *)
Definition same_parameters (g g' : HNSWGraph) : Prop :=
  original_vectors g' = original_vectors g
  /\ node_count g' = node_count g
  /\ max_connections_per_node g' = max_connections_per_node g
  /\ max_connections_layer_zero g' = max_connections_layer_zero g
  /\ level_generation_factor g' = level_generation_factor g
  /\ construction_search_width g' = construction_search_width g.

(** The ids stored in the result heap are pairwise distinct. *)
Definition distinct_ids (st : search_state) : Prop :=
  NoDup (map node_id (candidates (st_visited st))).

(** The path graph of four points, wrapped in an index. *)
Definition path_index : VectorIndex :=
  {| vectors := four_points; index_len := 4;
     hnsw_graph := Some path_graph; use_hnsw_optimization := true |}.

(** Bytes of the layers of a node: per layer its count twice and its ids. *)
Definition layers_bytes (lists : list (list Z)) : Z :=
  fold_right (fun conns acc => 8 + 4 * Z.of_nat (length conns) + acc) 0 lists.

(** Bytes of a node: its top layer and its layers. *)
Definition node_bytes (node : HNSWNode) : Z := 4 + layers_bytes (layer_connections node).

(** Bytes of a graph: the node count and the nodes. *)
Definition graph_bytes (graph : HNSWGraph) : Z :=
  4 + fold_right (fun node acc => node_bytes node + acc) 0 (nodes graph).

(** A node all of whose arrays have been allocated and filled. *)
Definition complete_node (m : MemNode) : Prop :=
  exists node, m = mem_of_node node /\ node_shape node.

(** The similarity the loop computes for one stored vector; [None] when the
    vector or the query has norm zero and the vector is skipped. *)
Definition cosine_similarity (v query : Vector) : option float :=
  let '(dot_product, norm_a, norm_b) := cosine_terms v query in
  if feq norm_a fzero || feq norm_b fzero then None
  else Some (fdiv dot_product (fmul (sqrtf norm_a) (sqrtf norm_b))).

(** Vector [i] with its similarity, when it reaches the threshold. *)
Definition cosine_match (vectors : list Vector) (query : Vector) (threshold : float)
    (i : nat) : option (Z * float) :=
  match cosine_similarity (vector_at vectors (Z.of_nat i)) query with
  | Some similarity =>
      if fge similarity threshold then Some (Z.of_nat i, similarity) else None
  | None => None
  end.

(** The matches among the first [n] vectors, in index order. *)
Definition cosine_matches (vectors : list Vector) (query : Vector) (threshold : float)
    (n : nat) : list (Z * float) :=
  omap (cosine_match vectors query threshold) (seq 0 n).

(** Descending similarity, ties between equal similarities by ascending
    index. *)
Definition more_similar (p q : Z * float) : Prop :=
  flt (snd q) (snd p) = true \/ (flt (snd p) (snd q) = false /\ fst p < fst q).

(** One comparison of the bubble sort, on pairs. *)
Definition bubble_step (ps : list (Z * float)) (j : nat) : list (Z * float) :=
  match ps !! j, ps !! S j with
  | Some p, Some p' => if flt (snd p) (snd p') then swap_at ps j else ps
  | _, _ => ps
  end.

Definition bubble_sort_pairs (m : nat) (ps : list (Z * float)) : list (Z * float) :=
  fold_left (fun ps i => fold_left bubble_step (seq 0 (m - 1 - i)) ps) (seq 0 (m - 1)) ps.

(** [R] holds between every entry and every later one. *)
Definition ordered {A} (R : A -> A -> Prop) (l : list A) : Prop :=
  forall i j x y, (i < j)%nat -> l !! i = Some x -> l !! j = Some y -> R x y.

(** Later entries never sit ahead of an earlier index without a strictly
    larger similarity: what keeps the sort stable. *)
Definition fair (p q : Z * float) : Prop :=
  fst p < fst q \/ flt (snd q) (snd p) = true.

Definition not_below (p q : Z * float) : Prop := flt (snd p) (snd q) = false.

Definition similarities_are_numbers (ps : list (Z * float)) : Prop :=
  Forall (fun p => is_nan (snd p) = false) ps.

Definition three_directions : list Vector :=
  [vector_of_ints [1; 0]; vector_of_ints [0; 0]; vector_of_ints [1; 1];
   vector_of_ints [2; 0]].

(** Candidates in ascending order of distance. *)
Definition ascending (cs : list SearchCandidate) : Prop :=
  StronglySorted (fun a b => flt (distance b) (distance a) = false) cs.

Definition three_candidates : PriorityQueue :=
  insert_candidate
    (insert_candidate
       (insert_candidate (create_priority_queue 4 false) 1 (float_of_int 5))
       2 (float_of_int 3))
    3 (float_of_int 4).

(** What the search loop maintains even when distances are NaN: the result
    heap holds between 1 and [2 * ef] entries, all of them flagged nodes. *)
Definition bounded_inv (graph : HNSWGraph) (ef : Z) (st : search_state) : Prop :=
  capacity (st_visited st) = 2 * ef
  /\ (1 <= length (candidates (st_visited st)))%nat
  /\ Z.of_nat (length (candidates (st_visited st))) <= 2 * ef
  /\ length (st_flags st) = Z.to_nat (node_count graph)
  /\ forall c, c ∈ candidates (st_visited st) ->
               flag_at (st_flags st) (node_id c) = true
               /\ 0 <= node_id c < node_count graph.

(** What a search reads: [node_count] well-formed nodes and as many stored
    vectors, [len] floats in every vector, and neighbor ids that are
    nodes. *)
Definition search_ready (graph : HNSWGraph) (query : Vector) : Prop :=
  wf_graph graph
  /\ wf_search_graph graph
  /\ Z.of_nat (length (original_vectors graph)) = node_count graph
  /\ Forall valid_vector (original_vectors graph)
  /\ valid_vector query.

(** An index announcing no vector in front of the path graph. *)
Definition empty_path_index : VectorIndex :=
  {| vectors := []; index_len := 0;
     hnsw_graph := Some path_graph; use_hnsw_optimization := true |}.

(** The "Make bidirectional connections" loop: the node being inserted is
    linked with each selected id in turn. *)
Definition link_selected (ns : list HNSWNode) (current_node_id connection_layer : Z)
    (selected_connections : list Z) : list HNSWNode :=
  fold_left (fun ns selected => link ns current_node_id connection_layer selected)
            selected_connections ns.

(** Every node of the array has the layout [create_hnsw_node] gives it. *)
Definition shaped (ns : list HNSWNode) : Prop :=
  forall i, 0 <= i < Z.of_nat (length ns) -> node_shape (node_at ns i).

(** Newest first: node 2 exists on layers 0 and 1, nodes 0 and 1 on layer 0. *)
Definition three_nodes : list HNSWNode :=
  [create_hnsw_node 0 0; create_hnsw_node 1 0; create_hnsw_node 2 1].

(** * Verification *)

(** * Order facts on binary32 comparisons *)

Lemma pos_compare_cont_eq (m1 m2 : positive) :
  Pos.compare_cont Eq m1 m2 = (m1 ?= m2)%positive.
Proof. reflexivity. Qed.

Ltac float_order :=
  repeat match goal with
  | x : float |- _ => destruct x as [[]|[]| |[] ? ?]
  | x : spec_float |- _ => destruct x as [[]|[]| |[] ? ?]
  end;
  unfold flt, fgt, SFltb, SFcompare in *; simpl in *;
  rewrite ?pos_compare_cont_eq in *;
  try congruence;
  repeat match goal with
  | H : context [(?a ?= ?b)%Z] |- _ => destruct (Z.compare_spec a b); simpl in H
  | |- context [(?a ?= ?b)%Z] => destruct (Z.compare_spec a b); simpl
  | H : context [(?a ?= ?b)%positive] |- _ => destruct (Pos.compare_spec a b); simpl in H
  | |- context [(?a ?= ?b)%positive] => destruct (Pos.compare_spec a b); simpl
  end;
  try congruence; try lia.

Lemma flt_irrefl (a : float) : flt a a = false.
Proof. float_order. Qed.

Lemma flt_trans (a b c : float) :
  flt a b = true -> flt b c = true -> flt a c = true.
Proof. intros H1 H2. float_order. Qed.

Lemma flt_nan_l (a : float) : is_nan a = true -> forall b, flt a b = false.
Proof. intros H b. destruct a; try discriminate. reflexivity. Qed.

Lemma flt_not_nan (a b : float) : flt a b = true -> is_nan a = false /\ is_nan b = false.
Proof. intros H. destruct a as [[]|[]| |[] ? ?], b as [[]|[]| |[] ? ?]; simpl; try (split; reflexivity); discriminate. Qed.

(** On numbers the comparison is a total preorder. *)
Lemma flt_lt_le_trans (a b c : float) :
  flt a b = true -> flt c b = false -> is_nan c = false -> flt a c = true.
Proof. intros H1 H2 H3. float_order. Qed.

Lemma flt_le_lt_trans (a b c : float) :
  flt b a = false -> flt b c = true -> is_nan a = false -> flt a c = true.
Proof. intros H1 H2 H3. float_order. Qed.

Lemma flt_le_trans (a b c : float) :
  flt b a = false -> flt c b = false -> is_nan b = false -> flt c a = false.
Proof. intros H1 H2 H3. float_order. Qed.

Lemma flt_asym (a b : float) : flt a b = true -> flt b a = false.
Proof. intros H. float_order. Qed.

Lemma FLT_MAX_not_lt_self : flt FLT_MAX FLT_MAX = false.
Proof. reflexivity. Qed.

(** * Distance kernel *)

Lemma calculate_euclidean_distance_mismatch (a b : Vector) :
  len a <> len b -> calculate_euclidean_distance a b = FLT_MAX.
Proof.
  intros H. unfold calculate_euclidean_distance.
  destruct (Z.eqb_spec (len a) (len b)); [contradiction | reflexivity].
Qed.

(** * Brute-force insertion *)

Lemma Forall_repeat_same {A} (P : A -> Prop) (x : A) (n : nat) :
  P x -> Forall P (repeat x n).
Proof. intros H. induction n; simpl; constructor; auto. Qed.

Lemma find_insertion_position_none cur ds pos :
  Forall (fun d => flt cur d = false) ds ->
  find_insertion_position cur ds pos = None.
Proof.
  intros H. revert pos. induction H as [|d ds Hd _ IH]; intros pos; simpl.
  - reflexivity.
  - rewrite Hd. apply IH.
Qed.

Lemma knn_insert_skip cur id ns ds :
  Forall (fun d => flt cur d = false) ds ->
  knn_insert cur id (ns, ds) = (ns, ds).
Proof.
  intros H. unfold knn_insert. now rewrite find_insertion_position_none.
Qed.

Lemma knn_search_brute_force index query k :
  use_hnsw_optimization index = false -> 0 <= k ->
  knn_search index query k =
  Some (fst (brute_force_slots index query k (Z.to_nat (index_len index)))).
Proof.
  intros Hu Hk. unfold knn_search. rewrite Hu.
  unfold malloc_ok. destruct (Z.leb_spec 0 k); [reflexivity | lia].
Qed.

Lemma brute_force_slots_mismatch index query k n :
  (forall i, (i < n)%nat ->
             len (vector_at (vectors index) (Z.of_nat i)) <> len query) ->
  brute_force_slots index query k n = (repeat (-1) (Z.to_nat k), repeat FLT_MAX (Z.to_nat k)).
Proof.
  unfold brute_force_slots. induction n as [|n IH]; intros H.
  - reflexivity.
  - rewrite seq_S, fold_left_app. cbn [fold_left Nat.add].
    rewrite IH by (intros; apply H; lia).
    unfold scored_at. cbn [fst snd].
    rewrite calculate_euclidean_distance_mismatch.
    + apply knn_insert_skip, Forall_repeat_same. reflexivity.
    + intros E. apply (H n); [lia | congruence].
Qed.

(** C8: a length mismatch makes [calculate_euclidean_distance] return
    [FLT_MAX]; hence a brute-force [knn_search] whose query dimension differs
    from that of every stored vector returns [k] sentinel ids [-1]. *)
Theorem dimension_mismatch_yields_sentinels :
  (forall a b : Vector, len a <> len b -> calculate_euclidean_distance a b = FLT_MAX)
  /\ (forall (index : VectorIndex) (query : Vector) (k : Z),
        use_hnsw_optimization index = false ->
        0 <= k ->
        (forall i, 0 <= i < index_len index ->
                   len (vector_at (vectors index) i) <> len query) ->
        knn_search index query k = Some (repeat (-1) (Z.to_nat k))).
Proof.
  split.
  - apply calculate_euclidean_distance_mismatch.
  - intros index query k Hu Hk Hdim.
    rewrite knn_search_brute_force by assumption.
    rewrite brute_force_slots_mismatch; [reflexivity|].
    intros i Hi. apply Hdim. lia.
Qed.

(** ** The insertion array as a truncated sorted list *)

Lemma find_insertion_position_shift cur ds pos :
  find_insertion_position cur ds (S pos) =
  option_map S (find_insertion_position cur ds pos).
Proof.
  revert pos. induction ds as [|d ds IH]; intros pos; simpl; [reflexivity|].
  destruct (flt cur d); [reflexivity | apply IH].
Qed.

Lemma ins_position cur id (S0 : list (float * Z)) :
  match find_insertion_position cur (map fst S0) 0 with
  | Some p => (p < length S0)%nat /\ ins (cur, id) S0 = take p S0 ++ (cur, id) :: drop p S0
  | None => ins (cur, id) S0 = S0 ++ [(cur, id)]
  end.
Proof.
  induction S0 as [|y S0 IH]; simpl; [reflexivity|].
  destruct (flt cur (fst y)).
  - split; [lia | reflexivity].
  - rewrite find_insertion_position_shift.
    destruct (find_insertion_position cur (map fst S0) 0) as [p|]; simpl.
    + destruct IH as [Hp ->]. split; [lia | reflexivity].
    + now rewrite IH.
Qed.

Lemma shift_insert_map {A B} (f : A -> B) pos x (l : list A) :
  shift_insert pos (f x) (map f l) = map f (shift_insert pos x l).
Proof.
  unfold shift_insert.
  rewrite map_app. simpl. rewrite !removelast_firstn_len.
  rewrite ?skipn_map, ?firstn_map, ?length_map, ?firstn_map. reflexivity.
Qed.

Lemma knn_insert_pairs cur id (S0 : list (float * Z)) :
  knn_insert cur id (map snd S0, map fst S0) =
  (map snd (take (length S0) (ins (cur, id) S0)),
   map fst (take (length S0) (ins (cur, id) S0))).
Proof.
  unfold knn_insert. pose proof (ins_position cur id S0) as H.
  destruct (find_insertion_position cur (map fst S0) 0) as [p|].
  - destruct H as [Hp ->].
    change id with (snd (cur, id)) at 1. change cur with (fst (cur, id)) at 2.
    rewrite !shift_insert_map. unfold shift_insert.
    assert (E : take (length S0) (take p S0 ++ (cur, id) :: drop p S0)
                = take p S0 ++ (cur, id) :: removelast (drop p S0)).
    { rewrite take_app. rewrite length_take.
      rewrite take_ge by (rewrite length_take; lia).
      f_equal. replace (length S0 - p `min` length S0)%nat with (S (length S0 - p - 1)) by lia.
      simpl. f_equal. rewrite removelast_firstn_len, length_drop.
      f_equal. lia. }
    now rewrite E.
  - rewrite H. now rewrite take_app_length.
Qed.

Lemma take_ins_take x k (L : list (float * Z)) :
  take k (ins x (take k L)) = take k (ins x L).
Proof.
  revert k. induction L as [|y L IH]; intros [|k]; simpl; try reflexivity.
  destruct (flt (fst x) (fst y)); simpl.
  - f_equal. change (y :: take k L) with (take (S k) (y :: L)).
    rewrite take_take. f_equal. lia.
  - f_equal. apply IH.
Qed.

Lemma ins_app_padding x R m :
  eligible x = true ->
  ins x (R ++ repeat (FLT_MAX, -1) m) = ins x R ++ repeat (FLT_MAX, -1) m.
Proof.
  intros Hx. induction R as [|y R IH]; simpl.
  - destruct m; simpl; [reflexivity|]. unfold eligible in Hx. now rewrite Hx.
  - destruct (flt (fst x) (fst y)); [reflexivity | now rewrite IH].
Qed.

Lemma ins_Permutation x R : Permutation (ins x R) (x :: R).
Proof.
  induction R as [|y R IH]; simpl; [reflexivity|].
  destruct (flt (fst x) (fst y)); [reflexivity|].
  eapply perm_trans; [apply perm_skip, IH | apply perm_swap].
Qed.

Lemma ins_sorted x R :
  eligible x = true ->
  Forall (fun e => eligible e = true /\ snd e < snd x) R ->
  StronglySorted ranked_before R ->
  StronglySorted ranked_before (ins x R).
Proof.
  intros Hx HR HS. induction HS as [|y R HS IH Hy]; simpl.
  - repeat constructor.
  - inversion HR as [|? ? [Hey Hidy] HR']; subst.
    destruct (flt (fst x) (fst y)) eqn:Hxy.
    + constructor; [constructor; assumption|].
      constructor; [left; assumption|].
      rewrite Forall_forall in Hy, HR'. apply Forall_forall. intros z Hz.
      left. destruct (Hy z Hz) as [Hyz | [Hzy _]].
      * eapply flt_trans; eassumption.
      * eapply flt_lt_le_trans; [eassumption | eassumption |].
        destruct (HR' z Hz) as [Hez _]. apply flt_not_nan in Hez. tauto.
    + constructor; [apply IH; assumption|].
      apply Forall_forall. intros z Hz.
      apply list_elem_of_In in Hz.
      apply (Permutation_in _ (ins_Permutation x R)) in Hz.
      destruct Hz as [<- | Hz].
      * right. split; [assumption | lia].
      * rewrite Forall_forall in Hy. apply Hy.
        apply list_elem_of_In. assumption.
Qed.

Section BruteForce.
Variables (index : VectorIndex) (query : Vector) (k : Z).

Lemma ranking_S n :
  ranking index query (S n) =
  if eligible (scored_at index query n)
  then ins (scored_at index query n) (ranking index query n)
  else ranking index query n.
Proof. unfold ranking. rewrite seq_S, fold_left_app. reflexivity. Qed.

Lemma ranking_facts n :
  Forall (fun e => eligible e = true /\ snd e < Z.of_nat n) (ranking index query n)
  /\ StronglySorted ranked_before (ranking index query n)
  /\ Permutation (ranking index query n)
                 (List.filter eligible (map (scored_at index query) (seq 0 n))).
Proof.
  induction n as [|n (HF & HS & HP)].
  - repeat split; constructor.
  - rewrite ranking_S, seq_S, map_app, List.filter_app. simpl.
    destruct (eligible (scored_at index query n)) eqn:He; simpl.
    + repeat split.
      * apply Forall_forall. intros z Hz. apply list_elem_of_In in Hz.
        apply (Permutation_in _ (ins_Permutation _ _)) in Hz.
        destruct Hz as [<- | Hz].
        -- split; [assumption | simpl; lia].
        -- rewrite Forall_forall in HF. apply list_elem_of_In in Hz.
           destruct (HF z Hz). split; [assumption | lia].
      * apply ins_sorted; [assumption | | assumption].
        eapply Forall_impl; [exact HF|]. simpl. intros z [? ?]. split; [assumption | lia].
      * eapply perm_trans; [apply ins_Permutation|].
        eapply perm_trans; [apply perm_skip, HP|].
        apply Permutation_cons_append.
    + repeat split.
      * eapply Forall_impl; [exact HF|]. simpl. intros z [? ?]. split; [assumption | lia].
      * assumption.
      * now rewrite app_nil_r.
Qed.

Lemma brute_force_slots_S n :
  brute_force_slots index query k (S n) =
  knn_insert (fst (scored_at index query n)) (snd (scored_at index query n))
             (brute_force_slots index query k n).
Proof. unfold brute_force_slots. rewrite seq_S, fold_left_app. reflexivity. Qed.

Lemma brute_force_slots_ranking n :
  brute_force_slots index query k n =
  (map snd (take (Z.to_nat k) (ranking index query n ++ padding k)),
   map fst (take (Z.to_nat k) (ranking index query n ++ padding k))).
Proof.
  induction n as [|n IH].
  - unfold brute_force_slots, ranking, padding. simpl.
    rewrite take_ge by (rewrite repeat_length; lia).
    now rewrite !map_repeat.
  - rewrite brute_force_slots_S, IH, ranking_S.
    destruct (scored_at index query n) as [cur id] eqn:Ed. simpl fst. simpl snd.
    destruct (eligible (cur, id)) eqn:He.
    + rewrite knn_insert_pairs.
      assert (El : length (take (Z.to_nat k) (ranking index query n ++ padding k))
                   = Z.to_nat k).
      { rewrite length_take, length_app. unfold padding. rewrite repeat_length. lia. }
      rewrite El, take_ins_take. unfold padding. now rewrite ins_app_padding.
    + apply knn_insert_skip.
      apply Forall_forall. intros d Hd.
      apply list_elem_of_In, in_map_iff in Hd. destruct Hd as [e [<- He']].
      apply list_elem_of_In, elem_of_take in He'. destruct He' as (j & He' & _).
      apply list_elem_of_lookup_2, elem_of_app in He'.
      destruct He' as [He' | He'].
      * destruct (ranking_facts n) as (HF & _). rewrite Forall_forall in HF.
        destruct (HF e He') as [Hel _]. unfold eligible in Hel, He. simpl in He.
        destruct (flt cur (fst e)) eqn:Hc; [|reflexivity].
        rewrite (flt_trans _ _ _ Hc Hel) in He. discriminate.
      * unfold padding in He'. apply list_elem_of_In, repeat_spec in He'. subst e.
        exact He.
Qed.

Lemma knn_search_ranking :
  use_hnsw_optimization index = false ->
  1 <= k ->
  knn_answer (List.filter eligible (scored index query)) k (knn_search index query k)
  /\ (forall result, knn_search index query k = Some result ->
                     Z.of_nat (length result) = k).
Proof.
  intros Hu Hk. rewrite knn_search_brute_force by (assumption || lia).
  rewrite brute_force_slots_ranking. simpl fst.
  destruct (ranking_facts (Z.to_nat (index_len index))) as (_ & HS & HP).
  split.
  - exists (ranking index query (Z.to_nat (index_len index))). repeat split.
    + exact HP.
    + exact HS.
    + f_equal. rewrite <- firstn_map, map_app. unfold padding.
      now rewrite map_repeat.
  - intros result [= <-]. rewrite length_map, length_take, length_app.
    unfold padding. rewrite repeat_length. lia.
Qed.
End BruteForce.

(** C6: brute-force [knn_search] returns exactly [k] ids: the stored ids
    whose distance to the query compares below [FLT_MAX], by ascending
    distance with ties between equal distances by ascending id, followed by
    [-1] sentinels when fewer than [k] such ids exist. *)
Theorem knn_search_brute_force_ranked
    (index : VectorIndex) (query : Vector) (k : Z) :
  use_hnsw_optimization index = false ->
  1 <= k ->
  knn_answer (List.filter eligible (scored index query)) k (knn_search index query k)
  /\ (forall result, knn_search index query k = Some result ->
                     Z.of_nat (length result) = k).
Proof. apply knn_search_ranking. Qed.

(** ** Concrete inputs *)

Lemma knn_search_overflow_counterexample :
  use_hnsw_optimization overflow_index = false
  /\ Forall (fun v => len v = len origin_query) (vectors overflow_index)
  /\ 1 <= 1
  /\ ~ knn_answer (scored overflow_index origin_query) 1
                  (knn_search overflow_index origin_query 1).
Proof.
  repeat split; [repeat constructor | lia |].
  intros (ranked & HP & _ & He).
  vm_compute in He.
  change (scored overflow_index origin_query) with [(S754_infinity false, 0)] in HP.
  apply Permutation_sym, Permutation_length_1_inv in HP. subst ranked. discriminate He.
Qed.

Lemma knn_search_brute_force_ranked_witness :
  knn_answer (List.filter eligible (scored line_index (vector_of_ints [3]))) 2
             (knn_search line_index (vector_of_ints [3]) 2)
  /\ (forall result, knn_search line_index (vector_of_ints [3]) 2 = Some result ->
                     Z.of_nat (length result) = 2).
Proof.
  apply (knn_search_brute_force_ranked line_index (vector_of_ints [3]) 2);
    [reflexivity | lia].
Defined.

Lemma dimension_mismatch_yields_sentinels_witness :
  calculate_euclidean_distance (vector_of_ints [1; 2; 3; 4]) (vector_of_ints [1; 2; 3; 4; 5])
  = FLT_MAX
  /\ knn_search line_index (vector_of_ints [3; 4]) 2 = Some [-1; -1].
Proof.
  destruct dimension_mismatch_yields_sentinels as [Hd Hk]. split.
  - apply Hd. simpl. lia.
  - apply (Hk line_index (vector_of_ints [3; 4]) 2); [reflexivity | lia |].
    intros i Hi. simpl in Hi.
    assert (E : i = 0 \/ i = 1 \/ i = 2) by lia.
    destruct E as [-> | [-> | ->]]; simpl; lia.
Defined.

(** * An entry point without validation *)

(** [knn_search] on an empty index ([n = 0]) returns a non-null array. *)
Lemma knn_search_no_validation_counterexample :
  index_len (create_index [] 0) <= 0
  /\ knn_search (create_index [] 0) origin_query 1 = Some [-1]
  /\ ~ (forall index query k,
           k <= 0 \/ index_len index <= 0 -> knn_search index query k = None).
Proof.
  split; [simpl; lia|]. split; [reflexivity|].
  intros H. specialize (H (create_index [] 0) origin_query 1).
  discriminate H. right. simpl. lia.
Qed.

(** * Deserializer: neighbor ids are not validated *)

(** C10: a well-formed stream (here the serialization of a one-node graph)
    that carries the neighbor id 7, outside [0, node_count), is accepted:
    [deserialize_hnsw_graph] returns a graph holding that id. *)
Theorem deserialize_accepts_out_of_range_neighbor :
  exists (buffer : list byte) (size : Z) (restored : MemGraph) (node : MemNode),
    serialize_hnsw_graph (Some stray_graph) = Ret (Some (buffer, size))
    /\ deserialize_hnsw_graph buffer size = Ret (Some restored)
    /\ m_node_count restored = 1
    /\ m_nodes restored !! 0%nat = Some node
    /\ m_layer_connections node = cptr_to [cptr_to [7]]
    /\ ~ (0 <= 7 < m_node_count restored).
Proof.
  eexists _, _, _, _. split; [vm_compute; reflexivity|].
  split; [vm_compute; reflexivity|].
  repeat split; simpl; lia.
Qed.


(** * Graph construction *)

Lemma set_nodes_same graph : set_nodes graph (nodes graph) = graph.
Proof. destruct graph; reflexivity. Qed.

Lemma connections_create_hnsw_node id top layer :
  connections (create_hnsw_node id top) layer = [].
Proof.
  unfold connections, create_hnsw_node. simpl.
  destruct (nth_in_or_default (Z.to_nat layer)
              (repeat (@nil Z) (Z.to_nat (top + 1))) []) as [H | H]; [|exact H].
  now apply repeat_spec in H.
Qed.

Lemma no_edges_app ns node :
  no_edges ns -> (forall layer, connections node layer = []) -> no_edges (ns ++ [node]).
Proof.
  intros Hns Hnode id layer. unfold node_at.
  destruct (Nat.lt_ge_cases (Z.to_nat id) (length ns)) as [Hlt | Hge].
  - rewrite app_nth1 by assumption. apply Hns.
  - rewrite app_nth2 by assumption.
    destruct (Z.to_nat id - length ns)%nat as [|[|j]]; simpl; [apply Hnode | |];
      unfold connections; simpl; now destruct (Z.to_nat layer).
Qed.

Lemma no_edges_nil : no_edges [].
Proof.
  intros id layer. unfold node_at, connections.
  destruct (Z.to_nat id); simpl; now destruct (Z.to_nat layer).
Qed.

(** Phase 1 creates nodes without connections and keeps the header. *)
Lemma initialize_nodes_spec RAND_MAX lf remaining :
  forall vector_index tape graph graph',
    initialize_nodes RAND_MAX lf remaining vector_index tape graph = Some graph' ->
    no_edges (nodes graph) ->
    no_edges (nodes graph')
    /\ length (nodes graph') = (length (nodes graph) + remaining)%nat
    /\ node_count graph' = node_count graph.
Proof.
  induction remaining as [|remaining IH]; intros vector_index tape graph graph' H Hno; simpl in H.
  - injection H as <-. repeat split; [assumption | lia].
  - destruct (determine_random_layer RAND_MAX lf tape) as [[node_layer tape']|];
      [|discriminate].
    apply IH in H.
    + destruct H as (H1 & H2 & H3). split; [assumption|].
      destruct (node_layer >? maximum_layer_in_graph graph); simpl in *;
        rewrite length_app in H2; simpl in H2; split; (lia || assumption).
    + destruct (node_layer >? maximum_layer_in_graph graph); simpl;
        apply no_edges_app; auto using connections_create_hnsw_node.
Qed.

(** ** The construction beam search always drains the frontier *)

Lemma build_beam_loop_drains fuel graph vs cv layer width :
  forall queues layer_candidates visited_nodes,
    build_beam_loop fuel graph vs cv layer width queues
    = Some (layer_candidates, visited_nodes) ->
    candidates layer_candidates = [].
Proof.
  induction fuel as [|fuel IH]; intros [lc vn] lc' vn' H; simpl in H; [discriminate|].
  destruct (Z.ltb_spec 0 (size lc)) as [Hpos | Hzero].
  - destruct (extract_top_candidate lc) as [[current rest]|]; [|discriminate].
    eapply IH. exact H.
  - injection H as <- <-. unfold size in Hzero.
    destruct (candidates lc); [reflexivity | simpl in Hzero; lia].
Qed.

Lemma copy_candidates_empty fuel queue max_conn :
  candidates queue = [] -> copy_candidates fuel queue max_conn [] = [].
Proof.
  intros H. destruct fuel; simpl; [reflexivity|].
  unfold size. rewrite H. reflexivity.
Qed.

(** Hence nothing is ever selected: a layer pass leaves the graph as it was. *)
Lemma connect_layer_unchanged fuel vs id entry width graph layer graph' :
  connect_layer fuel vs id entry width graph layer = Some graph' -> graph' = graph.
Proof.
  unfold connect_layer. intros H.
  destruct (build_beam_loop _ _ _ _ _ _ _) as [[lc vn]|] eqn:E; [|discriminate].
  apply build_beam_loop_drains in E.
  rewrite E in H. simpl length in H.
  rewrite copy_candidates_empty in H by assumption.
  injection H as <-. apply set_nodes_same.
Qed.

Lemma insert_layers_unchanged fuel vs id entry width layers :
  forall graph graph',
    fold_left
      (fun (acc : option HNSWGraph) connection_layer =>
         match acc with
         | None => None
         | Some graph => connect_layer fuel vs id entry width graph connection_layer
         end) layers (Some graph) = Some graph' ->
    graph' = graph.
Proof.
  induction layers as [|layer layers IH]; intros graph graph' H; simpl in H.
  - congruence.
  - destruct (connect_layer fuel vs id entry width graph layer) as [g1|] eqn:E.
    + apply connect_layer_unchanged in E. subst g1. now apply IH.
    + exfalso. clear -H. induction layers; simpl in H; [discriminate | auto].
Qed.

Lemma insert_node_unchanged fuel vs width graph id graph' :
  insert_node fuel vs width graph id = Some graph' -> graph' = graph.
Proof. unfold insert_node. apply insert_layers_unchanged. Qed.

Lemma insertion_loop_spec fuel vs vector_count width remaining :
  forall id graph inserted graph' log,
    id + Z.of_nat remaining <= vector_count ->
    insertion_loop fuel remaining id vs vector_count width graph inserted
    = Some (graph', log) ->
    graph' = graph
    /\ log = inserted ++ map (fun i => id + Z.of_nat i) (seq 0 remaining).
Proof.
  induction remaining as [|remaining IH]; intros id graph inserted graph' log Hb H;
    simpl in H.
  - injection H as <- <-. now rewrite app_nil_r.
  - destruct (Z.ltb_spec id vector_count); [|lia].
    destruct (insert_node fuel vs width graph id) as [g1|] eqn:E; [|discriminate].
    apply insert_node_unchanged in E. subst g1.
    apply IH in H; [|lia]. destruct H as [-> ->]. split; [reflexivity|].
    rewrite <- app_assoc. f_equal. simpl. rewrite Z.add_0_r. f_equal.
    rewrite <- seq_shift, map_map. apply map_ext. intros i. lia.
Qed.

(** ** Enough fuel: on a graph without edges each beam search takes one round *)

Lemma better_irrefl is_max d : better is_max d d = false.
Proof. destruct is_max; apply flt_irrefl. Qed.

Lemma insert_candidate_fresh_length width is_max id d :
  (length (candidates (insert_candidate (create_priority_queue width is_max) id d)) <= 1)%nat.
Proof.
  unfold insert_candidate, create_priority_queue, size, heapify_up, distance_at.
  simpl. rewrite better_irrefl.
  repeat match goal with |- context [if ?c then _ else _] => destruct c end;
    simpl; lia.
Qed.

Lemma extract_top_candidate_single queue :
  (length (candidates queue) <= 1)%nat -> 0 < size queue ->
  exists c, extract_top_candidate queue = Some (c, with_candidates queue []).
Proof.
  unfold size, extract_top_candidate. intros Hle Hpos.
  destruct (candidates queue) as [|c [|c' cs]]; simpl in *; try lia.
  exists c. reflexivity.
Qed.

Lemma build_beam_loop_total fuel graph vs cv layer width queues :
  no_edges (nodes graph) ->
  (length (candidates (fst queues)) <= 1)%nat ->
  (2 <= fuel)%nat ->
  exists result, build_beam_loop fuel graph vs cv layer width queues = Some result.
Proof.
  intros Hno Hlen Hfuel.
  destruct fuel as [|[|fuel]]; try lia.
  destruct queues as [lc vn]. simpl in Hlen.
  cbn [build_beam_loop].
  destruct (Z.ltb_spec 0 (size lc)) as [Hpos | Hzero]; [|eauto].
  destruct (extract_top_candidate_single lc Hlen Hpos) as [c ->].
  rewrite Hno. simpl fold_left.
  destruct (layer <=? maximum_layer (node_at (nodes graph) (node_id c))); simpl; eauto.
Qed.

Lemma connect_layer_total fuel vs id entry width graph layer :
  no_edges (nodes graph) -> (2 <= fuel)%nat ->
  connect_layer fuel vs id entry width graph layer = Some graph.
Proof.
  intros Hno Hfuel.
  destruct (connect_layer fuel vs id entry width graph layer) as [g'|] eqn:E.
  - apply connect_layer_unchanged in E. now subst.
  - exfalso. unfold connect_layer in E.
    match type of E with
    | context [build_beam_loop ?f ?g ?v ?c ?l ?w ?q] =>
        destruct (build_beam_loop_total f g v c l w q Hno) as [[lc vn] Hr];
          [simpl; apply insert_candidate_fresh_length | assumption |];
          rewrite Hr in E
    end.
    discriminate.
Qed.

Lemma insert_node_total fuel vs width graph id :
  no_edges (nodes graph) -> (2 <= fuel)%nat ->
  insert_node fuel vs width graph id = Some graph.
Proof.
  intros Hno Hfuel. unfold insert_node.
  generalize (fold_left (greedy_step graph vs (vector_at vs id))
                (layers_down (maximum_layer_in_graph graph)
                             (maximum_layer (node_at (nodes graph) id) + 1))
                (entry_point_node_id graph)).
  intros entry.
  induction (layers_down (maximum_layer (node_at (nodes graph) id)) 0) as [|l ls IH];
    simpl; [reflexivity|].
  rewrite connect_layer_total by assumption. exact IH.
Qed.

Lemma insertion_loop_total fuel vs vector_count width remaining :
  forall id graph inserted,
    no_edges (nodes graph) -> (2 <= fuel)%nat ->
    id + Z.of_nat remaining <= vector_count ->
    insertion_loop fuel remaining id vs vector_count width graph inserted
    = Some (graph, inserted ++ map (fun i => id + Z.of_nat i) (seq 0 remaining)).
Proof.
  intros id graph inserted Hno Hfuel Hb.
  destruct (insertion_loop fuel remaining id vs vector_count width graph inserted)
    as [[g' log]|] eqn:E.
  - apply insertion_loop_spec in E; [|assumption]. destruct E as [-> ->]. reflexivity.
  - exfalso. revert id graph inserted Hno Hb E.
    induction remaining as [|remaining IH]; intros id graph inserted Hno Hb E;
      simpl in E; [discriminate|].
    destruct (Z.ltb_spec id vector_count); [|lia].
    rewrite insert_node_total in E by assumption.
    eapply IH; [exact Hno | | exact E]. lia.
Qed.

Lemma ids_from_1 n : map (fun i => 1 + Z.of_nat i) (seq 0 n) = map Z.of_nat (seq 1 n).
Proof. rewrite <- seq_shift, map_map. apply map_ext. intros. lia. Qed.

(** C3: with [N >= 2] vectors the insertion loop body runs for every node id
    [1 .. N-1] before [build_hnsw_graph] returns: whenever the build returns,
    its log is exactly [1; ...; N-1]; and it does return, once the layer
    sampling has finished and each beam search is given two rounds, when
    [vectors] holds [N] vectors of [len] floats each and the construction
    width is [1 <= efC < 2^30] (both queues of a beam search then have a
    size that can be allocated, and neither is read while it holds no
    entry). *)
Theorem build_inserts_every_node
    (fuel : nat) (RAND_MAX : Z) (tape : list Z) (vs : list Vector)
    (N M M0 : Z) (lf : float) (efC : Z) :
  2 <= N ->
  (forall graph log,
      build_hnsw_graph_logged fuel RAND_MAX tape vs N M M0 lf efC = Some (graph, log) ->
      log = ids_1_to N)
  /\ (forall sampled,
        Z.of_nat (length vs) = N ->
        N <= INT_MAX ->
        Forall valid_vector vs ->
        1 <= efC < 1073741824 ->
        (2 <= fuel)%nat ->
        initialize_nodes RAND_MAX lf (Z.to_nat N) 0 tape (allocate_graph vs N M M0 lf efC)
        = Some sampled ->
        build_hnsw_graph_logged fuel RAND_MAX tape vs N M M0 lf efC
        = Some (sampled, ids_1_to N)).
Proof.
  intros HN. unfold build_hnsw_graph_logged, ids_1_to. split.
  - intros graph log H.
    destruct (initialize_nodes _ _ _ _ _ _) as [g0|]; [|discriminate].
    apply insertion_loop_spec in H; [|lia]. destruct H as [_ ->].
    simpl. rewrite ids_from_1.
    replace (Z.to_nat (N - 1)) with (Z.to_nat N - 1)%nat by lia. reflexivity.
  - intros sampled _ _ _ _ Hfuel Hs. rewrite Hs.
    apply initialize_nodes_spec in Hs; [|apply no_edges_nil].
    destruct Hs as (Hno & _ & _).
    rewrite insertion_loop_total by (assumption || lia).
    simpl. rewrite ids_from_1.
    replace (Z.to_nat (N - 1)) with (Z.to_nat N - 1)%nat by lia. reflexivity.
Qed.

(** ** Consequences for the returned graph *)

Lemma build_hnsw_graph_no_edges fuel RAND_MAX tape vs N M M0 lf efC graph :
  1 <= N ->
  build_hnsw_graph fuel RAND_MAX tape vs N M M0 lf efC = Some graph ->
  no_edges (nodes graph) /\ node_count graph = N.
Proof.
  unfold build_hnsw_graph, build_hnsw_graph_logged. intros HN H.
  destruct (initialize_nodes _ _ _ _ _ _) as [g0|] eqn:E0; [|discriminate].
  destruct (insertion_loop _ _ _ _ _ _ _ _) as [[g1 log]|] eqn:E1; [|discriminate].
  simpl in H. injection H as <-.
  apply insertion_loop_spec in E1; [|lia]. destruct E1 as [-> _].
  apply initialize_nodes_spec in E0; [|apply no_edges_nil].
  destruct E0 as (Hno & _ & Hc). split; assumption.
Qed.

Lemma rtc_no_edges graph a b :
  no_edges (nodes graph) -> rtc (linked0 graph) a b -> a = b.
Proof.
  intros Hno H. induction H as [|x y z Hxy _ IH]; [reflexivity|].
  exfalso. destruct Hxy as [H | H]; rewrite Hno in H; exact H.
Qed.

(** C1: the graph [build_hnsw_graph] returns for [N >= 2] is not weakly
    connected at layer 0: the builder selects neighbors from the frontier
    only after the frontier has been emptied, so no edge is ever added. *)
Theorem build_layer0_disconnected
    (fuel : nat) (RAND_MAX : Z) (tape : list Z) (vs : list Vector)
    (N M M0 : Z) (lf : float) (efC : Z) (graph : HNSWGraph) :
  2 <= N ->
  build_hnsw_graph fuel RAND_MAX tape vs N M M0 lf efC = Some graph ->
  (forall id layer, connections (node_at (nodes graph) id) layer = [])
  /\ ~ weakly_connected_layer0 graph.
Proof.
  intros HN H. apply build_hnsw_graph_no_edges in H; [|lia]. destruct H as [Hno Hc].
  split; [exact Hno|].
  intros Hw. specialize (Hw 0 1). rewrite Hc in Hw.
  assert (E : 0 = 1) by (apply (rtc_no_edges graph); [assumption | apply Hw; lia]).
  discriminate E.
Qed.

(** ** Concrete builds *)

Lemma valid_vector_of_ints (zs : list Z) : valid_vector (vector_of_ints zs).
Proof.
  unfold valid_vector, vector_of_ints. cbn [len data].
  rewrite length_map. split; [lia | reflexivity].
Qed.

Lemma four_points_valid : Forall valid_vector four_points.
Proof.
  unfold four_points.
  repeat (apply List.Forall_cons; [apply valid_vector_of_ints|]). apply List.Forall_nil.
Qed.

Lemma build_inserts_every_node_witness :
  exists graph,
    build_hnsw_graph_logged 2 glibc_RAND_MAX four_draws four_points 4 16 32 one_half 32
    = Some (graph, [1; 2; 3]).
Proof.
  eexists.
  apply (proj2 (build_inserts_every_node 2 glibc_RAND_MAX four_draws four_points
                  4 16 32 one_half 32 ltac:(lia)));
    [reflexivity | unfold INT_MAX; lia | exact four_points_valid | lia | lia
    | vm_compute; reflexivity].
Defined.

Lemma build_layer0_disconnected_witness :
  exists graph,
    build_hnsw_graph 2 glibc_RAND_MAX four_draws four_points 4 16 32 one_half 32
    = Some graph
    /\ (forall id layer, connections (node_at (nodes graph) id) layer = [])
    /\ ~ weakly_connected_layer0 graph.
Proof.
  eexists. split; [vm_compute; reflexivity|].
  apply (build_layer0_disconnected 2 glibc_RAND_MAX four_draws four_points
           4 16 32 one_half 32); [lia | vm_compute; reflexivity].
Defined.


(** * Serializer *)

Lemma wrap_int_id z : in_int_range z -> wrap_int z = z.
Proof.
  unfold in_int_range, INT_MIN, INT_MAX, wrap_int. intros H.
  rewrite Z.mod_small by lia. lia.
Qed.

Lemma wrap_int_range z : in_int_range (wrap_int z).
Proof.
  unfold in_int_range, INT_MIN, INT_MAX, wrap_int.
  pose proof (Z.mod_pos_bound (z + 2147483648) 4294967296 ltac:(lia)). lia.
Qed.

Lemma wrap_int_mod z : wrap_int (z mod 2 ^ 32) = wrap_int z.
Proof.
  unfold wrap_int. change (2 ^ 32) with 4294967296.
  rewrite Zplus_mod_idemp_l. reflexivity.
Qed.

Lemma length_write_int v : length (write_int v) = 4%nat.
Proof. apply length_le_split. Qed.

Lemma at_offset_advance buffer ptr pre rest :
  at_offset buffer ptr (pre ++ rest) ->
  at_offset buffer (ptr + Z.of_nat (length pre)) rest.
Proof.
  intros [Hp Hd]. split; [lia|].
  replace (Z.to_nat (ptr + Z.of_nat (length pre)))
    with (Z.to_nat ptr + length pre)%nat by lia.
  rewrite <- drop_drop, Hd. apply drop_app_length.
Qed.

Lemma read_int_at buffer ptr v rest :
  at_offset buffer ptr (write_int v ++ rest) -> in_int_range v ->
  read_int buffer ptr = Some v
  /\ at_offset buffer (ptr + 4) rest.
Proof.
  intros H Hv. split.
  - destruct H as [_ Hd]. unfold read_int. rewrite Hd.
    rewrite take_app_length' by (now rewrite length_write_int).
    rewrite length_write_int. simpl. unfold write_int.
    rewrite le_combine_split. change (Z.of_nat 4 * 8) with 32.
    now rewrite wrap_int_mod, wrap_int_id.
  - apply at_offset_advance in H. now rewrite length_write_int in H.
Qed.

Lemma length_ints_stream (ids : list Z) :
  Z.of_nat (length (flat_map write_int ids)) = 4 * Z.of_nat (length ids).
Proof.
  induction ids as [|id ids IH]; cbn [flat_map]; [reflexivity|].
  rewrite length_app, length_write_int. cbn [length] in *. lia.
Qed.

Lemma length_layer_stream conns :
  Z.of_nat (length (layer_stream conns)) = 4 + 4 * Z.of_nat (length conns).
Proof.
  unfold layer_stream. rewrite length_app, length_write_int, Nat2Z.inj_add,
    length_ints_stream. lia.
Qed.

Lemma read_connection_counts_stream cs :
  forall buffer ptr size acc rest,
    at_offset buffer ptr (flat_map write_int cs ++ rest) ->
    Forall in_int_range cs ->
    4 * Z.of_nat (length cs) <= size <= INT_MAX ->
    read_connection_counts (length cs) buffer ptr size acc
    = Parsed (acc ++ cs) (ptr + 4 * Z.of_nat (length cs)) (size - 4 * Z.of_nat (length cs))
    /\ at_offset buffer (ptr + 4 * Z.of_nat (length cs)) rest.
Proof.
  induction cs as [|c cs IH]; intros buffer ptr size acc rest Hat Hcs Hsize.
  - simpl in *. rewrite app_nil_r, Z.add_0_r, Z.sub_0_r. auto.
  - inversion Hcs as [|? ? Hc Hcs']; subst.
    cbn [flat_map] in Hat. rewrite <- app_assoc in Hat.
    destruct (read_int_at _ _ _ _ Hat Hc) as [Hr Hat'].
    cbn [length read_connection_counts]. cbn [length] in Hsize.
    destruct (Z.ltb_spec size 4); [lia|]. rewrite Hr.
    rewrite wrap_int_id by (unfold in_int_range, INT_MIN, INT_MAX in *; lia).
    destruct (IH buffer (ptr + 4) (size - 4) (acc ++ [c]) rest Hat' Hcs') as [-> Hat''];
      [lia|].
    rewrite <- app_assoc. simpl.
    replace (ptr + 4 + 4 * Z.of_nat (length cs)) with (ptr + 4 * Z.of_nat (S (length cs)))
      in * by lia.
    split; [f_equal; lia | assumption].
Qed.

Lemma read_connections_stream ids :
  forall buffer ptr acc rest,
    at_offset buffer ptr (flat_map write_int ids ++ rest) ->
    Forall in_int_range ids ->
    read_connections (length ids) buffer ptr acc
    = Some (acc ++ ids, ptr + 4 * Z.of_nat (length ids))
    /\ at_offset buffer (ptr + 4 * Z.of_nat (length ids)) rest.
Proof.
  induction ids as [|id ids IH]; intros buffer ptr acc rest Hat Hids.
  - simpl in *. rewrite app_nil_r, Z.add_0_r. auto.
  - inversion Hids as [|? ? Hid Hids']; subst.
    cbn [flat_map] in Hat. rewrite <- app_assoc in Hat.
    destruct (read_int_at _ _ _ _ Hat Hid) as [Hr Hat'].
    cbn [length read_connections]. rewrite Hr.
    destruct (IH buffer (ptr + 4) (acc ++ [id]) rest Hat' Hids') as [-> Hat''].
    rewrite <- app_assoc. simpl.
    replace (ptr + 4 + 4 * Z.of_nat (length ids)) with (ptr + 4 * Z.of_nat (S (length ids)))
      in * by lia.
    auto.
Qed.

Lemma nth_middle_len {A} (l l' : list A) (a d : A) (n : nat) :
  n = length l -> nth n (l ++ a :: l') d = a.
Proof. intros ->. apply nth_middle. Qed.

Lemma read_layers_stream todo :
  forall buffer ptr size done_counts done rest,
    at_offset buffer ptr (flat_map layer_stream todo ++ rest) ->
    Forall (Forall in_int_range) todo ->
    Z.of_nat (length (flat_map layer_stream todo)) <= size <= INT_MAX ->
    length done_counts = length done ->
    read_layers (length todo) (length done) buffer ptr size
                (done_counts ++ map (fun conns => Z.of_nat (length conns)) todo)
                (done ++ repeat cwild (length todo))
    = Parsed (done ++ map cptr_to todo)
             (ptr + Z.of_nat (length (flat_map layer_stream todo)))
             (size - Z.of_nat (length (flat_map layer_stream todo)))
    /\ at_offset buffer (ptr + Z.of_nat (length (flat_map layer_stream todo))) rest.
Proof.
  induction todo as [|conns todo IH];
    intros buffer ptr size done_counts done rest Hat Hok Hsize Hlen.
  - simpl in *. rewrite !app_nil_r, Z.add_0_r, Z.sub_0_r. auto.
  - inversion Hok as [|? ? Hconns Hok']; subst.
    cbn [flat_map] in Hat, Hsize |- *.
    rewrite length_app, Nat2Z.inj_add, length_layer_stream in Hsize |- *.
    unfold layer_stream in Hat. rewrite <- !app_assoc in Hat.
    assert (Hc : in_int_range (Z.of_nat (length conns)))
      by (unfold in_int_range, INT_MIN, INT_MAX in *; lia).
    destruct (read_int_at _ _ _ _ Hat Hc) as [Hr Hat1].
    destruct (read_connections_stream conns buffer (ptr + 4) [] _ Hat1 Hconns)
      as [Hrc Hat2].
    cbn [length read_layers map repeat].
    destruct (Z.ltb_spec size 4); [lia|]. rewrite Hr.
    rewrite (wrap_int_id (size - 4)) by (unfold in_int_range, INT_MIN, INT_MAX in *; lia).
    rewrite (nth_middle_len done_counts) by congruence.
    rewrite Z.eqb_refl. cbn [negb].
    rewrite (wrap_int_id (Z.of_nat (length conns) * 4))
      by (unfold in_int_range, INT_MIN, INT_MAX in *; lia).
    destruct (Z.ltb_spec (size - 4) (Z.of_nat (length conns) * 4)); [lia|].
    unfold malloc_ok. destruct (Z.leb_spec 0 (Z.of_nat (length conns))); [|lia].
    cbn [negb]. rewrite Nat2Z.id, Hrc.
    rewrite (wrap_int_id (size - 4 - Z.of_nat (length conns) * 4))
      by (unfold in_int_range, INT_MIN, INT_MAX in *; lia).
    rewrite insert_app_r_alt by lia. rewrite Nat.sub_diag. cbn [list_insert insert].
    specialize (IH buffer (ptr + 4 + 4 * Z.of_nat (length conns))
                   (size - 4 - Z.of_nat (length conns) * 4)
                   (done_counts ++ [Z.of_nat (length conns)])
                   (done ++ [cptr_to conns]) rest Hat2 Hok').
    rewrite !length_app in IH. simpl length in IH.
    replace (length done + 1)%nat with (S (length done)) in IH by lia.
    rewrite <- !app_assoc in IH. simpl app in IH.
    cbn [app]. destruct IH as [-> Hat3]; [lia | lia |].
    split; [f_equal; lia|].
    replace (ptr + (4 + 4 * Z.of_nat (length conns)
                    + Z.of_nat (length (flat_map layer_stream todo))))
      with (ptr + 4 + 4 * Z.of_nat (length conns)
            + Z.of_nat (length (flat_map layer_stream todo))) by lia.
    exact Hat3.
Qed.

Lemma map_nth_seq {A} (l : list A) (d : A) :
  map (fun i => nth i l d) (seq 0 (length l)) = l.
Proof.
  induction l as [|x l IH]; simpl; [reflexivity|].
  f_equal. rewrite <- seq_shift, map_map. exact IH.
Qed.

Lemma flat_map_compose {A B C} (g : B -> list C) (h : A -> B) (l : list A) :
  flat_map (fun x => g (h x)) l = flat_map g (map h l).
Proof. induction l as [|x l IH]; simpl; [reflexivity | now rewrite IH]. Qed.

Lemma node_layers_connections node :
  wf_node node ->
  map (connections node) (node_layers node) = layer_connections node.
Proof.
  intros (Htop & Hlen & _). unfold node_layers.
  replace (Z.to_nat (maximum_layer node + 1)) with (length (layer_connections node)) by lia.
  rewrite map_map. rewrite <- (map_nth_seq (layer_connections node) []) at 2.
  apply map_ext. intros i. unfold connections. now rewrite Nat2Z.id.
Qed.

Lemma serialize_node_wf node :
  wf_node node ->
  serialize_node node =
  write_int (maximum_layer node)
  ++ flat_map write_int (map (fun conns => Z.of_nat (length conns)) (layer_connections node))
  ++ flat_map layer_stream (layer_connections node).
Proof.
  intros Hwf. unfold serialize_node. f_equal. f_equal.
  - unfold connection_counts.
    rewrite (flat_map_compose (fun conns => write_int (Z.of_nat (length conns)))
                              (connections node)).
    rewrite node_layers_connections by assumption.
    apply (flat_map_compose write_int).
  - rewrite (flat_map_compose layer_stream (connections node)).
    now rewrite node_layers_connections.
Qed.

Lemma layer_stream_le (conns : list Z) (lcs : list (list Z)) :
  In conns lcs ->
  Z.of_nat (length (layer_stream conns)) <= Z.of_nat (length (flat_map layer_stream lcs)).
Proof.
  induction lcs as [|c lcs IH]; intros Hin; [contradiction|].
  cbn [flat_map]. rewrite length_app, Nat2Z.inj_add.
  destruct Hin as [-> | Hin]; [lia | specialize (IH Hin); lia].
Qed.

Lemma deserialize_node_stream node buffer ptr size rest :
  at_offset buffer ptr (serialize_node node ++ rest) ->
  wf_node node ->
  Z.of_nat (length (serialize_node node)) <= size <= INT_MAX ->
  deserialize_node buffer ptr size
  = Parsed (mem_of_node node) (ptr + Z.of_nat (length (serialize_node node)))
           (size - Z.of_nat (length (serialize_node node)))
  /\ at_offset buffer (ptr + Z.of_nat (length (serialize_node node))) rest.
Proof.
  intros Hat Hwf Hsize.
  rewrite serialize_node_wf in * by assumption.
  destruct Hwf as (Htop & Hlen & Hids).
  set (lcs := layer_connections node) in *.
  set (counts := map (fun conns => Z.of_nat (length conns)) lcs) in *.
  rewrite !length_app, !Nat2Z.inj_add, length_write_int, length_ints_stream in Hsize |- *.
  assert (Hcl : length counts = length lcs) by (unfold counts; apply length_map).
  rewrite Hcl in Hsize |- *.
  rewrite <- !app_assoc in Hat.
  assert (Ht : in_int_range (maximum_layer node))
    by (unfold in_int_range, INT_MIN, INT_MAX in *; lia).
  destruct (read_int_at _ _ _ _ Hat Ht) as [Hr Hat1].
  assert (Hcounts : Forall in_int_range counts).
  { unfold counts. apply List.Forall_map. apply List.Forall_forall. intros conns Hin.
    pose proof (layer_stream_le conns lcs Hin) as Hle.
    rewrite length_layer_stream in Hle.
    unfold in_int_range, INT_MIN, INT_MAX in *. lia. }
  destruct (read_connection_counts_stream counts buffer (ptr + 4) (size - 4) [] _
              Hat1 Hcounts) as [Hrc Hat2]; [lia|].
  rewrite Hcl in Hrc, Hat2.
  destruct (read_layers_stream lcs buffer (ptr + 4 + 4 * Z.of_nat (length lcs))
              (size - 4 - 4 * Z.of_nat (length lcs)) [] [] rest Hat2 Hids)
    as [Hrl Hat3]; [lia | reflexivity |].
  unfold deserialize_node. rewrite Hr.
  rewrite (wrap_int_id (size - 4)) by (unfold in_int_range, INT_MIN, INT_MAX in *; lia).
  destruct (Z.ltb_spec (maximum_layer node) 0); [lia|].
  rewrite (wrap_int_id (maximum_layer node + 1))
    by (unfold in_int_range, INT_MIN, INT_MAX in *; lia).
  unfold malloc_ok. destruct (Z.leb_spec 0 (maximum_layer node + 1)); [|lia].
  cbn [negb].
  replace (Z.to_nat (maximum_layer node + 1)) with (length lcs) by lia.
  rewrite Hrc. cbn [app].
  cbn [length app] in Hrl. fold counts in Hrl. rewrite Hrl.
  split.
  - unfold mem_of_node. fold lcs. fold counts. f_equal; lia.
  - match goal with
    | |- at_offset _ ?p _ =>
        replace p with (ptr + 4 + 4 * Z.of_nat (length lcs)
                        + Z.of_nat (length (flat_map layer_stream lcs))) by lia
    end.
    exact Hat3.
Qed.

Lemma length_serialize_node_pos node : 4 <= Z.of_nat (length (serialize_node node)).
Proof.
  unfold serialize_node. rewrite length_app, length_write_int. lia.
Qed.

Lemma deserialize_nodes_stream todo :
  forall done buffer ptr size rest count,
    at_offset buffer ptr (flat_map serialize_node todo ++ rest) ->
    Forall wf_node todo ->
    Z.of_nat (length (flat_map serialize_node todo)) <= size <= INT_MAX ->
    deserialize_nodes (length todo) (length done) buffer ptr size
      {| m_nodes := done ++ repeat zero_node (length todo); m_node_count := count |}
    = Ret (Some {| m_nodes := done ++ map mem_of_node todo; m_node_count := count |}).
Proof.
  induction todo as [|node todo IH]; intros done buffer ptr size rest count Hat Hwf Hsize.
  - simpl. reflexivity.
  - inversion Hwf as [|? ? Hnode Hwf']; subst.
    cbn [flat_map] in Hat, Hsize. rewrite <- app_assoc in Hat.
    rewrite length_app, Nat2Z.inj_add in Hsize.
    pose proof (length_serialize_node_pos node) as Hpos.
    destruct (deserialize_node_stream node buffer ptr size _ Hat Hnode) as [Hr Hat'];
      [lia|].
    cbn [length deserialize_nodes repeat map].
    destruct (Z.ltb_spec size 4); [lia|]. rewrite Hr.
    unfold set_m_node. cbn [m_nodes m_node_count].
    rewrite insert_app_r_alt by lia. rewrite Nat.sub_diag. cbn [list_insert insert].
    specialize (IH (done ++ [mem_of_node node]) buffer _
                   (size - Z.of_nat (length (serialize_node node))) rest count Hat' Hwf').
    rewrite length_app in IH. change (length [mem_of_node node]) with 1%nat in IH.
    replace (length done + 1)%nat with (S (length done)) in IH by lia.
    rewrite <- !app_assoc in IH. simpl app in IH.
    apply IH. lia.
Qed.

Lemma serialized_node_size_range total node :
  in_int_range total -> in_int_range (serialized_node_size total node).
Proof.
  intros _. unfold serialized_node_size.
  generalize (wrap_int_range (wrap_int (total + 4) + 4 * wrap_int (maximum_layer node + 1))).
  generalize (wrap_int (wrap_int (total + 4) + 4 * wrap_int (maximum_layer node + 1))).
  induction (node_layers node) as [|l ls IH]; intros t Ht; simpl; [exact Ht|].
  apply IH, wrap_int_range.
Qed.

Lemma serialized_size_range ns :
  in_int_range (fold_left serialized_node_size ns 4).
Proof.
  assert (H : in_int_range 4) by (unfold in_int_range, INT_MIN, INT_MAX; lia).
  revert H. generalize 4. induction ns as [|n ns IH]; intros t Ht; simpl; [exact Ht|].
  apply IH, serialized_node_size_range, Ht.
Qed.

Lemma graph_nodes_wf graph : wf_graph graph -> graph_nodes graph = nodes graph.
Proof.
  intros (Hc & _ & _). unfold graph_nodes. rewrite Hc, Nat2Z.id.
  rewrite <- (map_nth_seq (nodes graph) empty_node) at 2.
  apply map_ext. intros i. unfold node_at. now rewrite Nat2Z.id.
Qed.

(** C4: round trip: deserializing what [serialize_hnsw_graph] produced for
    a graph yields a non-null graph with the same [node_count] whose nodes
    have, one by one, the same top layer and the same neighbor sequence on
    every layer. *)
Theorem deserialize_serialize_round_trip
    (graph : HNSWGraph) (buffer : list byte) (size : Z) :
  wf_graph graph ->
  serialize_hnsw_graph (Some graph) = Ret (Some (buffer, size)) ->
  exists restored : MemGraph,
    deserialize_hnsw_graph buffer size = Ret (Some restored)
    /\ m_node_count restored = node_count graph
    /\ Forall2 (fun (m : MemNode) (n : HNSWNode) =>
                  m_maximum_layer m = maximum_layer n
                  /\ m_layer_connections m = cptr_to (map cptr_to (layer_connections n)))
               (m_nodes restored) (nodes graph).
Proof.
  intros Hwf H. unfold serialize_hnsw_graph in H.
  rewrite graph_nodes_wf in H by assumption.
  pose proof (serialized_size_range (nodes graph)) as Hrange.
  destruct (malloc_ok (fold_left serialized_node_size (nodes graph) 4)); [|discriminate].
  cbn [negb] in H.
  remember (write_int (node_count graph) ++ flat_map serialize_node (nodes graph))
    as stream eqn:Es.
  match type of H with
  | (if ?c then _ else _) = _ => destruct c eqn:Hfit; [|discriminate]
  end.
  injection H as <- <-. subst stream.
  apply Z.leb_le in Hfit.
  rewrite length_app, length_write_int, Nat2Z.inj_add in Hfit.
  set (size := fold_left serialized_node_size (nodes graph) 4) in *.
  destruct Hwf as (Hc & Hcmax & Hnodes).
  exists {| m_nodes := map mem_of_node (nodes graph); m_node_count := node_count graph |}.
  split; [|split; [reflexivity|]].
  - unfold deserialize_hnsw_graph.
    destruct (Z.leb_spec size 0); [lia|].
    destruct (Z.ltb_spec size 4); [lia|].
    assert (Hat : at_offset (write_int (node_count graph)
                             ++ flat_map serialize_node (nodes graph)) 0
                            (write_int (node_count graph)
                             ++ flat_map serialize_node (nodes graph) ++ []))
      by (split; [lia | now rewrite app_nil_r]).
    assert (Hn : in_int_range (node_count graph))
      by (unfold in_int_range, INT_MIN, INT_MAX in *; lia).
    destruct (read_int_at _ _ _ _ Hat Hn) as [-> Hat'].
    unfold malloc_ok. destruct (Z.leb_spec 0 (node_count graph)); [|lia].
    cbn [negb].
    rewrite wrap_int_id by (unfold in_int_range, INT_MIN, INT_MAX in *; lia).
    replace (Z.to_nat (node_count graph)) with (length (nodes graph)) by lia.
    apply (deserialize_nodes_stream (nodes graph) [] _ 4 _ [] _ Hat' Hnodes).
    unfold in_int_range, INT_MIN, INT_MAX in *. lia.
  - cbn [m_nodes]. clear. induction (nodes graph) as [|n ns IH]; simpl; constructor; auto.
Qed.


(** * Priority queue *)

Lemma parent_0 : parent 0 = 0%nat.
Proof. reflexivity. Qed.

Lemma parent_spec (i : nat) :
  (0 < i)%nat -> (i = 2 * parent i + 1 \/ i = 2 * parent i + 2)%nat.
Proof.
  intros H. unfold parent.
  pose proof (Nat.div_mod_eq (i - 1) 2). pose proof (Nat.mod_upper_bound (i - 1) 2). lia.
Qed.

Lemma parent_left (p : nat) : parent (2 * p + 1) = p.
Proof. pose proof (parent_spec (2 * p + 1)). lia. Qed.

Lemma parent_right (p : nat) : parent (2 * p + 2) = p.
Proof. pose proof (parent_spec (2 * p + 2)). lia. Qed.

(** ** Facts on [better] *)

Lemma better_asym m a b : better m a b = true -> better m b a = false.
Proof. destruct m; unfold better, fgt; apply flt_asym. Qed.

Lemma better_trans m a b c :
  better m a b = true -> better m b c = true -> better m a c = true.
Proof.
  destruct m; unfold better, fgt; intros H1 H2; eauto using flt_trans.
Qed.

Lemma not_better_trans m a b c :
  is_nan b = false ->
  better m b a = false -> better m c b = false -> better m c a = false.
Proof.
  destruct m; unfold better, fgt; intros Hn H1 H2.
  - apply (flt_le_trans c b a); assumption.
  - apply (flt_le_trans a b c); assumption.
Qed.

(** ** Swapping entries *)

Lemma length_swap_candidates cs a b : length (swap_candidates cs a b) = length cs.
Proof.
  unfold swap_candidates. destruct (cs !! a), (cs !! b); try reflexivity.
  now rewrite !length_insert.
Qed.

Lemma swap_candidates_lookup cs a b i :
  (a < length cs)%nat -> (b < length cs)%nat ->
  swap_candidates cs a b !! i =
  if decide (i = b) then cs !! a else if decide (i = a) then cs !! b else cs !! i.
Proof.
  intros Ha Hb. unfold swap_candidates.
  destruct (lookup_lt_is_Some_2 cs a Ha) as [ca Hca].
  destruct (lookup_lt_is_Some_2 cs b Hb) as [cb Hcb].
  rewrite Hca, Hcb.
  destruct (decide (i = b)) as [-> | Hib].
  - rewrite list_lookup_insert_eq by (rewrite length_insert; lia). reflexivity.
  - rewrite list_lookup_insert_ne by congruence.
    destruct (decide (i = a)) as [-> | Hia].
    + rewrite list_lookup_insert_eq by lia. reflexivity.
    + rewrite list_lookup_insert_ne by congruence. reflexivity.
Qed.

Lemma distance_at_swap cs a b i :
  (a < length cs)%nat -> (b < length cs)%nat ->
  distance_at (swap_candidates cs a b) i =
  if decide (i = b) then distance_at cs a
  else if decide (i = a) then distance_at cs b else distance_at cs i.
Proof.
  intros Ha Hb. unfold distance_at. rewrite swap_candidates_lookup by assumption.
  repeat destruct (decide _); reflexivity.
Qed.

Lemma swap_candidates_sub cs a b x : x ∈ swap_candidates cs a b -> x ∈ cs.
Proof.
  unfold swap_candidates.
  destruct (cs !! a) as [ca|] eqn:Ea; [|auto].
  destruct (cs !! b) as [cb|] eqn:Eb; [|auto].
  intros H. apply list_elem_of_lookup in H. destruct H as [i H].
  pose proof (lookup_lt_Some _ _ _ Ea). pose proof (lookup_lt_Some _ _ _ Eb).
  assert (E : swap_candidates cs a b !! i = Some x).
  { unfold swap_candidates. now rewrite Ea, Eb. }
  rewrite swap_candidates_lookup in E by assumption.
  repeat destruct (decide _); eapply list_elem_of_lookup_2; eassumption.
Qed.

(** ** Heap order

    [heap_ok m cs]: no entry is [better] than its parent. *)

Lemma numbers_at cs i : numbers cs -> (i < length cs)%nat -> is_nan (distance_at cs i) = false.
Proof.
  intros Hn Hi. unfold distance_at.
  destruct (lookup_lt_is_Some_2 cs i Hi) as [c Hc]. rewrite Hc.
  unfold numbers in Hn. rewrite Forall_forall in Hn.
  apply Hn. eapply list_elem_of_lookup_2; eassumption.
Qed.

Lemma numbers_sub cs cs' :
  (forall x, x ∈ cs' -> x ∈ cs) -> numbers cs -> numbers cs'.
Proof.
  unfold numbers. rewrite !Forall_forall. auto.
Qed.

Lemma heapify_up_rec_sub m fuel :
  forall cs c x, x ∈ heapify_up_rec fuel m cs c -> x ∈ cs.
Proof.
  induction fuel as [|fuel IH]; intros cs c x H; simpl in H; [exact H|].
  destruct (better m _ _); [|exact H].
  apply IH in H. eapply swap_candidates_sub; eassumption.
Qed.

Lemma length_heapify_up_rec m fuel :
  forall cs c, length (heapify_up_rec fuel m cs c) = length cs.
Proof.
  induction fuel as [|fuel IH]; intros cs c; simpl; [reflexivity|].
  destruct (better m _ _); [|reflexivity].
  now rewrite IH, length_swap_candidates.
Qed.

Lemma heapify_up_rec_ok m fuel :
  forall cs c,
    (c < fuel)%nat -> (c < length cs)%nat -> numbers cs ->
    heap_except_up m cs c ->
    heap_ok m (heapify_up_rec fuel m cs c).
Proof.
  induction fuel as [|fuel IH]; intros cs c Hfuel Hc Hn [H1 H2]; [lia|].
  cbn [heapify_up_rec]. fold (parent c).
  destruct (better m (distance_at cs c) (distance_at cs (parent c))) eqn:Eb.
  - assert (Hc0 : (0 < c)%nat).
    { destruct c; [|lia]. rewrite parent_0, better_irrefl in Eb. discriminate. }
    pose proof (parent_spec c Hc0) as Hpc.
    apply IH; [lia | rewrite length_swap_candidates; lia | |].
    { eapply numbers_sub; [|exact Hn]. intros x. apply swap_candidates_sub. }
    assert (Hp : (parent c < length cs)%nat) by lia.
    split.
    + intros i Hi Hip. rewrite length_swap_candidates in Hi.
      pose proof (parent_spec i ltac:(lia)) as Hpi.
      rewrite !distance_at_swap by assumption.
      destruct (decide (i = parent c)); [contradiction|].
      destruct (decide (parent i = parent c)) as [Epp | Npp].
      * destruct (decide (i = c)) as [-> | Nic].
        -- now apply better_asym.
        -- destruct (better m (distance_at cs i) (distance_at cs c)) eqn:Eic;
             [|reflexivity].
           pose proof (better_trans _ _ _ _ Eic Eb) as Hc'.
           rewrite <- Epp in Hc'. rewrite H1 in Hc' by (assumption || lia).
           discriminate.
      * destruct (decide (i = c)) as [-> | Nic]; [congruence|].
        destruct (decide (parent i = c)) as [Epc | Npc].
        -- apply H2; assumption.
        -- apply H1; assumption.
    + intros j Hj Hpj Hp0. rewrite length_swap_candidates in Hj.
      pose proof (parent_spec j ltac:(lia)) as Hpj'.
      pose proof (parent_spec (parent c) Hp0) as Hpp.
      rewrite !distance_at_swap by assumption.
      destruct (decide (j = parent c)); [lia|].
      destruct (decide (parent (parent c) = parent c)); [lia|].
      destruct (decide (parent (parent c) = c)); [lia|].
      destruct (decide (j = c)) as [-> | Njc].
      * apply H1; lia.
      * apply (not_better_trans m _ (distance_at cs (parent c))).
        -- apply numbers_at; assumption.
        -- apply H1; lia.
        -- rewrite <- Hpj. apply H1; [lia | assumption].
  - intros i Hi.
    destruct (decide (i = c)) as [-> | Nic]; [exact Eb | apply H1; assumption].
Qed.

Lemma heapify_down_rec_sub m fuel :
  forall cs p x, x ∈ heapify_down_rec fuel m cs p -> x ∈ cs.
Proof.
  induction fuel as [|fuel IH]; intros cs p x H; cbn [heapify_down_rec] in H; [exact H|].
  match type of H with
  | context [if negb ?c then _ else _] => destruct c
  end; cbn [negb] in H; [exact H|].
  apply IH in H. eapply swap_candidates_sub; eassumption.
Qed.

Lemma length_heapify_down_rec m fuel :
  forall cs p, length (heapify_down_rec fuel m cs p) = length cs.
Proof.
  induction fuel as [|fuel IH]; intros cs p; cbn [heapify_down_rec]; [reflexivity|].
  match goal with
  | |- context [if negb ?c then _ else _] => destruct c
  end; cbn [negb]; [reflexivity|].
  now rewrite IH, length_swap_candidates.
Qed.

Lemma heapify_down_rec_unfold m fuel cs p :
  heapify_down_rec (S fuel) m cs p =
  if negb (down_target m cs p =? p)%nat
  then heapify_down_rec fuel m (swap_candidates cs p (down_target m cs p))
                        (down_target m cs p)
  else cs.
Proof. reflexivity. Qed.

(** What the selection guarantees. *)
Lemma down_target_spec m cs p :
  let t := down_target m cs p in
  (t = p \/ ((t = 2 * p + 1 \/ t = 2 * p + 2) /\ t < length cs
             /\ better m (distance_at cs t) (distance_at cs p) = true))%nat
  /\ (forall i, (i = 2 * p + 1 \/ i = 2 * p + 2)%nat -> (i < length cs)%nat -> i <> t ->
                better m (distance_at cs i) (distance_at cs t) = false).
Proof.
  unfold down_target.
  destruct (Nat.ltb_spec (2 * p + 1) (length cs)) as [Hl | Hl];
    destruct (Nat.ltb_spec (2 * p + 2) (length cs)) as [Hr | Hr]; try lia.
  - destruct (better m (distance_at cs (2 * p + 1)) (distance_at cs p)) eqn:El.
    + destruct (better m (distance_at cs (2 * p + 2)) (distance_at cs (2 * p + 1))) eqn:Er.
      * split; [right; repeat split; [lia | lia | eauto using better_trans]|].
        intros i [-> | ->] Hi Hne; [now apply better_asym | lia].
      * split; [right; repeat split; [lia | lia | assumption]|].
        intros i [-> | ->] Hi Hne; [lia | assumption].
    + destruct (better m (distance_at cs (2 * p + 2)) (distance_at cs p)) eqn:Er.
      * split; [right; repeat split; [lia | lia | assumption]|].
        intros i [-> | ->] Hi Hne; [|lia].
        destruct (better m (distance_at cs (2 * p + 1)) (distance_at cs (2 * p + 2))) eqn:E;
          [|reflexivity].
        rewrite (better_trans _ _ _ _ E Er) in El. discriminate.
      * split; [left; reflexivity|].
        intros i [-> | ->] Hi Hne; assumption.
  - destruct (better m (distance_at cs (2 * p + 1)) (distance_at cs p)) eqn:El.
    + split; [right; repeat split; [lia | lia | assumption]|].
      intros i [-> | ->] Hi Hne; lia.
    + split; [left; reflexivity|].
      intros i [-> | ->] Hi Hne; [assumption | lia].
  - split; [left; reflexivity|]. intros i [-> | ->] Hi Hne; lia.
Qed.

Lemma heapify_down_rec_ok m fuel :
  forall cs p,
    (length cs <= fuel + p)%nat ->
    heap_except_down m cs p ->
    heap_ok m (heapify_down_rec fuel m cs p).
Proof.
  induction fuel as [|fuel IH]; intros cs p Hfuel [H1 H2].
  - cbn [heapify_down_rec]. intros i Hi. apply H1; [assumption|].
    pose proof (parent_spec i ltac:(lia)). lia.
  - rewrite heapify_down_rec_unfold.
    destruct (down_target_spec m cs p) as [Ht Hbest].
    set (t := down_target m cs p) in *.
    destruct (Nat.eqb_spec t p) as [Etp | Ntp]; cbn [negb].
    + intros i Hi.
      destruct (decide (parent i = p)) as [Epi | Npi]; [|apply H1; assumption].
      pose proof (parent_spec i ltac:(lia)) as Hpi.
      rewrite Epi. rewrite <- Etp. apply Hbest; lia.
    + destruct Ht as [Ht | (Htc & Htl & Htb)]; [contradiction|].
      assert (Hp : (p < length cs)%nat) by lia.
      assert (Hpt : parent t = p)
        by (destruct Htc as [-> | ->]; [apply parent_left | apply parent_right]).
      apply IH; [rewrite length_swap_candidates; lia|].
      split.
      * intros i Hi Hpi. rewrite length_swap_candidates in Hi.
        pose proof (parent_spec i ltac:(lia)) as Hpi'.
        rewrite !distance_at_swap by assumption.
        destruct (decide (parent i = t)); [contradiction|].
        destruct (decide (i = t)) as [-> | Nit].
        -- rewrite Hpt. destruct (decide (p = p)); [|contradiction].
           now apply better_asym.
        -- destruct (decide (i = p)) as [-> | Nip].
           ++ destruct (decide (parent p = p)); [lia|].
              apply H2; lia.
           ++ destruct (decide (parent i = p)) as [Epi | Npi].
              ** apply Hbest; lia.
              ** apply H1; assumption.
      * intros j Hj Hpj Ht0. rewrite length_swap_candidates in Hj.
        pose proof (parent_spec j ltac:(lia)) as Hpj'.
        rewrite !distance_at_swap by assumption.
        rewrite Hpt.
        destruct (decide (j = t)); [lia|].
        destruct (decide (j = p)); [lia|].
        destruct (decide (p = t)); [lia|].
        destruct (decide (p = p)); [|contradiction].
        rewrite <- Hpj. apply H1; [assumption | lia].
Qed.

Lemma heap_root_best m cs :
  heap_ok m cs -> numbers cs ->
  forall i, (i < length cs)%nat ->
            better m (distance_at cs i) (distance_at cs 0) = false.
Proof.
  intros Hh Hn i. induction i as [i IH] using lt_wf_ind. intros Hi.
  destruct i as [|i]; [apply better_irrefl|].
  pose proof (parent_spec (S i) ltac:(lia)) as Hp.
  apply (not_better_trans m _ (distance_at cs (parent (S i)))).
  - apply numbers_at; [assumption | lia].
  - apply IH; lia.
  - apply Hh. lia.
Qed.

(** ** Queue operations keep the heap order *)

Lemma distance_at_app_l cs new i :
  (i < length cs)%nat -> distance_at (cs ++ [new]) i = distance_at cs i.
Proof. intros H. unfold distance_at. now rewrite lookup_app_l. Qed.

Lemma distance_at_insert_ne cs new i j :
  i <> j -> distance_at (<[i := new]> cs) j = distance_at cs j.
Proof. intros H. unfold distance_at. now rewrite list_lookup_insert_ne. Qed.

Lemma distance_at_take cs n i :
  (i < n)%nat -> distance_at (take n cs) i = distance_at cs i.
Proof. intros H. unfold distance_at. now rewrite lookup_take_lt. Qed.

Lemma heap_ok_push m cs new :
  heap_ok m cs -> numbers cs -> is_nan (distance new) = false ->
  heap_ok m (heapify_up m (cs ++ [new]) (length cs)).
Proof.
  intros Hh Hn Hnew. unfold heapify_up.
  apply heapify_up_rec_ok; [lia | rewrite length_app; simpl; lia | |].
  - unfold numbers. apply Forall_app. split; [exact Hn | repeat constructor; exact Hnew].
  - split.
    + intros i Hi Hne. rewrite length_app in Hi. simpl in Hi.
      pose proof (parent_spec i ltac:(lia)).
      rewrite !distance_at_app_l by lia. apply Hh. lia.
    + intros j Hj Hpj _. rewrite length_app in Hj. simpl in Hj.
      pose proof (parent_spec j ltac:(lia)). lia.
Qed.

Lemma heap_ok_replace_root m cs new :
  heap_ok m cs -> heap_ok m (heapify_down m (<[0%nat := new]> cs) 0).
Proof.
  intros Hh. unfold heapify_down.
  apply heapify_down_rec_ok; [lia|].
  split; [|intros; lia].
  intros i Hi Hpi. rewrite length_insert in Hi.
  rewrite !distance_at_insert_ne by lia. apply Hh. lia.
Qed.

Lemma heap_ok_nil m : heap_ok m [].
Proof. intros i Hi. simpl in Hi. lia. Qed.

Lemma insert_candidate_fields queue id d :
  capacity (insert_candidate queue id d) = capacity queue
  /\ is_max_heap (insert_candidate queue id d) = is_max_heap queue.
Proof.
  unfold insert_candidate.
  repeat match goal with |- context [if ?c then _ else _] => destruct c end;
    split; reflexivity.
Qed.

Lemma elem_of_insert_inv {A} (l : list A) (i : nat) (x y : A) :
  x ∈ <[i := y]> l -> x = y \/ x ∈ l.
Proof.
  intros H. apply list_elem_of_lookup in H. destruct H as [j H].
  apply list_lookup_insert_Some in H.
  destruct H as [(_ & -> & _) | (_ & H)]; [auto|].
  right. eapply list_elem_of_lookup_2; eassumption.
Qed.

Lemma insert_candidate_sub queue id d x :
  x ∈ candidates (insert_candidate queue id d) ->
  x ∈ candidates queue \/ x = {| node_id := id; distance := d |}.
Proof.
  unfold insert_candidate.
  repeat match goal with |- context [if ?c then _ else _] => destruct c end;
    cbn [candidates with_candidates]; intros H; auto.
  - apply heapify_up_rec_sub in H. apply elem_of_app in H.
    destruct H as [H | H]; [auto|]. apply list_elem_of_singleton in H. auto.
  - apply heapify_down_rec_sub, elem_of_insert_inv in H. tauto.
  - apply heapify_down_rec_sub, elem_of_insert_inv in H. tauto.
Qed.

Lemma length_insert_candidate queue id d :
  length (candidates (insert_candidate queue id d)) =
  if size queue <? capacity queue
  then S (length (candidates queue)) else length (candidates queue).
Proof.
  unfold insert_candidate.
  destruct (size queue <? capacity queue).
  - cbn [candidates with_candidates]. unfold heapify_up.
    rewrite length_heapify_up_rec, length_app. simpl. lia.
  - repeat match goal with |- context [if ?c then _ else _] => destruct c end;
      cbn [candidates with_candidates]; try reflexivity;
      unfold heapify_down; now rewrite length_heapify_down_rec, length_insert.
Qed.

Lemma insert_candidate_heap_ok queue id d :
  heap_ok (is_max_heap queue) (candidates queue) ->
  numbers (candidates queue) ->
  is_nan d = false ->
  heap_ok (is_max_heap queue) (candidates (insert_candidate queue id d)).
Proof.
  intros Hh Hn Hd. unfold insert_candidate.
  repeat match goal with |- context [if ?c then _ else _] => destruct c end;
    cbn [candidates with_candidates];
    auto using heap_ok_push, heap_ok_replace_root.
Qed.

(** ** Extraction *)

Lemma extract_top_candidate_some queue :
  candidates queue <> [] ->
  exists top rest,
    extract_top_candidate queue = Some (top, rest)
    /\ candidates queue !! 0%nat = Some top
    /\ S (length (candidates rest)) = length (candidates queue)
    /\ (forall x, x ∈ candidates rest -> x ∈ candidates queue)
    /\ capacity rest = capacity queue
    /\ is_max_heap rest = is_max_heap queue
    /\ (heap_ok (is_max_heap queue) (candidates queue) ->
        heap_ok (is_max_heap queue) (candidates rest)).
Proof.
  intros Hne. unfold extract_top_candidate.
  destruct (candidates queue) as [|top cs] eqn:Ecs; [contradiction|].
  cbn [length]. rewrite Nat.sub_succ, Nat.sub_0_r.
  destruct (Nat.ltb_spec 0 (length cs)) as [Hpos | Hzero].
  - destruct (lookup_lt_is_Some_2 (top :: cs) (length cs)) as [last Hlast];
      [simpl; lia|].
    rewrite Hlast. eexists _, _. split; [reflexivity|].
    cbn [candidates with_candidates capacity is_max_heap].
    split; [reflexivity|]. unfold heapify_down.
    rewrite length_heapify_down_rec, length_insert, length_take. cbn [length].
    split; [lia|]. split; [|split; [reflexivity|split; [reflexivity|]]].
    + intros x Hx. apply heapify_down_rec_sub, elem_of_insert_inv in Hx.
      destruct Hx as [-> | Hx].
      * eapply list_elem_of_lookup_2; eassumption.
      * apply elem_of_take in Hx. destruct Hx as (i & Hx & _).
        eapply list_elem_of_lookup_2; eassumption.
    + intros Hh. fold (heapify_down (is_max_heap queue)
                         (<[0%nat := last]> (take (length cs) (top :: cs))) 0).
      unfold heapify_down.
      apply heapify_down_rec_ok;
        [rewrite ?length_insert, ?length_take; cbn [length]; lia|].
      split; [|intros; lia].
      intros i Hi Hpi. rewrite length_insert, length_take in Hi. cbn [length] in Hi.
      pose proof (parent_spec i ltac:(lia)).
      rewrite !distance_at_insert_ne by lia.
      rewrite !distance_at_take by lia. apply Hh. simpl. lia.
  - assert (cs = []) by (destruct cs; [reflexivity | simpl in Hzero; lia]). subst cs.
    eexists _, _. split; [reflexivity|].
    cbn [candidates with_candidates capacity is_max_heap take length].
    repeat split; auto using heap_ok_nil.
    intros x Hx. inversion Hx.
Qed.

(** ** Draining the result heap *)

Lemma tagged_sub graph query cs cs' :
  (forall x, x ∈ cs' -> x ∈ cs) -> tagged graph query cs -> tagged graph query cs'.
Proof. unfold tagged. rewrite !Forall_forall. auto. Qed.

Lemma heap_top_best m cs top x :
  heap_ok m cs -> numbers cs -> cs !! 0%nat = Some top -> x ∈ cs ->
  better m (distance x) (distance top) = false.
Proof.
  intros Hh Hn Htop Hx. apply list_elem_of_lookup in Hx. destruct Hx as [i Hx].
  pose proof (heap_root_best m cs Hh Hn i (lookup_lt_Some _ _ _ Hx)) as H.
  unfold distance_at in H. now rewrite Hx, Htop in H.
Qed.

Lemma drain_results_sorted graph query count :
  forall visited results,
    length (candidates visited) = count ->
    is_max_heap visited = true ->
    heap_ok true (candidates visited) ->
    numbers (candidates visited) ->
    tagged graph query (candidates visited) ->
    closest_first graph query results ->
    (forall c a, c ∈ candidates visited -> a ∈ results ->
                 flt (distance_to graph query a) (distance c) = false) ->
    closest_first graph query (drain_results count visited results)
    /\ length (drain_results count visited results) = (count + length results)%nat.
Proof.
  induction count as [|count IH];
    intros visited results Hlen Hmax Hh Hn Ht Hs Hle; cbn [drain_results].
  - auto.
  - destruct (extract_top_candidate_some visited) as
      (top & rest & -> & Htop & Hl & Hsub & _ & Hm & Hrest).
    { intros E. rewrite E in Hlen. discriminate. }
    rewrite Hmax in *.
    assert (Htin : top ∈ candidates visited)
      by (eapply list_elem_of_lookup_2; eassumption).
    assert (Htag : distance top = distance_to graph query (node_id top)).
    { unfold tagged in Ht. rewrite Forall_forall in Ht. auto. }
    destruct (IH rest (node_id top :: results)) as [IH1 IH2].
    + lia.
    + assumption.
    + auto.
    + eapply numbers_sub; eassumption.
    + eapply tagged_sub; eassumption.
    + constructor; [assumption|].
      apply Forall_forall. intros a Ha. rewrite <- Htag. auto.
    + intros c a Hc Ha. apply elem_of_cons in Ha. destruct Ha as [-> | Ha].
      * rewrite <- Htag.
        apply (heap_top_best true (candidates visited) top c); auto.
      * auto.
    + split; [assumption|]. rewrite IH2. simpl. lia.
Qed.

(** ** The search loop *)

Lemma count_clear_set flags i :
  (i < length flags)%nat -> nth i flags false = false ->
  S (count_clear (<[i := true]> flags)) = count_clear flags.
Proof.
  unfold count_clear. revert i. induction flags as [|b flags IH]; intros i Hi Hb.
  - simpl in Hi. lia.
  - destruct i as [|i]; simpl in *.
    + subst b. reflexivity.
    + specialize (IH i ltac:(lia) Hb). destruct b; simpl; lia.
Qed.

Lemma visited_ok_insert graph query cap visited id :
  0 <= cap ->
  visited_ok graph query cap visited ->
  is_nan (distance_to graph query id) = false ->
  visited_ok graph query cap (insert_candidate visited id (distance_to graph query id)).
Proof.
  intros Hcap (Hm & Hc & Hh & Hn & Ht & Hs) Hd.
  destruct (insert_candidate_fields visited id (distance_to graph query id)) as [Ec Em].
  assert (Hnew : forall x, x ∈ candidates (insert_candidate visited id (distance_to graph query id)) ->
                           x ∈ candidates visited
                           \/ x = {| node_id := id; distance := distance_to graph query id |})
    by (intros x; apply insert_candidate_sub).
  repeat split.
  - congruence.
  - congruence.
  - rewrite <- Hm. apply insert_candidate_heap_ok; rewrite ?Hm; assumption.
  - unfold numbers in *. rewrite Forall_forall in *. intros x Hx.
    destruct (Hnew x Hx) as [H | ->]; auto.
  - unfold tagged in *. rewrite Forall_forall in *. intros x Hx.
    destruct (Hnew x Hx) as [H | ->]; auto.
  - unfold size in *. rewrite length_insert_candidate. unfold size.
    destruct (Z.ltb_spec (Z.of_nat (length (candidates visited))) (capacity visited)); lia.
Qed.

Section SearchLayer.
Variables (graph : HNSWGraph) (query : Vector) (layer ef : Z).
Hypothesis wf : wf_search_graph graph.
Hypothesis ef_range : 1 <= ef < 1073741824.
Hypothesis no_nan :
  forall id, 0 <= id < node_count graph -> is_nan (distance_to graph query id) = false.

Lemma search_layer_visit_inv st neighbor_id :
  0 <= neighbor_id < node_count graph ->
  loop_inv graph query ef st ->
  loop_inv graph query ef (search_layer_visit graph query ef st neighbor_id)
  /\ (loop_measure (search_layer_visit graph query ef st neighbor_id) <= loop_measure st)%nat.
Proof.
  intros Hid (Hv & Hlen & Hfl). unfold search_layer_visit, flag_at.
  destruct (nth (Z.to_nat neighbor_id) (st_flags st) false) eqn:Ef.
  - split; [exact (conj Hv (conj Hlen Hfl)) | lia].
  - pose proof (count_clear_set (st_flags st) (Z.to_nat neighbor_id) ltac:(lia) Ef) as Hc.
    fold (distance_to graph query neighbor_id).
    destruct (_ || _).
    + unfold loop_inv, loop_measure. cbn [st_visited st_flags st_candidates].
      rewrite length_insert. split; [split; [|split]|].
      * apply visited_ok_insert; [lia | assumption | auto].
      * rewrite length_insert_candidate.
        destruct (size (st_visited st) <? capacity (st_visited st)); lia.
      * assumption.
      * rewrite length_insert_candidate.
        destruct (size (st_candidates st) <? capacity (st_candidates st)); lia.
    + unfold loop_inv, loop_measure. cbn [st_visited st_flags st_candidates].
      rewrite length_insert. split; [exact (conj Hv (conj Hlen Hfl)) | lia].
Qed.

Lemma search_layer_visit_fold neighbors :
  forall st,
    Forall (fun id => 0 <= id < node_count graph) neighbors ->
    loop_inv graph query ef st ->
    loop_inv graph query ef (fold_left (search_layer_visit graph query ef) neighbors st)
    /\ (loop_measure (fold_left (search_layer_visit graph query ef) neighbors st)
        <= loop_measure st)%nat.
Proof.
  induction neighbors as [|id neighbors IH]; intros st Hids Hinv; cbn [fold_left].
  - split; [assumption | lia].
  - inversion Hids as [|? ? Hid Hids']; subst.
    destruct (search_layer_visit_inv st id Hid Hinv) as [Hinv' Hm'].
    destruct (IH _ Hids' Hinv') as [Hinv'' Hm'']. split; [assumption | lia].
Qed.

Lemma connections_in_range id :
  Forall (fun nb => 0 <= nb < node_count graph)
         (connections (node_at (nodes graph) id) layer).
Proof.
  apply List.Forall_forall. intros nb Hin. destruct wf as [_ Hwf]. eauto.
Qed.

Lemma search_layer_loop_total fuel :
  forall st,
    (loop_measure st < fuel)%nat -> loop_inv graph query ef st ->
    exists st', search_layer_loop fuel graph query layer ef st = Some st' /\ loop_inv graph query ef st'.
Proof.
  induction fuel as [|fuel IH]; intros st Hm Hinv; [lia|].
  cbn [search_layer_loop].
  destruct (Z.ltb_spec 0 (size (st_candidates st))) as [Hpos | Hzero]; [|eauto].
  destruct (extract_top_candidate_some (st_candidates st))
    as (current & rest & -> & _ & Hl & _).
  { intros E. unfold size in Hpos. rewrite E in Hpos. simpl in Hpos. lia. }
  cbn [st_visited st_flags st_candidates].
  set (st1 := {| st_candidates := rest; st_visited := st_visited st;
                 st_flags := st_flags st |}).
  assert (Hinv1 : loop_inv graph query ef st1) by exact Hinv.
  assert (Hm1 : (S (loop_measure st1) = loop_measure st)%nat)
    by (unfold loop_measure, st1; cbn [st_visited st_flags st_candidates]; lia).
  destruct (_ && _); [eauto|].
  destruct (layer <=? maximum_layer (node_at (nodes graph) (node_id current))).
  - destruct (search_layer_visit_fold _ st1 (connections_in_range (node_id current)) Hinv1)
      as [Hinv2 Hm2].
    apply IH; [lia | assumption].
  - apply IH; [lia | assumption].
Qed.

Lemma count_clear_repeat n : count_clear (repeat false n) = n.
Proof. unfold count_clear. induction n; simpl; [reflexivity | now f_equal]. Qed.

Lemma nth_repeat_false n i : nth i (repeat false n) false = false.
Proof. revert i. induction n; intros [|i]; simpl; auto. Qed.

Lemma search_layer_initial entry_point :
  0 <= entry_point < node_count graph ->
  let d := distance_to graph query entry_point in
  let st := {| st_candidates :=
                 insert_candidate (create_priority_queue ef false) entry_point d;
               st_visited :=
                 insert_candidate (create_priority_queue (ef * 2) true) entry_point d;
               st_flags := <[Z.to_nat entry_point := true]>
                             (repeat false (Z.to_nat (node_count graph))) |} in
  loop_inv graph query ef st
  /\ (loop_measure st < S (Z.to_nat (node_count graph)))%nat.
Proof.
  intros Hentry d st. split.
  - unfold loop_inv, st. cbn [st_visited st_flags]. split; [|split].
    + replace (2 * ef) with (ef * 2) by lia.
      apply visited_ok_insert; [lia | | apply no_nan; assumption].
      unfold visited_ok, create_priority_queue, size, numbers, tagged.
      cbn [candidates capacity is_max_heap length].
      repeat split; auto using heap_ok_nil; lia.
    + rewrite length_insert_candidate. unfold create_priority_queue, size.
      cbn [candidates capacity length].
      destruct (Z.ltb_spec (Z.of_nat 0) (ef * 2)); lia.
    + now rewrite length_insert, repeat_length.
  - unfold loop_measure, st. cbn [st_flags st_candidates].
    pose proof (insert_candidate_fresh_length ef false entry_point d).
    pose proof (count_clear_set (repeat false (Z.to_nat (node_count graph)))
                  (Z.to_nat entry_point)
                  ltac:(rewrite repeat_length; lia) (nth_repeat_false _ _)) as Hc.
    rewrite count_clear_repeat in Hc. lia.
Qed.

Lemma search_layer_final_unfold entry_point :
  search_layer_final graph query entry_point layer ef =
  search_layer_loop (S (Z.to_nat (node_count graph))) graph query layer ef
    {| st_candidates :=
         insert_candidate (create_priority_queue ef false) entry_point
                          (distance_to graph query entry_point);
       st_visited :=
         insert_candidate (create_priority_queue (ef * 2) true) entry_point
                          (distance_to graph query entry_point);
       st_flags := <[Z.to_nat entry_point := true]>
                     (repeat false (Z.to_nat (node_count graph))) |}.
Proof.
  unfold search_layer_final. fold (distance_to graph query entry_point).
  rewrite (wrap_int_id (ef * 2)) by (unfold in_int_range, INT_MIN, INT_MAX; lia).
  reflexivity.
Qed.

Lemma search_layer_results entry_point :
  0 <= entry_point < node_count graph ->
  exists final results,
    search_layer_final graph query entry_point layer ef = Some final
    /\ loop_inv graph query ef final
    /\ search_layer graph query entry_point layer ef = Some results
    /\ results = drain_results (length (candidates (st_visited final)))
                               (st_visited final) []
    /\ 1 <= Z.of_nat (length results) <= 2 * ef
    /\ closest_first graph query results.
Proof.
  intros Hentry. unfold search_layer. rewrite search_layer_final_unfold.
  destruct (search_layer_initial entry_point Hentry) as [Hinv Hm].
  destruct (search_layer_loop_total _ _ Hm Hinv) as (st' & -> & Hinv').
  exists st'. eexists. split; [reflexivity|]. split; [exact Hinv'|].
  split; [reflexivity|]. split; [reflexivity|].
  destruct Hinv' as ((Hmax & Hc & Hh & Hn & Ht & Hs) & Hlen & _).
  destruct (drain_results_sorted graph query (length (candidates (st_visited st')))
              (st_visited st') [] eq_refl Hmax Hh Hn Ht) as [Hsorted Hl].
  - constructor.
  - intros c a _ Ha. inversion Ha.
  - split; [|assumption]. rewrite Hl. simpl. unfold size in Hs. lia.
Qed.
End SearchLayer.

(** ** Concrete searches *)

Lemma wf_search_path_graph : wf_search_graph path_graph.
Proof.
  split; [simpl; lia|].
  intros id layer nb. unfold node_at, connections. simpl.
  destruct (Z.to_nat id) as [|[|[|[|[|?]]]]]; destruct (Z.to_nat layer) as [|[|?]];
    simpl; intuition lia.
Qed.

Lemma path_graph_no_nan id :
  0 <= id < node_count path_graph ->
  is_nan (distance_to path_graph (vector_of_ints [3]) id) = false.
Proof.
  simpl. intros H.
  assert (E : id = 0 \/ id = 1 \/ id = 2 \/ id = 3) by lia.
  destruct E as [-> | [-> | [-> | ->]]]; reflexivity.
Qed.

(** With [ef = 1] the search returns two ids. *)
Lemma search_layer_exceeds_ef_counterexample :
  wf_search_graph path_graph
  /\ 0 <= 0 < node_count path_graph
  /\ search_layer path_graph (vector_of_ints [3]) 0 0 1 = Some [2; 1]
  /\ ~ (forall results,
           search_layer path_graph (vector_of_ints [3]) 0 0 1 = Some results ->
           Z.of_nat (length results) <= 1
           /\ closest_first path_graph (vector_of_ints [3]) results).
Proof.
  split; [exact wf_search_path_graph|]. split; [simpl; lia|].
  split; [vm_compute; reflexivity|].
  intros H. destruct (H [2; 1]) as [Hlen _]; [vm_compute; reflexivity|].
  simpl in Hlen. lia.
Qed.

(** A NaN distance can leave the result out of order: node 3 (distance 10)
    is returned before node 0 (distance 3). *)
Lemma search_layer_nan_breaks_order :
  search_layer nan_star (vector_of_ints [0]) 0 0 4 = Some [1; 2; 3; 0]
  /\ flt (distance_to nan_star (vector_of_ints [0]) 0)
         (distance_to nan_star (vector_of_ints [0]) 3) = true
  /\ ~ closest_first nan_star (vector_of_ints [0]) [1; 2; 3; 0].
Proof.
  split; [vm_compute; reflexivity|]. split; [vm_compute; reflexivity|].
  intros H. unfold closest_first in H.
  apply StronglySorted_inv in H. destruct H as [H _].
  apply StronglySorted_inv in H. destruct H as [H _].
  apply StronglySorted_inv in H. destruct H as [_ H].
  apply List.Forall_inv in H. vm_compute in H. discriminate H.
Qed.


(** ** Concrete streams *)

Lemma wf_two_layer_graph : wf_graph two_layer_graph.
Proof.
  unfold wf_graph. split; [reflexivity|]. split; [unfold INT_MAX; simpl; lia|].
  simpl.
  assert (R : forall z, -10 <= z <= 10 -> in_int_range z)
    by (unfold in_int_range, INT_MIN, INT_MAX; lia).
  repeat apply List.Forall_cons; try apply List.Forall_nil;
    (split; [simpl; unfold INT_MAX; lia | split; [reflexivity|]]); simpl;
    repeat first [apply List.Forall_nil | apply List.Forall_cons | apply R; lia].
Qed.

Lemma deserialize_serialize_round_trip_witness :
  exists restored : MemGraph,
    deserialize_hnsw_graph two_layer_stream 60 = Ret (Some restored)
    /\ m_node_count restored = node_count two_layer_graph
    /\ Forall2 (fun (m : MemNode) (n : HNSWNode) =>
                  m_maximum_layer m = maximum_layer n
                  /\ m_layer_connections m = cptr_to (map cptr_to (layer_connections n)))
               (m_nodes restored) (nodes two_layer_graph).
Proof.
  apply (deserialize_serialize_round_trip two_layer_graph two_layer_stream 60).
  - exact wf_two_layer_graph.
  - vm_compute. reflexivity.
Defined.

(** ** The cleanup path of the deserializer *)

Lemma free_zero_node_faults : free_hnsw_node_fields zero_node = false.
Proof. reflexivity. Qed.

(** The cleanup walks all [node_count] slots; a slot still as [calloc] left
    it has [maximum_layer = 0] and a null [layer_connections], which the
    walk dereferences. *)
Lemma free_hnsw_graph_zero_slot graph i :
  (i < Z.to_nat (m_node_count graph))%nat ->
  m_nodes graph !! i = Some zero_node ->
  free_hnsw_graph graph = false.
Proof.
  intros Hi Hz. unfold free_hnsw_graph.
  apply not_true_is_false. intros H. rewrite forallb_forall in H.
  specialize (H i). rewrite Hz, free_zero_node_faults in H.
  discriminate H. apply in_seq. lia.
Qed.

(** A stream that announces nodes and ends right after the header. *)
Lemma deserialize_truncated_header_faults (n : Z) :
  1 <= n <= INT_MAX ->
  deserialize_hnsw_graph (write_int n) 4 = Fault.
Proof.
  intros Hn. unfold deserialize_hnsw_graph.
  change (4 <=? 0) with false. change (4 <? 4) with false. cbn [negb].
  assert (Hat : at_offset (write_int n) 0 (write_int n ++ []))
    by (split; [lia | now rewrite app_nil_r]).
  destruct (read_int_at _ _ _ _ Hat) as [-> _];
    [unfold in_int_range, INT_MIN, INT_MAX in *; lia|].
  unfold malloc_ok. destruct (Z.leb_spec 0 n); [|lia]. cbn [negb].
  destruct (Z.to_nat n) as [|k] eqn:Ek; [lia|].
  cbn [deserialize_nodes]. change (wrap_int (4 - 4) <? 4) with true. cbn match.
  unfold cleanup_and_fail.
  rewrite (free_hnsw_graph_zero_slot _ 0); [reflexivity | simpl; lia | reflexivity].
Qed.

(** C5: corrupt streams make [deserialize_hnsw_graph] run its cleanup on the
    half-built graph, which faults instead of returning the null pointer:
    a flipped redundant count (first or last layer of the stream), a stream
    truncated after the header, and a negative top layer in a node that is
    not the last one. *)
Theorem deserialize_corrupt_stream_faults :
  serialize_hnsw_graph (Some two_layer_graph) = Ret (Some (two_layer_stream, 60))
  /\ deserialize_hnsw_graph flipped_first_count 60 = Fault
  /\ deserialize_hnsw_graph flipped_last_count 60 = Fault
  /\ deserialize_hnsw_graph (write_int 1) 4 = Fault
  /\ deserialize_hnsw_graph (flat_map write_int [2; -1]) 8 = Fault.
Proof.
  split; [vm_compute; reflexivity|].
  split; [vm_compute; reflexivity|].
  split; [vm_compute; reflexivity|].
  split; vm_compute; reflexivity.
Qed.

(** The only corrupt streams rejected with a null pointer from inside the
    node loop fail in the last node before any of its layers is read. *)
Lemma deserialize_negative_last_top_layer :
  deserialize_hnsw_graph (flat_map write_int [1; -1]) 8 = Ret None.
Proof. vm_compute. reflexivity. Qed.

(** ** Overflow of the bounds check *)

Lemma read_connections_past_end n buffer ptr acc :
  (0 < n)%nat -> read_int buffer ptr = None -> read_connections n buffer ptr acc = None.
Proof. intros Hn Hr. destruct n; [lia|]. simpl. now rewrite Hr. Qed.

(** When [conn_count * 4] wraps to a non-positive [int], the check
    [size < conn_count * sizeof(int)] passes with no byte left and the copy
    loop reads past the end of the buffer. *)
Lemma deserialize_count_overflow (c : Z) :
  0 < c <= INT_MAX -> wrap_int (c * 4) <= 0 ->
  deserialize_hnsw_graph (flat_map write_int [1; 0; c; c]) 16 = Fault.
Proof.
  intros Hc Hw. cbn [flat_map]. rewrite app_nil_r.
  set (buffer := write_int 1 ++ write_int 0 ++ write_int c ++ write_int c).
  assert (Hrange : forall z, 0 <= z <= INT_MAX -> in_int_range z)
    by (unfold in_int_range, INT_MIN, INT_MAX; lia).
  assert (H0 : at_offset buffer 0 (write_int 1 ++ write_int 0 ++ write_int c
                                   ++ write_int c ++ []))
    by (split; [lia | unfold buffer; now rewrite app_nil_r]).
  destruct (read_int_at _ _ _ _ H0) as [R0 H4]; [apply Hrange; unfold INT_MAX; lia|].
  destruct (read_int_at _ _ _ _ H4) as [R4 H8]; [apply Hrange; unfold INT_MAX; lia|].
  destruct (read_int_at _ _ _ _ H8) as [R8 H12]; [apply Hrange; lia|].
  destruct (read_int_at _ _ _ _ H12) as [R12 H16]; [apply Hrange; lia|].
  assert (R16 : read_int buffer 16 = None).
  { change (0 + 4 + 4 + 4 + 4) with 16 in H16.
    unfold read_int. destruct H16 as [_ ->]. reflexivity. }
  change (0 + 4) with 4 in *. change (4 + 4) with 8 in *. change (8 + 4) with 12 in *.
  unfold deserialize_hnsw_graph.
  change (16 <=? 0) with false. change (16 <? 4) with false. cbn match.
  rewrite R0. change (negb (malloc_ok 1)) with false. cbn match.
  change (Z.to_nat 1) with 1%nat. change (wrap_int (16 - 4)) with 12.
  cbn [deserialize_nodes]. change (12 <? 4) with false. cbn match.
  unfold deserialize_node. rewrite R4.
  change (0 <? 0) with false. change (wrap_int (0 + 1)) with 1.
  change (negb (malloc_ok 1)) with false. cbn match.
  change (Z.to_nat 1) with 1%nat. change (wrap_int (12 - 4)) with 8.
  change (4 + 4) with 8.
  cbn [read_connection_counts]. change (8 <? 4) with false. cbn match.
  rewrite R8. change (8 + 4) with 12. change (wrap_int (8 - 4)) with 4.
  cbn [app repeat read_layers]. change (4 <? 4) with false. cbn match.
  rewrite R12. change (12 + 4) with 16. change (wrap_int (4 - 4)) with 0.
  cbn [nth]. rewrite Z.eqb_refl. cbn [negb].
  destruct (Z.ltb_spec 0 (wrap_int (c * 4))); [lia|].
  unfold malloc_ok. destruct (Z.leb_spec 0 c); [|lia]. cbn [negb].
  rewrite read_connections_past_end; [reflexivity | lia | exact R16].
Qed.

Lemma deserialize_count_overflow_example :
  deserialize_hnsw_graph (flat_map write_int [1; 0; 1073741824; 1073741824]) 16 = Fault.
Proof.
  apply deserialize_count_overflow; [unfold INT_MAX; lia | vm_compute; discriminate].
Qed.


(** * The linking step *)

Lemma maximum_layer_add_connection node layer id :
  maximum_layer (add_connection_to_node node layer id) = maximum_layer node.
Proof.
  unfold add_connection_to_node.
  destruct (layer >? maximum_layer node); [reflexivity|].
  destruct (existsb _ _); reflexivity.
Qed.

Lemma connections_add_connection node layer id l :
  connections (add_connection_to_node node layer id) l =
  if (layer >? maximum_layer node) || existsb (Z.eqb id) (connections node layer)
  then connections node l
  else if decide (Z.to_nat layer = Z.to_nat l
                  /\ (Z.to_nat layer < length (layer_connections node))%nat)
       then connections node layer ++ [id]
       else connections node l.
Proof.
  unfold add_connection_to_node.
  destruct (layer >? maximum_layer node); [reflexivity|].
  destruct (existsb _ _); [reflexivity|]. cbn [orb].
  unfold connections at 1. cbn [layer_connections].
  rewrite nth_lookup, list_lookup_insert.
  destruct (decide _) as [[E Hlt] | N]; [reflexivity|].
  unfold connections. now rewrite nth_lookup.
Qed.

Lemma add_connection_keeps node layer id l x :
  In x (connections node l) -> In x (connections (add_connection_to_node node layer id) l).
Proof.
  intros H. rewrite connections_add_connection.
  destruct (_ || _); [exact H|].
  destruct (decide _) as [[E _] | _]; [|exact H].
  apply in_or_app. left. unfold connections in *. now rewrite E.
Qed.

Lemma add_connection_new node layer id l x :
  In x (connections (add_connection_to_node node layer id) l) ->
  In x (connections node l) \/ (Z.to_nat layer = Z.to_nat l /\ x = id).
Proof.
  rewrite connections_add_connection.
  destruct (_ || _); [auto|].
  destruct (decide _) as [[E _] | _]; [|auto].
  intros H. apply in_app_or in H. destruct H as [H | [<- | []]]; [|auto].
  left. unfold connections in *. now rewrite <- E.
Qed.

Lemma add_connection_adds node layer id :
  layer <= maximum_layer node ->
  (Z.to_nat layer < length (layer_connections node))%nat ->
  In id (connections (add_connection_to_node node layer id) layer).
Proof.
  intros Hl Hlen. rewrite connections_add_connection.
  destruct (Z.gtb_spec layer (maximum_layer node)); [lia|]. cbn [orb].
  destruct (existsb (Z.eqb id) (connections node layer)) eqn:E.
  - apply existsb_exists in E. destruct E as (y & Hy & Ey).
    apply Z.eqb_eq in Ey. now subst y.
  - destruct (decide _) as [_ | N]; [|exfalso; apply N; auto].
    apply in_or_app. right. now left.
Qed.

Lemma node_at_connect ns a layer b i :
  node_at (connect ns a layer b) i =
  if decide (Z.to_nat a = Z.to_nat i /\ (Z.to_nat a < length ns)%nat)
  then add_connection_to_node (node_at ns a) layer b
  else node_at ns i.
Proof.
  unfold connect, node_at. rewrite nth_lookup, list_lookup_insert.
  destruct (decide _); [reflexivity | now rewrite nth_lookup].
Qed.

Lemma length_connect ns a layer b : length (connect ns a layer b) = length ns.
Proof. unfold connect. apply length_insert. Qed.

Lemma connect_keeps ns a layer b i l x :
  In x (connections (node_at ns i) l) ->
  In x (connections (node_at (connect ns a layer b) i) l).
Proof.
  intros H. rewrite node_at_connect.
  destruct (decide _) as [[E _] | _]; [|exact H].
  apply add_connection_keeps. unfold node_at in *. now rewrite E.
Qed.

Lemma maximum_layer_connect ns a layer b i :
  maximum_layer (node_at (connect ns a layer b) i) = maximum_layer (node_at ns i).
Proof.
  rewrite node_at_connect.
  destruct (decide _) as [[E _] | _]; [|reflexivity].
  rewrite maximum_layer_add_connection. unfold node_at. now rewrite E.
Qed.

Lemma connect_new ns a layer b i l x :
  In x (connections (node_at (connect ns a layer b) i) l) ->
  In x (connections (node_at ns i) l)
  \/ (Z.to_nat a = Z.to_nat i /\ Z.to_nat layer = Z.to_nat l /\ x = b).
Proof.
  rewrite node_at_connect.
  destruct (decide _) as [[E _] | _]; [|auto].
  intros H. apply add_connection_new in H. destruct H as [H | [El ->]].
  - left. unfold node_at in *. now rewrite <- E.
  - auto.
Qed.


(** * Nothing is lost by the heap operations *)

Lemma swap_candidates_sup cs a b x : x ∈ cs -> x ∈ swap_candidates cs a b.
Proof.
  intros H. unfold swap_candidates.
  destruct (cs !! a) as [ca|] eqn:Ea; [|exact H].
  destruct (cs !! b) as [cb|] eqn:Eb; [|exact H].
  pose proof (lookup_lt_Some _ _ _ Ea) as Ha. pose proof (lookup_lt_Some _ _ _ Eb) as Hb.
  apply list_elem_of_lookup in H. destruct H as [i Hi].
  assert (E : forall j, swap_candidates cs a b !! j =
                        <[b := ca]> (<[a := cb]> cs) !! j).
  { intros j. unfold swap_candidates. now rewrite Ea, Eb. }
  destruct (decide (i = a)) as [-> | Nia].
  - apply (list_elem_of_lookup_2 _ b). rewrite <- E, swap_candidates_lookup by assumption.
    destruct (decide (b = b)); congruence.
  - destruct (decide (i = b)) as [-> | Nib].
    + apply (list_elem_of_lookup_2 _ a). rewrite <- E, swap_candidates_lookup by assumption.
      destruct (decide (a = b)); [congruence|].
      destruct (decide (a = a)); congruence.
    + apply (list_elem_of_lookup_2 _ i). rewrite <- E, swap_candidates_lookup by assumption.
      destruct (decide (i = b)); [contradiction|].
      destruct (decide (i = a)); [contradiction | assumption].
Qed.

Lemma heapify_up_rec_sup m fuel :
  forall cs c x, x ∈ cs -> x ∈ heapify_up_rec fuel m cs c.
Proof.
  induction fuel as [|fuel IH]; intros cs c x H; simpl; [exact H|].
  destruct (better m _ _); [|exact H].
  apply IH. now apply swap_candidates_sup.
Qed.

Lemma heapify_down_rec_sup m fuel :
  forall cs p x, x ∈ cs -> x ∈ heapify_down_rec fuel m cs p.
Proof.
  induction fuel as [|fuel IH]; intros cs p x H; [exact H|].
  rewrite heapify_down_rec_unfold.
  destruct (negb _); [|exact H].
  apply IH. now apply swap_candidates_sup.
Qed.

Lemma elem_of_insert_keep {A} (l : list A) (y x : A) :
  x ∈ l -> l !! 0%nat = Some x \/ x ∈ <[0%nat := y]> l.
Proof.
  intros H. apply list_elem_of_lookup in H. destruct H as [[|i] Hi]; [auto|].
  right. apply (list_elem_of_lookup_2 _ (S i)).
  now rewrite list_lookup_insert_ne by lia.
Qed.

(** What an insertion keeps: everything when there is room; everything but
    the replaced root when full. *)
Lemma insert_candidate_sup queue id d x :
  x ∈ candidates queue ->
  x ∈ candidates (insert_candidate queue id d)
  \/ (capacity queue <= size queue /\ candidates queue !! 0%nat = Some x).
Proof.
  intros H. unfold insert_candidate.
  destruct (Z.ltb_spec (size queue) (capacity queue)) as [Hroom | Hfull].
  - left. cbn [candidates with_candidates]. apply heapify_up_rec_sup, elem_of_app. auto.
  - repeat match goal with |- context [if ?c then _ else _] => destruct c end;
      cbn [candidates with_candidates]; auto;
      destruct (elem_of_insert_keep (candidates queue)
                  {| node_id := id; distance := d |} x H) as [H0 | H0]; auto;
      left; now apply heapify_down_rec_sup.
Qed.

Lemma insert_candidate_new queue id d :
  size queue < capacity queue
  \/ (is_max_heap queue = true /\ candidates queue <> []
      /\ flt d (distance_at (candidates queue) 0) = true) ->
  {| node_id := id; distance := d |} ∈ candidates (insert_candidate queue id d).
Proof.
  intros H. unfold insert_candidate.
  destruct (Z.ltb_spec (size queue) (capacity queue)) as [Hroom | Hfull].
  - cbn [candidates with_candidates]. apply heapify_up_rec_sup, elem_of_app.
    right. apply list_elem_of_singleton. reflexivity.
  - destruct H as [H | (Hmax & Hne & Hlt)]; [lia|].
    rewrite Hmax, Hlt. cbn [andb candidates with_candidates].
    apply heapify_down_rec_sup, list_elem_of_insert.
    destruct (candidates queue); [contradiction | simpl; lia].
Qed.

Lemma extract_top_candidate_sup queue top rest x :
  extract_top_candidate queue = Some (top, rest) ->
  x ∈ candidates queue -> x = top \/ x ∈ candidates rest.
Proof.
  unfold extract_top_candidate. intros H Hx.
  destruct (candidates queue) as [|t cs] eqn:Ecs; [discriminate|].
  cbn [length] in H. rewrite Nat.sub_succ, Nat.sub_0_r in H.
  destruct (Nat.ltb_spec 0 (length cs)) as [Hpos | Hzero].
  - destruct ((t :: cs) !! length cs) as [last|] eqn:El; [|discriminate].
    injection H as <- <-. cbn [candidates with_candidates].
    apply list_elem_of_lookup in Hx. destruct Hx as [i Hi].
    destruct i as [|i]; [left; simpl in Hi; congruence|]. right.
    apply heapify_down_rec_sup.
    pose proof (lookup_lt_Some _ _ _ Hi) as Hlt. simpl in Hlt.
    destruct (decide (S i = length cs)) as [E | N].
    + rewrite E in Hi. rewrite Hi in El. injection El as <-.
      apply list_elem_of_insert. rewrite length_take. simpl. lia.
    + apply (list_elem_of_lookup_2 _ (S i)).
      rewrite list_lookup_insert_ne by lia.
      rewrite lookup_take_lt by lia. exact Hi.
  - injection H as <- <-. destruct cs; [|simpl in Hzero; lia].
    apply list_elem_of_singleton in Hx. auto.
Qed.

(** The drained ids are exactly the ids held by the heap. *)
Lemma drain_results_ids count :
  forall visited results,
    length (candidates visited) = count ->
    forall id, In id (drain_results count visited results) <->
               In id results \/ exists c, c ∈ candidates visited /\ node_id c = id.
Proof.
  induction count as [|count IH]; intros visited results Hlen id; cbn [drain_results].
  - destruct (candidates visited) eqn:E; [|discriminate].
    split; [auto | intros [H | (c & Hc & _)]; [exact H | inversion Hc]].
  - destruct (extract_top_candidate_some visited) as
      (top & rest & Hex & Htop & Hl & Hsub & _).
    { intros E. rewrite E in Hlen. discriminate. }
    rewrite Hex. rewrite IH by lia. split.
    + intros [[<- | H] | (c & Hc & Hid)].
      * right. exists top. split; [eapply list_elem_of_lookup_2; eassumption | reflexivity].
      * auto.
      * right. exists c. auto.
    + intros [H | (c & Hc & Hid)].
      * left. now right.
      * destruct (extract_top_candidate_sup _ _ _ c Hex Hc) as [-> | Hr].
        -- left. left. exact Hid.
        -- right. exists c. auto.
Qed.

(** * What the result heap covers *)

Lemma flag_at_set flags nb id :
  0 <= nb -> 0 <= id -> (Z.to_nat nb < length flags)%nat ->
  flag_at (<[Z.to_nat nb := true]> flags) id =
  if decide (id = nb) then true else flag_at flags id.
Proof.
  intros Hnb Hid Hlen. unfold flag_at. rewrite !nth_lookup, list_lookup_insert.
  destruct (decide (id = nb)) as [-> | N].
  - destruct (decide _) as [_ | N']; [reflexivity | exfalso; apply N'; auto].
  - destruct (decide _) as [[E _] | _]; [lia | reflexivity].
Qed.

Lemma root_distance cs top :
  cs !! 0%nat = Some top -> distance_at cs 0 = distance top.
Proof. intros H. unfold distance_at. now rewrite H. Qed.

Section Coverage.
Variables (graph : HNSWGraph) (query : Vector) (layer ef : Z).
Hypothesis wf : wf_search_graph graph.
Hypothesis ef_range : 1 <= ef < 1073741824.
Hypothesis no_nan :
  forall id, 0 <= id < node_count graph -> is_nan (distance_to graph query id) = false.

Lemma nonempty_root (visited : PriorityQueue) :
  1 <= size visited -> exists top, candidates visited !! 0%nat = Some top.
Proof.
  unfold size. intros H. destruct (candidates visited) as [|top cs]; [simpl in H; lia|].
  exists top. reflexivity.
Qed.

Lemma search_layer_visit_covers st neighbor_id :
  0 <= neighbor_id < node_count graph ->
  loop_inv graph query ef st -> covers graph query ef st ->
  covers graph query ef (search_layer_visit graph query ef st neighbor_id).
Proof.
  intros Hid (Hv & Hlen & Hfl) [J1 J2].
  destruct Hv as (Hmax & Hcap & Hheap & Hnum & Htag & Hsize).
  unfold search_layer_visit.
  destruct (flag_at (st_flags st) neighbor_id) eqn:Ef; [split; assumption|].
  fold (distance_to graph query neighbor_id).
  set (d := distance_to graph query neighbor_id).
  assert (Hset : forall id, 0 <= id ->
            flag_at (<[Z.to_nat neighbor_id := true]> (st_flags st)) id
            = if decide (id = neighbor_id) then true else flag_at (st_flags st) id)
    by (intros; apply flag_at_set; lia).
  assert (Hbest : forall top c, candidates (st_visited st) !! 0%nat = Some top ->
                    c ∈ candidates (st_visited st) ->
                    flt (distance top) (distance c) = false).
  { intros top c Htop Hc.
    apply (heap_top_best true (candidates (st_visited st)) top c); assumption. }
  assert (Htagged : forall c, c ∈ candidates (st_visited st) ->
                      distance c = distance_to graph query (node_id c)).
  { unfold tagged in Htag. rewrite Forall_forall in Htag. exact Htag. }
  assert (Hnumber : forall c, c ∈ candidates (st_visited st) -> is_nan (distance c) = false).
  { unfold numbers in Hnum. rewrite Forall_forall in Hnum. exact Hnum. }
  destruct ((size (st_visited st) <? ef)
            || flt d (distance_at (candidates (st_visited st)) 0)) eqn:Econd.
  - (* inserted into both heaps *)
    assert (Hlt : ef <= size (st_visited st) ->
                  exists top, candidates (st_visited st) !! 0%nat = Some top
                              /\ flt d (distance top) = true).
    { intros Hge. destruct (nonempty_root (st_visited st)) as [top Htop]; [lia|].
      exists top. split; [exact Htop|].
      destruct (Z.ltb_spec (size (st_visited st)) ef); [lia|].
      cbn [orb] in Econd. now rewrite (root_distance _ _ Htop) in Econd. }
    assert (Hnew : forall c, c ∈ candidates (insert_candidate (st_visited st) neighbor_id d) ->
                     c ∈ candidates (st_visited st)
                     \/ c = {| node_id := neighbor_id; distance := d |})
      by (intros c; apply insert_candidate_sub).
    assert (Hgrow : size (st_visited st)
                    <= size (insert_candidate (st_visited st) neighbor_id d)).
    { pose proof (length_insert_candidate (st_visited st) neighbor_id d) as Hl'.
      unfold size.
      destruct (size (st_visited st) <? capacity (st_visited st)) in Hl'; lia. }
    split; cbn [st_visited st_flags].
    + intros c Hc. destruct (Hnew c Hc) as [Hold | ->].
      * destruct (J1 c Hold) as [Hf Hr]. split; [|exact Hr].
        rewrite Hset by lia. destruct (decide _); [reflexivity | exact Hf].
      * cbn [node_id]. split; [|exact Hid].
        rewrite Hset by lia. destruct (decide _); [reflexivity | contradiction].
    + intros id Hrange Hflag. rewrite Hset in Hflag by lia.
      destruct (decide (id = neighbor_id)) as [-> | Nid].
      * left. exists {| node_id := neighbor_id; distance := d |}. split; [|reflexivity].
        apply insert_candidate_new.
        destruct (Z.ltb_spec (size (st_visited st)) (capacity (st_visited st)));
          [left; lia | right].
        destruct (Hlt ltac:(lia)) as (top & Htop & Hd).
        rewrite (root_distance _ _ Htop). repeat split; [assumption | | assumption].
        intros E. rewrite E in Htop. discriminate.
      * destruct (J2 id Hrange Hflag) as [(c & Hc & Hcid) | (Hge & Hfar)].
        -- destruct (insert_candidate_sup (st_visited st) neighbor_id d c Hc)
             as [Hkeep | (Hfull & Hroot)].
           ++ left. exists c. auto.
           ++ right. split; [lia|]. intros c' Hc'.
              rewrite <- Hcid, <- (Htagged c Hc).
              destruct (Hnew c' Hc') as [Hold | ->].
              ** now apply Hbest.
              ** cbn [distance]. destruct (Hlt ltac:(lia)) as (top & Htop & Hd).
                 rewrite Hroot in Htop. injection Htop as <-.
                 now apply flt_asym.
        -- right. split; [lia|]. intros c' Hc'.
           destruct (Hnew c' Hc') as [Hold | ->]; [auto|]. cbn [distance].
           destruct (Hlt Hge) as (top & Htop & Hd).
           destruct (flt (distance_to graph query id) d) eqn:E; [|reflexivity].
           assert (Hf : flt (distance_to graph query id) (distance top) = false)
             by (apply Hfar; eapply list_elem_of_lookup_2; eassumption).
           rewrite (flt_trans _ _ _ E Hd) in Hf. discriminate.
  - (* only the flag is set *)
    apply orb_false_iff in Econd. destruct Econd as [Hfull Hfar].
    apply Z.ltb_ge in Hfull.
    destruct (nonempty_root (st_visited st)) as [top Htop]; [lia|].
    rewrite (root_distance _ _ Htop) in Hfar.
    split; cbn [st_visited st_flags].
    + intros c Hc. destruct (J1 c Hc) as [Hf Hr]. split; [|exact Hr].
      rewrite Hset by lia. destruct (decide _); [reflexivity | exact Hf].
    + intros id Hrange Hflag. rewrite Hset in Hflag by lia.
      destruct (decide (id = neighbor_id)) as [-> | Nid]; [|auto].
      right. split; [exact Hfull|]. intros c Hc. fold d.
      apply (flt_le_trans (distance c) (distance top) d).
      * now apply Hbest.
      * exact Hfar.
      * apply Hnumber. eapply list_elem_of_lookup_2; eassumption.
Qed.

Lemma search_layer_visit_fold_covers neighbors :
  forall st,
    Forall (fun id => 0 <= id < node_count graph) neighbors ->
    loop_inv graph query ef st -> covers graph query ef st ->
    covers graph query ef (fold_left (search_layer_visit graph query ef) neighbors st).
Proof.
  induction neighbors as [|id neighbors IH]; intros st Hids Hinv Hcov; cbn [fold_left].
  - exact Hcov.
  - inversion Hids as [|? ? Hid Hids']; subst.
    apply IH; [assumption | |].
    + now apply (search_layer_visit_inv graph query ef ef_range no_nan).
    + now apply search_layer_visit_covers.
Qed.

Lemma search_layer_loop_covers fuel :
  forall st st',
    search_layer_loop fuel graph query layer ef st = Some st' ->
    loop_inv graph query ef st -> covers graph query ef st ->
    loop_inv graph query ef st' /\ covers graph query ef st'.
Proof.
  induction fuel as [|fuel IH]; intros st st' H Hinv Hcov; [discriminate|].
  cbn [search_layer_loop] in H.
  destruct (0 <? size (st_candidates st)); [|injection H as <-; auto].
  destruct (extract_top_candidate (st_candidates st)) as [[current rest]|]; [|discriminate].
  cbn [st_visited st_flags st_candidates] in H.
  set (st1 := {| st_candidates := rest; st_visited := st_visited st;
                 st_flags := st_flags st |}) in *.
  assert (Hinv1 : loop_inv graph query ef st1) by exact Hinv.
  assert (Hcov1 : covers graph query ef st1) by exact Hcov.
  destruct (_ && _); [injection H as <-; auto|].
  destruct (layer <=? maximum_layer (node_at (nodes graph) (node_id current))).
  - apply IH in H; [exact H | |].
    + apply (search_layer_visit_fold graph query ef ef_range no_nan);
        [apply (connections_in_range graph layer wf) | exact Hinv1].
    + apply search_layer_visit_fold_covers;
        [apply (connections_in_range graph layer wf) | exact Hinv1 | exact Hcov1].
  - apply IH in H; assumption.
Qed.
End Coverage.

Lemma search_layer_initial_covers graph query ef entry_point :
  1 <= ef ->
  0 <= entry_point < node_count graph ->
  covers graph query ef
    {| st_candidates :=
         insert_candidate (create_priority_queue ef false) entry_point
                          (distance_to graph query entry_point);
       st_visited :=
         insert_candidate (create_priority_queue (ef * 2) true) entry_point
                          (distance_to graph query entry_point);
       st_flags := <[Z.to_nat entry_point := true]>
                     (repeat false (Z.to_nat (node_count graph))) |}.
Proof.
  intros Hef Hentry.
  assert (Hset : forall id, 0 <= id ->
            flag_at (<[Z.to_nat entry_point := true]>
                       (repeat false (Z.to_nat (node_count graph)))) id
            = if decide (id = entry_point) then true else false).
  { intros id Hid. rewrite flag_at_set by (rewrite ?repeat_length; lia).
    destruct (decide _); [reflexivity|]. unfold flag_at. apply nth_repeat_false. }
  split; cbn [st_visited st_flags].
  - intros c Hc. apply insert_candidate_sub in Hc.
    destruct Hc as [Hc | ->]; [inversion Hc|]. cbn [node_id].
    split; [|exact Hentry]. rewrite Hset by lia.
    destruct (decide _); [reflexivity | contradiction].
  - intros id Hid Hflag. rewrite Hset in Hflag by lia.
    destruct (decide (id = entry_point)) as [-> | _]; [|discriminate].
    left.
    exists {| node_id := entry_point; distance := distance_to graph query entry_point |}.
    split; [|reflexivity].
    apply insert_candidate_new. left. unfold size, create_priority_queue. simpl. lia.
Qed.


(** * The distance function *)

Lemma binary_round_aux_sign s s' m e l :
  same_magnitude (binary_round_aux 24 128 s m e l) (binary_round_aux 24 128 s' m e l).
Proof.
  unfold binary_round_aux.
  destruct (shr_fexp 24 128 m e l) as [mrs' e'].
  destruct (shr_fexp 24 128 _ e' loc_Exact) as [mrs'' e''].
  destruct (shr_m mrs''); simpl; auto.
  destruct (e'' <=? 128 - 24); simpl; auto.
Qed.

Lemma binary_round_aux_sign_clear m e l :
  sign_clear (binary_round_aux 24 128 false m e l).
Proof.
  unfold binary_round_aux.
  destruct (shr_fexp 24 128 m e l) as [mrs' e'].
  destruct (shr_fexp 24 128 _ e' loc_Exact) as [mrs'' e''].
  destruct (shr_m mrs''); simpl; auto.
  destruct (e'' <=? 128 - 24); simpl; auto.
Qed.

Lemma binary_normalize_opp z e :
  same_magnitude (binary_normalize 24 128 z e false) (binary_normalize 24 128 (- z) e false).
Proof.
  destruct z; simpl; auto; unfold binary_round;
    destruct (shl_align _ _ _); apply binary_round_aux_sign.
Qed.

Lemma fsub_swap (a b : float) : same_magnitude (fsub a b) (fsub b a).
Proof.
  unfold fsub.
  destruct a as [sa|sa| |sa ma ea], b as [sb|sb| |sb mb eb];
    try (destruct sa, sb; simpl; auto; fail); simpl; auto.
  rewrite (Z.min_comm eb ea).
  match goal with
  | |- same_magnitude (binary_normalize _ _ ?x _ _) (binary_normalize _ _ ?y _ _) =>
      replace y with (- x) by lia
  end.
  apply binary_normalize_opp.
Qed.

Lemma fmul_square (x y : float) : same_magnitude x y -> fmul x x = fmul y y.
Proof.
  unfold fmul.
  destruct x as [sx|sx| |sx mx ex], y as [sy|sy| |sy my ey]; simpl; try tauto;
    intros H; try (destruct sx, sy; reflexivity).
  destruct H as [-> ->]. destruct sx, sy; reflexivity.
Qed.

Lemma sign_clear_not_negative (x : float) : sign_clear x -> flt x fzero = false.
Proof. destruct x as [[]|[]| |[] ? ?]; simpl; intros H; try discriminate; reflexivity. Qed.

Lemma sqrtf_not_negative (x : float) : flt (sqrtf x) fzero = false.
Proof.
  unfold sqrtf. destruct x as [[]|[]| |[] m e]; try reflexivity.
  unfold SFsqrt.
  destruct (SFsqrt_core_binary 24 128 (Z.pos m) e) as [[mz ez] lz].
  apply sign_clear_not_negative, binary_round_aux_sign_clear.
Qed.

Lemma fsub_self (x : float) : is_number x = true -> fsub x x = fzero.
Proof.
  unfold fsub, fzero. destruct x as [[]|[]| |s m e]; simpl; try discriminate; auto.
  intros _. rewrite Z.sub_diag. reflexivity.
Qed.

Lemma nth_is_number (l : list float) (i : nat) :
  Forall (fun x => is_number x = true) l -> is_number (nth i l fzero) = true.
Proof.
  intros H. destruct (Nat.lt_ge_cases i (length l)) as [Hi|Hi].
  - rewrite List.Forall_forall in H. apply H, nth_In, Hi.
  - rewrite nth_overflow by exact Hi. reflexivity.
Qed.

Lemma squared_differences_swap (va vb : list float) (l : list nat) :
  forall acc,
    fold_left
      (fun distance_squared dimension_index =>
         fadd distance_squared
              (fmul (fsub (nth dimension_index va fzero) (nth dimension_index vb fzero))
                    (fsub (nth dimension_index va fzero) (nth dimension_index vb fzero))))
      l acc
    = fold_left
        (fun distance_squared dimension_index =>
           fadd distance_squared
                (fmul (fsub (nth dimension_index vb fzero) (nth dimension_index va fzero))
                      (fsub (nth dimension_index vb fzero) (nth dimension_index va fzero))))
        l acc.
Proof.
  induction l as [|i l IH]; intros acc; simpl; [reflexivity|].
  rewrite (fmul_square _ _ (fsub_swap (nth i va fzero) (nth i vb fzero))).
  apply IH.
Qed.

Lemma calculate_euclidean_distance_swap (vector_a vector_b : Vector) :
  calculate_euclidean_distance vector_a vector_b
  = calculate_euclidean_distance vector_b vector_a.
Proof.
  unfold calculate_euclidean_distance.
  rewrite (Z.eqb_sym (len vector_b) (len vector_a)).
  destruct (len vector_a =? len vector_b) eqn:E; simpl; [|reflexivity].
  apply Z.eqb_eq in E. rewrite <- E. f_equal.
  apply squared_differences_swap.
Qed.

(** X1: the distance is symmetric in its two arguments: it is NaN in one
    order exactly when it is in the other, and when it is a number the two
    orders give the same number, rounding included.  (The model has one NaN;
    which NaN the hardware produces is not described.) *)
Theorem calculate_euclidean_distance_symmetric (vector_a vector_b : Vector) :
  valid_vector vector_a -> valid_vector vector_b ->
  is_nan (calculate_euclidean_distance vector_a vector_b)
  = is_nan (calculate_euclidean_distance vector_b vector_a)
  /\ (is_nan (calculate_euclidean_distance vector_a vector_b) = false ->
      calculate_euclidean_distance vector_a vector_b
      = calculate_euclidean_distance vector_b vector_a).
Proof.
  intros _ _. split.
  - f_equal. apply calculate_euclidean_distance_swap.
  - intros _. apply calculate_euclidean_distance_swap.
Qed.

Lemma calculate_euclidean_distance_symmetric_witness :
  is_nan (calculate_euclidean_distance (vector_of_ints [1; 2]) (vector_of_ints [4; 6]))
  = is_nan (calculate_euclidean_distance (vector_of_ints [4; 6]) (vector_of_ints [1; 2]))
  /\ calculate_euclidean_distance (vector_of_ints [1; 2]) (vector_of_ints [4; 6])
     = calculate_euclidean_distance (vector_of_ints [4; 6]) (vector_of_ints [1; 2]).
Proof.
  destruct (calculate_euclidean_distance_symmetric (vector_of_ints [1; 2])
              (vector_of_ints [4; 6])) as [Hnan Hsame]; [split; simpl; lia ..|].
  split; [exact Hnan | apply Hsame; reflexivity].
Defined.

(** X2: the distance never compares below zero, whatever the vectors
    hold. *)
Theorem calculate_euclidean_distance_not_negative (vector_a vector_b : Vector) :
  valid_vector vector_a -> valid_vector vector_b ->
  flt (calculate_euclidean_distance vector_a vector_b) fzero = false.
Proof.
  intros _ _. unfold calculate_euclidean_distance.
  destruct (negb (len vector_a =? len vector_b)).
  - vm_compute. reflexivity.
  - apply sqrtf_not_negative.
Qed.

Lemma calculate_euclidean_distance_not_negative_witness :
  flt (calculate_euclidean_distance (vector_of_ints [1; 2]) (vector_of_ints [4; 6])) fzero
  = false.
Proof.
  apply (calculate_euclidean_distance_not_negative (vector_of_ints [1; 2])
           (vector_of_ints [4; 6])); split; simpl; lia.
Defined.

(** X3: a vector whose coordinates are numbers (no infinity, no NaN) is at
    distance exactly [0.0f] from itself. *)
Theorem calculate_euclidean_distance_self (vector_a : Vector) :
  valid_vector vector_a ->
  Forall (fun x => is_number x = true) (data vector_a) ->
  calculate_euclidean_distance vector_a vector_a = fzero.
Proof.
  intros _ H. unfold calculate_euclidean_distance.
  rewrite Z.eqb_refl. simpl.
  assert (E : fold_left
                (fun distance_squared dimension_index =>
                   fadd distance_squared
                        (fmul (fsub (nth dimension_index (data vector_a) fzero)
                                    (nth dimension_index (data vector_a) fzero))
                              (fsub (nth dimension_index (data vector_a) fzero)
                                    (nth dimension_index (data vector_a) fzero))))
                (seq 0 (Z.to_nat (len vector_a))) fzero = fzero).
  { induction (seq 0 (Z.to_nat (len vector_a))) as [|i l IH]; simpl; [reflexivity|].
    rewrite (fsub_self _ (nth_is_number _ i H)). exact IH. }
  rewrite E. reflexivity.
Qed.

Lemma calculate_euclidean_distance_self_witness :
  calculate_euclidean_distance (vector_of_ints [3; -4; 0]) (vector_of_ints [3; -4; 0])
  = fzero.
Proof.
  apply (calculate_euclidean_distance_self (vector_of_ints [3; -4; 0])).
  - split; simpl; lia.
  - repeat constructor.
Defined.

(** * Layer sampling *)

Lemma determine_random_layer_from_counts RAND_MAX f tape :
  forall layer,
    match determine_random_layer_from RAND_MAX f tape layer with
    | Some (layer', rest) =>
        exists passed d,
          tape = passed ++ d :: rest
          /\ Forall (fun r => draw_passes RAND_MAX f r = true) passed
          /\ draw_passes RAND_MAX f d = false
          /\ layer' = layer + Z.of_nat (length passed)
    | None => Forall (fun r => draw_passes RAND_MAX f r = true) tape
    end.
Proof.
  induction tape as [|r tape IH]; intros layer; simpl.
  - apply List.Forall_nil.
  - destruct (flt (fdiv (float_of_int r) (float_of_int RAND_MAX)) f) eqn:E.
    + specialize (IH (layer + 1)).
      destruct (determine_random_layer_from RAND_MAX f tape (layer + 1)) as [[layer' rest]|].
      * destruct IH as (passed & d & -> & Hp & Hd & ->).
        exists (r :: passed), d. split; [reflexivity|].
        split; [apply List.Forall_cons; [exact E|exact Hp]|].
        split; [exact Hd|]. cbn [length]. lia.
      * apply List.Forall_cons; [exact E|exact IH].
    + exists [], r. split; [reflexivity|]. split; [apply List.Forall_nil|].
      split; [exact E|]. simpl. lia.
Qed.

(** X4: the sampled layer is the number of consecutive draws that pass the
    test [(float)rand() / RAND_MAX < level_generation_factor]; the call
    consumes these draws and the first one that fails, and does not return
    while every draw passes. *)
Theorem determine_random_layer_counts (RAND_MAX : Z) (level_generation_factor : float)
    (tape : list Z) :
  match determine_random_layer RAND_MAX level_generation_factor tape with
  | Some (layer, rest) =>
      exists passed d,
        tape = passed ++ d :: rest
        /\ Forall (fun r => draw_passes RAND_MAX level_generation_factor r = true) passed
        /\ draw_passes RAND_MAX level_generation_factor d = false
        /\ layer = Z.of_nat (length passed)
  | None => Forall (fun r => draw_passes RAND_MAX level_generation_factor r = true) tape
  end.
Proof.
  unfold determine_random_layer.
  pose proof (determine_random_layer_from_counts RAND_MAX level_generation_factor tape 0) as H.
  destruct (determine_random_layer_from RAND_MAX level_generation_factor tape 0)
    as [[layer rest]|]; [|exact H].
  destruct H as (passed & d & H1 & H2 & H3 & H4).
  exists passed, d. repeat split; auto.
Qed.

Lemma float_of_int_sign_clear (z : Z) : 0 <= z -> sign_clear (float_of_int z).
Proof.
  intros H. unfold float_of_int, binary_normalize.
  destruct z as [|p|p]; [reflexivity| |lia].
  unfold binary_round. destruct (shl_align _ _ _). apply binary_round_aux_sign_clear.
Qed.

Lemma fdiv_sign_clear (x y : float) : sign_clear x -> sign_clear y -> sign_clear (fdiv x y).
Proof.
  unfold fdiv.
  destruct x as [sx|sx| |sx mx ex], y as [sy|sy| |sy my ey]; simpl; auto;
    intros -> ->; simpl; auto.
  destruct (SFdiv_core_binary 24 128 (Z.pos mx) ex (Z.pos my) ey) as [[mz ez] lz].
  apply binary_round_aux_sign_clear.
Qed.

Lemma sign_clear_not_below (q f : float) :
  sign_clear q -> flt fzero f = false -> flt q f = false.
Proof.
  destruct q as [[]|[]| |[] mq eq], f as [[]|[]| |[] mf ef]; simpl;
    intros H1 H2; try discriminate; try reflexivity.
Qed.

(** X5: with a level factor that is not above zero (zero, negative or NaN)
    every call consumes one draw and returns layer 0. *)
Theorem determine_random_layer_flat (RAND_MAX : Z) (level_generation_factor : float)
    (r : Z) (tape : list Z) :
  0 <= r -> 0 <= RAND_MAX ->
  flt fzero level_generation_factor = false ->
  determine_random_layer RAND_MAX level_generation_factor (r :: tape) = Some (0, tape).
Proof.
  intros Hr HR Hf. unfold determine_random_layer. cbn [determine_random_layer_from].
  rewrite (sign_clear_not_below _ _
             (fdiv_sign_clear _ _ (float_of_int_sign_clear r Hr)
                              (float_of_int_sign_clear RAND_MAX HR)) Hf).
  reflexivity.
Qed.

Lemma determine_random_layer_flat_witness :
  determine_random_layer glibc_RAND_MAX fzero [5; 7] = Some (0, [7]).
Proof.
  apply (determine_random_layer_flat glibc_RAND_MAX fzero 5 [7]).
  - lia.
  - unfold glibc_RAND_MAX. lia.
  - reflexivity.
Defined.


(** * The priority queue as a container *)

Lemma insert_lookup_Permutation {A} (l : list A) (b : nat) (x y : A) :
  l !! b = Some y -> Permutation (y :: <[b := x]> l) (x :: l).
Proof.
  revert b. induction l as [|z l IH]; intros b H; [discriminate|].
  destruct b as [|b]; simpl in *.
  - injection H as ->. apply perm_swap.
  - eapply perm_trans; [apply perm_swap|].
    eapply perm_trans; [apply perm_skip, (IH b H)|]. apply perm_swap.
Qed.

Lemma swap_candidates_Permutation cs a b : Permutation (swap_candidates cs a b) cs.
Proof.
  unfold swap_candidates.
  destruct (cs !! a) as [ca|] eqn:Ea; [|reflexivity].
  destruct (cs !! b) as [cb|] eqn:Eb; [|reflexivity].
  apply Permutation_insert_swap; assumption.
Qed.

Lemma heapify_up_rec_Permutation m fuel :
  forall cs c, Permutation (heapify_up_rec fuel m cs c) cs.
Proof.
  induction fuel as [|fuel IH]; intros cs c; simpl; [reflexivity|].
  destruct (better m _ _); [|reflexivity].
  eapply perm_trans; [apply IH|apply swap_candidates_Permutation].
Qed.

Lemma heapify_down_rec_Permutation m fuel :
  forall cs p, Permutation (heapify_down_rec fuel m cs p) cs.
Proof.
  induction fuel as [|fuel IH]; intros cs p; [reflexivity|].
  cbn [heapify_down_rec]. cbv zeta.
  destruct (negb _); [|reflexivity].
  eapply perm_trans; [apply IH|apply swap_candidates_Permutation].
Qed.

Lemma numbers_insert_candidate queue id d :
  numbers (candidates queue) -> is_nan d = false ->
  numbers (candidates (insert_candidate queue id d)).
Proof.
  intros Hn Hd. unfold numbers in *. rewrite Forall_forall in *.
  intros x Hx. apply insert_candidate_sub in Hx. destruct Hx as [Hx| ->]; auto.
Qed.

(** X6: [insert_candidate] keeps a queue well formed: heap order for the
    queue's kind, no NaN key, at most [capacity] entries; capacity and kind
    are unchanged. *)
Theorem insert_candidate_keeps_queue_ok
    (queue : PriorityQueue) (id : Z) (d : float) :
  queue_ok queue ->
  is_nan d = false ->
  queue_ok (insert_candidate queue id d)
  /\ capacity (insert_candidate queue id d) = capacity queue
  /\ is_max_heap (insert_candidate queue id d) = is_max_heap queue.
Proof.
  intros (Hh & Hn & Hs) Hd.
  destruct (insert_candidate_fields queue id d) as [Hc Hm].
  split; [|split; assumption].
  unfold queue_ok. rewrite Hm, Hc. split; [|split].
  - apply insert_candidate_heap_ok; assumption.
  - apply numbers_insert_candidate; assumption.
  - unfold size in *. rewrite length_insert_candidate. unfold size.
    destruct (Z.of_nat (length (candidates queue)) <? capacity queue) eqn:E.
    + apply Z.ltb_lt in E. lia.
    + exact Hs.
Qed.

Lemma insert_candidate_keeps_queue_ok_witness :
  queue_ok (insert_candidate (create_priority_queue 2 true) 7 (float_of_int 3))
  /\ capacity (insert_candidate (create_priority_queue 2 true) 7 (float_of_int 3)) = 2
  /\ is_max_heap (insert_candidate (create_priority_queue 2 true) 7 (float_of_int 3)) = true.
Proof.
  apply (insert_candidate_keeps_queue_ok (create_priority_queue 2 true) 7 (float_of_int 3)).
  - split; [apply heap_ok_nil|]. split; [apply List.Forall_nil|]. unfold size. simpl. lia.
  - reflexivity.
Defined.

Lemma replace_root_Permutation m (root new : SearchCandidate) others :
  Permutation (heapify_down m (<[0%nat := new]> (root :: others)) 0) (new :: others).
Proof. unfold heapify_down. apply heapify_down_rec_Permutation. Qed.

Lemma insert_candidate_Permutation queue id d :
  Permutation (candidates (insert_candidate queue id d))
              ({| node_id := id; distance := d |} :: candidates queue)
  \/ (exists root others,
        candidates queue = root :: others
        /\ Permutation (candidates (insert_candidate queue id d))
                       ({| node_id := id; distance := d |} :: others))
  \/ candidates (insert_candidate queue id d) = candidates queue.
Proof.
  unfold insert_candidate.
  destruct (size queue <? capacity queue).
  - left. cbn [candidates with_candidates]. unfold heapify_up.
    eapply perm_trans; [apply heapify_up_rec_Permutation|].
    apply Permutation_sym, Permutation_cons_append.
  - destruct (candidates queue) as [|root others] eqn:Ec.
    + right. right.
      destruct (_ && _); [|destruct (_ && _)]; cbn [candidates with_candidates];
        rewrite ?Ec; reflexivity.
    + destruct (_ && _); [|destruct (_ && _)].
      * right. left. exists root, others. split; [reflexivity|].
        cbn [candidates with_candidates]. apply replace_root_Permutation.
      * right. left. exists root, others. split; [reflexivity|].
        cbn [candidates with_candidates]. apply replace_root_Permutation.
      * right. right. exact Ec.
Qed.

(** X7: what [insert_candidate] does to the stored entries.  Below capacity
    the new entry is added.  At capacity a max-heap replaces its root by
    the new entry when the new distance is strictly smaller, a min-heap
    replaces its root when the new distance is strictly larger, and in
    every other case the queue is left as it was. *)
Theorem insert_candidate_contents
    (queue : PriorityQueue) (id : Z) (d : float) :
  let new := {| node_id := id; distance := d |} in
  (size queue < capacity queue ->
   Permutation (candidates (insert_candidate queue id d))
               (new :: candidates queue))
  /\ (forall root others,
        candidates queue = root :: others ->
        capacity queue <= size queue ->
        if (if is_max_heap queue then flt d (distance root)
            else fgt d (distance root))
        then Permutation (candidates (insert_candidate queue id d))
                         (new :: others)
        else insert_candidate queue id d = queue).
Proof.
  intros new. split.
  - intros H. unfold insert_candidate.
    destruct (size queue <? capacity queue) eqn:E; [|apply Z.ltb_ge in E; lia].
    cbn [candidates with_candidates]. unfold heapify_up.
    eapply perm_trans; [apply heapify_up_rec_Permutation|].
    fold new. apply Permutation_sym, Permutation_cons_append.
  - intros root others Hc Hfull. unfold insert_candidate.
    destruct (size queue <? capacity queue) eqn:E; [apply Z.ltb_lt in E; lia|].
    rewrite Hc. unfold distance_at. cbn [lookup list_lookup].
    destruct (is_max_heap queue); cbn [andb negb].
    + destruct (flt d (distance root)).
      * cbn [candidates with_candidates]. apply replace_root_Permutation.
      * reflexivity.
    + destruct (fgt d (distance root)).
      * cbn [candidates with_candidates]. apply replace_root_Permutation.
      * reflexivity.
Qed.

Lemma insert_candidate_contents_witness :
  Permutation
    (candidates
       (insert_candidate
          {| candidates := [ {| node_id := 1; distance := float_of_int 2 |} ];
             capacity := 1; is_max_heap := false |}
          2 (float_of_int 5)))
    [ {| node_id := 2; distance := float_of_int 5 |} ].
Proof.
  destruct (insert_candidate_contents
              {| candidates := [ {| node_id := 1; distance := float_of_int 2 |} ];
                 capacity := 1; is_max_heap := false |}
              2 (float_of_int 5)) as [_ H].
  apply (H {| node_id := 1; distance := float_of_int 2 |} [] eq_refl).
  unfold size. simpl. lia.
Defined.

Lemma extract_top_candidate_Permutation queue top rest :
  extract_top_candidate queue = Some (top, rest) ->
  Permutation (candidates queue) (top :: candidates rest).
Proof.
  unfold extract_top_candidate.
  destruct (candidates queue) as [|first tl] eqn:Ec; [discriminate|].
  cbn [length]. rewrite Nat.sub_succ, Nat.sub_0_r.
  destruct (0 <? length tl)%nat eqn:E.
  - apply Nat.ltb_lt in E.
    destruct ((first :: tl) !! length tl) as [last_candidate|] eqn:El; [|discriminate].
    intros H. injection H as <- <-. cbn [candidates with_candidates].
    apply perm_skip.
    destruct (length tl) as [|n] eqn:En; [lia|].
    change ((first :: tl) !! S n) with (tl !! n) in El. cbn [take].
    change (<[0%nat := last_candidate]> (first :: take n tl)) with (last_candidate :: take n tl).
    eapply perm_trans; [|apply Permutation_sym; unfold heapify_down;
                         apply heapify_down_rec_Permutation].
    assert (Etl : tl = take n tl ++ [last_candidate]).
    { rewrite <- (take_drop n tl) at 1. f_equal.
      assert (Hd : length (drop n tl) = 1%nat) by (rewrite length_drop; lia).
      destruct (drop n tl) as [|z [|z' r]] eqn:Ed; try discriminate.
      pose proof (lookup_drop tl n 0) as L. rewrite Ed, Nat.add_0_r in L.
      simpl in L. rewrite El in L. injection L as ->. reflexivity. }
    rewrite Etl at 1. apply Permutation_sym, Permutation_cons_append.
  - apply Nat.ltb_ge in E. intros H. injection H as <- <-.
    cbn [candidates with_candidates].
    destruct tl; [reflexivity|simpl in E; lia].
Qed.

(** X8: on a well-formed, non-empty queue [extract_top_candidate] returns
    an entry that no stored entry beats (the closest of a min-heap, the
    farthest of a max-heap), removes exactly that entry, and leaves a
    well-formed queue of the same kind and capacity. *)
Theorem extract_top_candidate_best (queue : PriorityQueue) :
  queue_ok queue ->
  candidates queue <> [] ->
  exists top rest,
    extract_top_candidate queue = Some (top, rest)
    /\ Permutation (candidates queue) (top :: candidates rest)
    /\ (forall x, In x (candidates queue) ->
                  better (is_max_heap queue) (distance x) (distance top) = false)
    /\ queue_ok rest
    /\ capacity rest = capacity queue
    /\ is_max_heap rest = is_max_heap queue.
Proof.
  intros (Hh & Hn & Hs) Hne.
  destruct (extract_top_candidate_some queue Hne)
    as (top & rest & He & H0 & Hlen & Hsub & Hc & Hm & Hheap).
  exists top, rest. split; [exact He|].
  split; [apply extract_top_candidate_Permutation; exact He|].
  split.
  - intros x Hx. apply (heap_top_best (is_max_heap queue) (candidates queue)); auto.
    apply list_elem_of_In. exact Hx.
  - split; [|split; assumption].
    unfold queue_ok. rewrite Hm, Hc. split; [auto|]. split.
    + apply (numbers_sub (candidates queue)); assumption.
    + unfold size in *. lia.
Qed.

Lemma extract_top_candidate_best_witness :
  exists top rest,
    extract_top_candidate
      (insert_candidate (insert_candidate (create_priority_queue 4 false) 1 (float_of_int 5))
                        2 (float_of_int 3))
    = Some (top, rest)
    /\ Permutation
         (candidates
            (insert_candidate
               (insert_candidate (create_priority_queue 4 false) 1 (float_of_int 5))
               2 (float_of_int 3)))
         (top :: candidates rest)
    /\ (forall x,
          In x (candidates
                  (insert_candidate
                     (insert_candidate (create_priority_queue 4 false) 1 (float_of_int 5))
                     2 (float_of_int 3))) ->
          better false (distance x) (distance top) = false)
    /\ queue_ok rest
    /\ capacity rest = 4
    /\ is_max_heap rest = false.
Proof.
  apply (extract_top_candidate_best
           (insert_candidate
              (insert_candidate (create_priority_queue 4 false) 1 (float_of_int 5))
              2 (float_of_int 3))).
  - split; [|split].
    + intros i Hi. vm_compute in Hi. assert (i = 1%nat) as -> by lia. reflexivity.
    + repeat constructor.
    + vm_compute. discriminate.
  - discriminate.
Defined.


(** * Neighbor lists *)

Lemma existsb_eqb_In (id : Z) (l : list Z) : existsb (Z.eqb id) l = true <-> In id l.
Proof.
  rewrite existsb_exists. split.
  - intros (x & Hx & E). apply Z.eqb_eq in E. now subst.
  - intros H. exists id. split; [exact H|apply Z.eqb_refl].
Qed.

Lemma node_shape_add_connection node layer id :
  node_shape node -> node_shape (add_connection_to_node node layer id).
Proof.
  unfold node_shape, add_connection_to_node.
  destruct (layer >? maximum_layer node); [auto|].
  destruct (existsb _ _); [auto|]. cbn [maximum_layer layer_connections].
  now rewrite length_insert.
Qed.

Lemma add_connection_noop node layer id :
  (layer >? maximum_layer node) || existsb (Z.eqb id) (connections node layer) = true ->
  add_connection_to_node node layer id = node.
Proof.
  unfold add_connection_to_node.
  destruct (layer >? maximum_layer node); [reflexivity|].
  destruct (existsb _ _); [reflexivity|discriminate].
Qed.

(** X9: [add_connection_to_node] never stores a neighbor twice: lists
    without duplicates stay so, and repeating a call changes nothing. *)
Theorem add_connection_to_node_no_duplicates
    (node : HNSWNode) (layer connected_node_id : Z) :
  node_shape node ->
  0 <= layer ->
  (forall l, NoDup (connections node l)) ->
  (forall l, NoDup (connections (add_connection_to_node node layer connected_node_id) l))
  /\ add_connection_to_node (add_connection_to_node node layer connected_node_id)
                            layer connected_node_id
     = add_connection_to_node node layer connected_node_id.
Proof.
  intros [Hm Hlen] Hlayer Hnd. split.
  - intros l. rewrite connections_add_connection.
    destruct (layer >? maximum_layer node); [apply Hnd|]. cbn [orb].
    destruct (existsb _ _) eqn:E; [apply Hnd|].
    destruct (decide _) as [_|_]; [|apply Hnd].
    apply NoDup_app. split; [apply Hnd|]. split.
    + intros x Hx Hx'. apply list_elem_of_singleton in Hx'. subst x.
      apply list_elem_of_In, existsb_eqb_In in Hx. congruence.
    + apply NoDup_singleton.
  - destruct ((layer >? maximum_layer node)
              || existsb (Z.eqb connected_node_id) (connections node layer)) eqn:E.
    + now rewrite !(add_connection_noop node layer connected_node_id E).
    + apply add_connection_noop.
      rewrite maximum_layer_add_connection.
      apply orb_false_iff in E. destruct E as [Ea Eb]. rewrite Ea. cbn [orb].
      rewrite Z.gtb_ltb in Ea. apply Z.ltb_ge in Ea.
      apply existsb_eqb_In.
      apply add_connection_adds; lia.
Qed.

Lemma add_connection_to_node_no_duplicates_witness :
  (forall l, NoDup (connections
                      (add_connection_to_node (create_hnsw_node 0 1) 1 5) l))
  /\ add_connection_to_node (add_connection_to_node (create_hnsw_node 0 1) 1 5) 1 5
     = add_connection_to_node (create_hnsw_node 0 1) 1 5.
Proof.
  apply (add_connection_to_node_no_duplicates (create_hnsw_node 0 1) 1 5).
  - split; simpl; lia.
  - lia.
  - intros l. rewrite connections_create_hnsw_node. apply NoDup_nil_2.
Defined.

(** X10: a call above the node's top layer changes nothing; a call on one
    of its layers makes the id a neighbor on that layer and changes no
    other membership, nor the node's id, top layer or layout. *)
Theorem add_connection_to_node_membership
    (node : HNSWNode) (layer connected_node_id : Z) :
  (maximum_layer node < layer ->
   add_connection_to_node node layer connected_node_id = node)
  /\ (node_shape node ->
      0 <= layer <= maximum_layer node ->
      node_shape (add_connection_to_node node layer connected_node_id)
      /\ vector_id (add_connection_to_node node layer connected_node_id) = vector_id node
      /\ maximum_layer (add_connection_to_node node layer connected_node_id)
         = maximum_layer node
      /\ forall l x,
           0 <= l ->
           In x (connections (add_connection_to_node node layer connected_node_id) l)
           <-> In x (connections node l) \/ (l = layer /\ x = connected_node_id)).
Proof.
  split.
  - intros H. apply add_connection_noop.
    replace (layer >? maximum_layer node) with true; [reflexivity|].
    symmetry. rewrite Z.gtb_ltb. apply Z.ltb_lt. exact H.
  - intros Hs Hl. split; [apply node_shape_add_connection; exact Hs|].
    split.
    { unfold add_connection_to_node.
      destruct (layer >? maximum_layer node); [reflexivity|].
      destruct (existsb _ _); reflexivity. }
    split; [apply maximum_layer_add_connection|].
    intros l x H0. split.
    + intros H. apply add_connection_new in H. destruct H as [H|[E ->]]; [auto|].
      right. split; [lia|reflexivity].
    + intros [H|[-> ->]].
      * apply add_connection_keeps. exact H.
      * destruct Hs as [_ Hlen]. apply add_connection_adds; lia.
Qed.

Lemma add_connection_to_node_membership_witness :
  add_connection_to_node (create_hnsw_node 3 0) 1 5 = create_hnsw_node 3 0
  /\ In 5 (connections (add_connection_to_node (create_hnsw_node 3 0) 0 5) 0).
Proof.
  destruct (add_connection_to_node_membership (create_hnsw_node 3 0) 1 5) as [H _].
  split; [apply H; simpl; lia|].
  destruct (add_connection_to_node_membership (create_hnsw_node 3 0) 0 5) as [_ H'].
  destruct H' as (_ & _ & _ & Hin).
  - split; simpl; lia.
  - simpl. lia.
  - apply Hin; [lia|]. right. split; reflexivity.
Defined.

(** * Steps of the construction *)

Lemma greedy_scan (vs : list Vector) (cv : Vector) (neighbors : list Z) :
  forall best cur seen,
    best = calculate_euclidean_distance cv (vector_at vs cur) ->
    In cur seen ->
    Forall (fun p => flt (calculate_euclidean_distance cv (vector_at vs p)) best = false)
           seen ->
    let r :=
      snd (fold_left
             (fun '(best_distance, current_search_node) neighbor_id =>
                let neighbor_distance :=
                  calculate_euclidean_distance cv (vector_at vs neighbor_id) in
                if flt neighbor_distance best_distance
                then (neighbor_distance, neighbor_id)
                else (best_distance, current_search_node))
             neighbors (best, cur)) in
    In r (seen ++ neighbors)
    /\ Forall (fun p => flt (calculate_euclidean_distance cv (vector_at vs p))
                            (calculate_euclidean_distance cv (vector_at vs r)) = false)
              (seen ++ neighbors).
Proof.
  induction neighbors as [|nb neighbors IH]; intros best cur seen Hb Hc Hs; cbn [fold_left].
  - cbn [snd]. rewrite app_nil_r. subst best. auto.
  - replace (seen ++ nb :: neighbors) with ((seen ++ [nb]) ++ neighbors)
      by (rewrite <- app_assoc; reflexivity).
    cbv zeta.
    destruct (flt (calculate_euclidean_distance cv (vector_at vs nb)) best) eqn:E.
    + apply IH; [reflexivity| |].
      * apply in_or_app. right. left. reflexivity.
      * apply Forall_app. split.
        -- eapply List.Forall_impl; [|exact Hs]. cbv beta. intros p Hp.
           destruct (flt (calculate_euclidean_distance cv (vector_at vs p))
                         (calculate_euclidean_distance cv (vector_at vs nb))) eqn:E';
             [|reflexivity].
           rewrite (flt_trans _ _ _ E' E) in Hp. discriminate.
        -- apply List.Forall_cons; [apply flt_irrefl|apply List.Forall_nil].
    + apply IH; [exact Hb| |].
      * apply in_or_app. left. exact Hc.
      * apply Forall_app. split; [exact Hs|].
        apply List.Forall_cons; [exact E|apply List.Forall_nil].
Qed.

(** X11: one layer of the greedy descent returns the current node or one
    of its neighbors on that layer, and none of these compares strictly
    closer to the new vector than the node returned. *)
Theorem greedy_step_closest (graph : HNSWGraph) (vectors : list Vector)
    (current_vector : Vector) (current_search_node search_layer : Z) :
  let reachable :=
    current_search_node
    :: (if search_layer <=? maximum_layer (node_at (nodes graph) current_search_node)
        then connections (node_at (nodes graph) current_search_node) search_layer
        else []) in
  let next :=
    greedy_step graph vectors current_vector current_search_node search_layer in
  In next reachable
  /\ Forall
       (fun p =>
          flt (calculate_euclidean_distance current_vector (vector_at vectors p))
              (calculate_euclidean_distance current_vector (vector_at vectors next))
          = false)
       reachable.
Proof.
  cbv zeta. unfold greedy_step.
  destruct (search_layer <=? maximum_layer (node_at (nodes graph) current_search_node)).
  - apply (greedy_scan vectors current_vector
             (connections (node_at (nodes graph) current_search_node) search_layer)
             _ current_search_node [current_search_node]).
    + reflexivity.
    + left. reflexivity.
    + apply List.Forall_cons; [apply flt_irrefl|apply List.Forall_nil].
  - split; [left; reflexivity|].
    apply List.Forall_cons; [apply flt_irrefl|apply List.Forall_nil].
Qed.

Lemma select_connections_fold (max_conn : Z) (candidates_array : list SearchCandidate) :
  forall selected,
    NoDup selected ->
    Z.of_nat (length selected) <= Z.max 0 max_conn ->
    let result :=
      fold_left
        (fun selected_connections sc =>
           if Z.of_nat (length selected_connections) <? max_conn then
             if existsb (Z.eqb (node_id sc)) selected_connections
             then selected_connections
             else selected_connections ++ [node_id sc]
           else selected_connections)
        candidates_array selected in
    NoDup result
    /\ Z.of_nat (length result) <= Z.max 0 max_conn
    /\ (forall id, In id result ->
                   In id selected \/ In id (map node_id candidates_array))
    /\ (forall id, In id selected -> In id result)
    /\ (length selected <= length result)%nat
    /\ (Z.of_nat (length result) < max_conn ->
        forall id, In id (map node_id candidates_array) -> In id result).
Proof.
  induction candidates_array as [|sc rest IH]; intros selected Hnd Hlen; cbn [fold_left].
  - cbv zeta. split; [exact Hnd|]. split; [exact Hlen|].
    split; [auto|]. split; [auto|]. split; [lia|]. intros _ id [].
  - cbv zeta.
    destruct (Z.of_nat (length selected) <? max_conn) eqn:E.
    + apply Z.ltb_lt in E.
      destruct (existsb (Z.eqb (node_id sc)) selected) eqn:Ex.
      * destruct (IH selected Hnd Hlen) as (H1 & H2 & H3 & H4 & H6 & H5).
        split; [exact H1|]. split; [exact H2|].
        split; [|split; [exact H4|split; [exact H6|]]].
        -- intros id Hid. destruct (H3 id Hid); [auto|]. right. right. assumption.
        -- intros Hlt id [<-|Hid]; [|apply H5; assumption].
           apply H4, existsb_eqb_In. exact Ex.
      * assert (Hnd' : NoDup (selected ++ [node_id sc])).
        { apply NoDup_app. split; [exact Hnd|]. split; [|apply NoDup_singleton].
          intros x Hx Hx'. apply list_elem_of_singleton in Hx'. subst x.
          apply list_elem_of_In, existsb_eqb_In in Hx. congruence. }
        assert (Hlen' : Z.of_nat (length (selected ++ [node_id sc])) <= Z.max 0 max_conn).
        { rewrite length_app. cbn [length]. lia. }
        destruct (IH _ Hnd' Hlen') as (H1 & H2 & H3 & H4 & H6 & H5).
        split; [exact H1|]. split; [exact H2|]. split; [|split; [|split]].
        -- intros id Hid. destruct (H3 id Hid) as [Hin|Hin].
           ++ apply in_app_or in Hin. destruct Hin as [Hin|[<-|[]]]; [auto|].
              right. left. reflexivity.
           ++ right. right. exact Hin.
        -- intros id Hid. apply H4, in_or_app. left. exact Hid.
        -- rewrite length_app in H6. cbn [length] in H6. lia.
        -- intros Hlt id [<-|Hid]; [|apply H5; assumption].
           apply H4, in_or_app. right. left. reflexivity.
    + apply Z.ltb_ge in E.
      destruct (IH selected Hnd Hlen) as (H1 & H2 & H3 & H4 & H6 & H5).
      split; [exact H1|]. split; [exact H2|].
      split; [|split; [exact H4|split; [exact H6|]]].
      * intros id Hid. destruct (H3 id Hid); [auto|]. right. right. assumption.
      * intros Hlt. exfalso. lia.
Qed.

(** X12: the selection step returns ids of the candidates it is given,
    each at most once and at most [max_conn] of them; while fewer than
    [max_conn] are selected no candidate id is left out. *)
Theorem select_connections_distinct
    (candidates_array : list SearchCandidate) (max_conn : Z) :
  NoDup (select_connections candidates_array max_conn)
  /\ Z.of_nat (length (select_connections candidates_array max_conn)) <= Z.max 0 max_conn
  /\ (forall id, In id (select_connections candidates_array max_conn) ->
                 In id (map node_id candidates_array))
  /\ (Z.of_nat (length (select_connections candidates_array max_conn)) < max_conn ->
      forall id, In id (map node_id candidates_array) ->
                 In id (select_connections candidates_array max_conn)).
Proof.
  unfold select_connections.
  destruct (select_connections_fold max_conn candidates_array [])
    as (H1 & H2 & H3 & _ & _ & H5).
  - apply NoDup_nil_2.
  - simpl. lia.
  - split; [exact H1|]. split; [exact H2|]. split; [|exact H5].
    intros id Hid. destruct (H3 id Hid) as [[]|H]. exact H.
Qed.

(** * The header of a built graph *)

Lemma determine_random_layer_range RAND_MAX lf tape layer tape' :
  determine_random_layer RAND_MAX lf tape = Some (layer, tape') ->
  0 <= layer < Z.of_nat (length tape) /\ (length tape' <= length tape)%nat.
Proof.
  intros H. unfold determine_random_layer in H.
  pose proof (determine_random_layer_from_counts RAND_MAX lf tape 0) as C.
  rewrite H in C. destruct C as (passed & d & -> & _ & _ & ->).
  rewrite length_app. cbn [length]. lia.
Qed.

Lemma sampled_ok_step bound graph node_layer :
  sampled_ok bound graph ->
  0 <= node_layer <= bound ->
  let vector_index := Z.of_nat (length (nodes graph)) in
  let ns := nodes graph ++ [create_hnsw_node vector_index node_layer] in
  let graph' :=
    if node_layer >? maximum_layer_in_graph graph then
      {| nodes := ns;
         original_vectors := original_vectors graph;
         node_count := node_count graph;
         entry_point_node_id := vector_index;
         maximum_layer_in_graph := node_layer;
         max_connections_per_node := max_connections_per_node graph;
         max_connections_layer_zero := max_connections_layer_zero graph;
         level_generation_factor := level_generation_factor graph;
         construction_search_width := construction_search_width graph |}
    else set_nodes graph ns in
  sampled_ok bound graph' /\ same_parameters graph graph' /\ nodes graph' = ns.
Proof.
  intros (Hn & Hmax & Hempty & Hentry) Hl vector_index ns graph'.
  assert (Hnew : ns !! length (nodes graph)
                 = Some (create_hnsw_node vector_index node_layer)).
  { unfold ns. rewrite lookup_app_r by lia. now rewrite Nat.sub_diag. }
  assert (Hold : forall i, (i < length (nodes graph))%nat -> ns !! i = nodes graph !! i).
  { intros i Hi. unfold ns. now rewrite lookup_app_l. }
  assert (Hcases : forall i node, ns !! i = Some node ->
             ((i < length (nodes graph))%nat /\ nodes graph !! i = Some node)
             \/ (i = length (nodes graph)
                 /\ node = create_hnsw_node vector_index node_layer)).
  { intros i node H. destruct (Nat.lt_ge_cases i (length (nodes graph))) as [Hi|Hi].
    - left. split; [exact Hi|]. now rewrite <- Hold.
    - right. pose proof (lookup_lt_Some _ _ _ H) as Hlt.
      unfold ns in Hlt. rewrite length_app in Hlt. cbn [length] in Hlt.
      assert (i = length (nodes graph)) as -> by lia.
      split; [reflexivity|]. rewrite Hnew in H. now injection H. }
  assert (Hentry_lt : nodes graph <> [] ->
             0 <= entry_point_node_id graph < Z.of_nat (length (nodes graph))).
  { intros Hne. destruct (Hentry Hne) as (node & H0 & Hlk & _).
    apply lookup_lt_Some in Hlk. lia. }
  assert (Hns : ns <> []) by (unfold ns; intros E; apply app_eq_nil in E; destruct E; discriminate).
  subst graph'.
  destruct (node_layer >? maximum_layer_in_graph graph) eqn:E.
  - rewrite Z.gtb_ltb in E. apply Z.ltb_lt in E.
    split; [|split; [repeat split|reflexivity]].
    unfold sampled_ok. cbn [nodes entry_point_node_id maximum_layer_in_graph].
    split; [|split; [lia|split; [intros; contradiction|]]].
    + intros i node H. destruct (Hcases i node H) as [[Hi Hlk]|[-> ->]].
      * destruct (Hn i node Hlk) as (H1 & H2 & H3 & _).
        split; [exact H1|]. split; [exact H2|]. split; [lia|]. intros _. lia.
      * cbn [maximum_layer create_hnsw_node]. split; [reflexivity|].
        split; [exact Hl|]. split; [lia|]. unfold vector_index. lia.
    + intros _. exists (create_hnsw_node vector_index node_layer).
      split; [unfold vector_index; lia|]. split; [|reflexivity].
      unfold vector_index. rewrite Nat2Z.id. exact Hnew.
  - rewrite Z.gtb_ltb in E. apply Z.ltb_ge in E.
    split; [|split; [repeat split|reflexivity]].
    unfold sampled_ok, set_nodes.
    cbn [nodes entry_point_node_id maximum_layer_in_graph].
    split; [|split; [lia|split; [intros; contradiction|]]].
    + intros i node H. destruct (Hcases i node H) as [[Hi Hlk]|[-> ->]].
      * apply (Hn i node Hlk).
      * cbn [maximum_layer create_hnsw_node]. split; [reflexivity|].
        split; [exact Hl|]. split; [lia|]. intros Hlt. exfalso.
        destruct (nodes graph) as [|n0 ns0] eqn:En.
        -- destruct (Hempty eq_refl) as [He _]. simpl in Hlt. lia.
        -- assert (Hne : n0 :: ns0 <> []) by discriminate.
           specialize (Hentry_lt Hne). lia.
    + intros _. destruct (nodes graph) as [|n0 ns0] eqn:En.
      * destruct (Hempty eq_refl) as [He Hm].
        exists (create_hnsw_node vector_index node_layer).
        split; [lia|]. rewrite He. split; [exact Hnew|].
        cbn [maximum_layer create_hnsw_node]. lia.
      * assert (Hne : n0 :: ns0 <> []) by discriminate.
        destruct (Hentry Hne) as (node & H0 & Hlk & Hm).
        exists node. split; [exact H0|]. split; [|exact Hm].
        rewrite Hold; [exact Hlk|]. specialize (Hentry_lt Hne). lia.
Qed.

Lemma same_parameters_trans g1 g2 g3 :
  same_parameters g1 g2 -> same_parameters g2 g3 -> same_parameters g1 g3.
Proof.
  unfold same_parameters. intros (A1 & A2 & A3 & A4 & A5 & A6) (B1 & B2 & B3 & B4 & B5 & B6).
  repeat split; congruence.
Qed.

Lemma initialize_nodes_sampled RAND_MAX lf bound remaining :
  forall vector_index tape graph graph',
    initialize_nodes RAND_MAX lf remaining vector_index tape graph = Some graph' ->
    vector_index = Z.of_nat (length (nodes graph)) ->
    Z.of_nat (length tape) <= bound ->
    sampled_ok bound graph ->
    sampled_ok bound graph' /\ same_parameters graph graph'
    /\ length (nodes graph') = (length (nodes graph) + remaining)%nat.
Proof.
  induction remaining as [|remaining IH]; intros vector_index tape graph graph' H Hv Ht Hok;
    cbn [initialize_nodes] in H.
  - injection H as <-. split; [exact Hok|]. split; [repeat split|lia].
  - destruct (determine_random_layer RAND_MAX lf tape) as [[node_layer tape']|] eqn:Ed;
      [|discriminate].
    destruct (determine_random_layer_range _ _ _ _ _ Ed) as [Hl Ht'].
    subst vector_index.
    destruct (sampled_ok_step bound graph node_layer Hok ltac:(lia)) as (Hok' & Hp & Hns).
    cbv zeta in Hok', Hp, Hns.
    apply IH in H; [| |lia|exact Hok'].
    + destruct H as (H1 & H2 & H3). split; [exact H1|].
      split; [exact (same_parameters_trans _ _ _ Hp H2)|].
      rewrite H3, Hns, length_app. cbn [length]. lia.
    + rewrite Hns, length_app. cbn [length]. lia.
Qed.

Lemma sampled_ok_allocate bound vs N M M0 lf efC :
  sampled_ok bound (allocate_graph vs N M M0 lf efC).
Proof.
  unfold sampled_ok, allocate_graph. cbn.
  split; [intros i node H; discriminate|]. split; [lia|].
  split; [auto|]. intros H. contradiction.
Qed.

Lemma build_hnsw_graph_sampled fuel RAND_MAX tape vs N M M0 lf efC graph :
  1 <= N ->
  build_hnsw_graph fuel RAND_MAX tape vs N M M0 lf efC = Some graph ->
  sampled_ok (Z.of_nat (length tape)) graph
  /\ same_parameters (allocate_graph vs N M M0 lf efC) graph
  /\ Z.of_nat (length (nodes graph)) = N.
Proof.
  unfold build_hnsw_graph, build_hnsw_graph_logged. intros HN H.
  destruct (initialize_nodes _ _ _ _ _ _) as [g0|] eqn:E0; [|discriminate].
  destruct (insertion_loop _ _ _ _ _ _ _ _) as [[g1 log]|] eqn:E1; [|discriminate].
  simpl in H. injection H as <-.
  apply insertion_loop_spec in E1; [|lia]. destruct E1 as [-> _].
  apply (initialize_nodes_sampled _ _ (Z.of_nat (length tape))) in E0;
    [|reflexivity|lia|apply sampled_ok_allocate].
  destruct E0 as (H1 & H2 & H3). split; [exact H1|]. split; [exact H2|].
  rewrite H3. cbn [allocate_graph nodes length]. lia.
Qed.

Lemma node_at_lookup ns id node :
  0 <= id -> ns !! Z.to_nat id = Some node -> node_at ns id = node.
Proof. intros _ H. unfold node_at. rewrite nth_lookup, H. reflexivity. Qed.

Lemma lookup_node_at ns id :
  0 <= id < Z.of_nat (length ns) -> ns !! Z.to_nat id = Some (node_at ns id).
Proof.
  intros H. destruct (lookup_lt_is_Some_2 ns (Z.to_nat id) ltac:(lia)) as [node Hn].
  rewrite Hn. f_equal. symmetry. apply node_at_lookup; [lia|exact Hn].
Qed.

(** X13: in a built graph the entry point is the first node that reaches
    the graph's top layer: its top layer is [maximum_layer_in_graph], no
    node lies higher, and every node before it lies strictly lower. *)
Theorem build_hnsw_graph_entry_point
    (fuel : nat) (RAND_MAX : Z) (tape : list Z) (vs : list Vector)
    (N M M0 : Z) (lf : float) (efC : Z) (graph : HNSWGraph) :
  1 <= N ->
  build_hnsw_graph fuel RAND_MAX tape vs N M M0 lf efC = Some graph ->
  0 <= entry_point_node_id graph < N
  /\ maximum_layer (node_at (nodes graph) (entry_point_node_id graph))
     = maximum_layer_in_graph graph
  /\ (forall i, 0 <= i < N ->
                0 <= maximum_layer (node_at (nodes graph) i)
                     <= maximum_layer_in_graph graph)
  /\ (forall i, 0 <= i < entry_point_node_id graph ->
                maximum_layer (node_at (nodes graph) i) < maximum_layer_in_graph graph).
Proof.
  intros HN H.
  destruct (build_hnsw_graph_sampled _ _ _ _ _ _ _ _ _ _ HN H)
    as ((Hn & Hmax & _ & Hentry) & _ & Hlen).
  assert (Hne : nodes graph <> []).
  { intros E. rewrite E in Hlen. simpl in Hlen. lia. }
  destruct (Hentry Hne) as (node & H0 & Hlk & Hm).
  pose proof (lookup_lt_Some _ _ _ Hlk) as Hlt.
  split; [lia|]. split; [|split].
  - rewrite (node_at_lookup _ _ _ H0 Hlk). exact Hm.
  - intros i Hi.
    pose proof (lookup_node_at (nodes graph) i ltac:(lia)) as Hi'.
    destruct (Hn _ _ Hi') as (_ & H2 & H3 & _). lia.
  - intros i Hi.
    pose proof (lookup_node_at (nodes graph) i ltac:(lia)) as Hi'.
    destruct (Hn _ _ Hi') as (_ & _ & _ & H4). apply H4. lia.
Qed.

Lemma build_hnsw_graph_entry_point_witness :
  exists graph,
    build_hnsw_graph 2 glibc_RAND_MAX four_draws four_points 4 16 32 one_half 32
    = Some graph
    /\ entry_point_node_id graph = 1
    /\ maximum_layer (node_at (nodes graph) (entry_point_node_id graph))
       = maximum_layer_in_graph graph
    /\ (forall i, 0 <= i < entry_point_node_id graph ->
                  maximum_layer (node_at (nodes graph) i) < maximum_layer_in_graph graph).
Proof.
  destruct (build_hnsw_graph 2 glibc_RAND_MAX four_draws four_points 4 16 32 one_half 32)
    as [graph|] eqn:E; [|vm_compute in E; discriminate].
  exists graph. split; [reflexivity|].
  destruct (build_hnsw_graph_entry_point 2 glibc_RAND_MAX four_draws four_points
              4 16 32 one_half 32 graph ltac:(lia) E) as (_ & H2 & _ & H4).
  split; [|split; [exact H2|exact H4]].
  vm_compute in E. injection E as <-. reflexivity.
Defined.

Lemma build_hnsw_graph_nodes fuel RAND_MAX tape vs N M M0 lf efC graph :
  1 <= N <= INT_MAX ->
  Z.of_nat (length tape) <= INT_MAX ->
  build_hnsw_graph fuel RAND_MAX tape vs N M M0 lf efC = Some graph ->
  wf_graph graph
  /\ node_count graph = N
  /\ Forall (fun node => layer_connections node
                         = repeat [] (Z.to_nat (maximum_layer node + 1)))
            (nodes graph).
Proof.
  intros HN Ht H.
  destruct (build_hnsw_graph_sampled _ _ _ _ _ _ _ _ _ _ (proj1 HN) H)
    as ((Hn & _) & (_ & P2 & _) & Hlen).
  cbn [allocate_graph node_count] in P2.
  split; [|split; [exact P2|]].
  - unfold wf_graph. split; [lia|]. split; [lia|].
    apply List.Forall_forall. intros node Hin.
    apply list_elem_of_In, list_elem_of_lookup in Hin. destruct Hin as [i Hi].
    destruct (Hn i node Hi) as (Hc & Hr & _).
    unfold wf_node. split; [lia|]. rewrite Hc.
    cbn [layer_connections create_hnsw_node maximum_layer]. rewrite repeat_length.
    split; [lia|]. apply Forall_repeat_same. apply List.Forall_nil.
  - apply List.Forall_forall. intros node Hin.
    apply list_elem_of_In, list_elem_of_lookup in Hin. destruct Hin as [i Hi].
    destruct (Hn i node Hi) as (Hc & _). rewrite Hc at 1. reflexivity.
Qed.

(** X14: a built graph records its arguments in the header, numbers its
    nodes by vector index, and is well formed in the sense the serializer
    relies on: [node_count] nodes, each with a non-negative top layer and
    one neighbor list per layer. *)
Theorem build_hnsw_graph_well_formed
    (fuel : nat) (RAND_MAX : Z) (tape : list Z) (vs : list Vector)
    (N M M0 : Z) (lf : float) (efC : Z) (graph : HNSWGraph) :
  1 <= N <= INT_MAX ->
  Z.of_nat (length tape) <= INT_MAX ->
  build_hnsw_graph fuel RAND_MAX tape vs N M M0 lf efC = Some graph ->
  wf_graph graph
  /\ node_count graph = N
  /\ original_vectors graph = vs
  /\ max_connections_per_node graph = M
  /\ max_connections_layer_zero graph = M0
  /\ level_generation_factor graph = lf
  /\ construction_search_width graph = efC
  /\ (forall i, 0 <= i < N -> vector_id (node_at (nodes graph) i) = i).
Proof.
  intros HN Ht H.
  destruct (build_hnsw_graph_sampled _ _ _ _ _ _ _ _ _ _ (proj1 HN) H)
    as ((Hn & _) & (P1 & P2 & P3 & P4 & P5 & P6) & Hlen).
  cbn [allocate_graph original_vectors node_count max_connections_per_node
       max_connections_layer_zero level_generation_factor
       construction_search_width] in P1, P2, P3, P4, P5, P6.
  split; [|repeat split; try assumption].
  - unfold wf_graph. split; [lia|]. split; [lia|].
    apply List.Forall_forall. intros node Hin.
    apply list_elem_of_In, list_elem_of_lookup in Hin. destruct Hin as [i Hi].
    destruct (Hn i node Hi) as (Hc & Hr & _).
    unfold wf_node. split; [lia|]. rewrite Hc.
    cbn [layer_connections create_hnsw_node maximum_layer]. rewrite repeat_length.
    split; [lia|]. apply Forall_repeat_same. apply List.Forall_nil.
  - intros i Hi.
    pose proof (lookup_node_at (nodes graph) i ltac:(lia)) as Hi'.
    destruct (Hn _ _ Hi') as (Hc & _). rewrite Hc. cbn [vector_id create_hnsw_node]. lia.
Qed.

Lemma build_hnsw_graph_well_formed_witness :
  exists graph,
    build_hnsw_graph 2 glibc_RAND_MAX four_draws four_points 4 16 32 one_half 32
    = Some graph
    /\ wf_graph graph
    /\ node_count graph = 4
    /\ original_vectors graph = four_points
    /\ max_connections_per_node graph = 16
    /\ max_connections_layer_zero graph = 32
    /\ level_generation_factor graph = one_half
    /\ construction_search_width graph = 32
    /\ (forall i, 0 <= i < 4 -> vector_id (node_at (nodes graph) i) = i).
Proof.
  destruct (build_hnsw_graph 2 glibc_RAND_MAX four_draws four_points 4 16 32 one_half 32)
    as [graph|] eqn:E; [|vm_compute in E; discriminate].
  exists graph. split; [reflexivity|].
  apply (build_hnsw_graph_well_formed 2 glibc_RAND_MAX four_draws four_points
           4 16 32 one_half 32 graph).
  - unfold INT_MAX. lia.
  - unfold INT_MAX. simpl. lia.
  - exact E.
Defined.


(** * No node is reported twice *)

Lemma NoDup_insert_candidate queue id d :
  NoDup (map node_id (candidates queue)) ->
  ~ In id (map node_id (candidates queue)) ->
  NoDup (map node_id (candidates (insert_candidate queue id d))).
Proof.
  intros Hnd Hnew.
  destruct (insert_candidate_Permutation queue id d) as [P | [(root & others & E & P) | E]].
  - rewrite P. cbn [map node_id]. apply NoDup_cons_2; [|exact Hnd].
    intros H. apply Hnew, list_elem_of_In. exact H.
  - rewrite P. rewrite E in Hnd, Hnew. cbn [map node_id] in *.
    apply NoDup_cons in Hnd. destruct Hnd as [_ Hnd].
    apply NoDup_cons_2; [|exact Hnd].
    intros H. apply Hnew. right. apply list_elem_of_In. exact H.
  - now rewrite E.
Qed.

Lemma drain_results_Permutation count :
  forall visited results,
    length (candidates visited) = count ->
    Permutation (drain_results count visited results)
                (map node_id (candidates visited) ++ results).
Proof.
  induction count as [|count IH]; intros visited results Hlen; cbn [drain_results].
  - destruct (candidates visited); [reflexivity|discriminate].
  - destruct (extract_top_candidate_some visited) as (top & rest & He & _ & Hl & _).
    { intros E. rewrite E in Hlen. discriminate. }
    rewrite He. eapply perm_trans; [apply IH; lia|].
    eapply perm_trans; [apply Permutation_sym, Permutation_middle|].
    apply Permutation_sym.
    apply (Permutation_app_tail results
             (Permutation_map node_id (extract_top_candidate_Permutation _ _ _ He))).
Qed.

Section Distinct.
Variables (graph : HNSWGraph) (query : Vector) (layer ef : Z).
Hypothesis wf : wf_search_graph graph.
Hypothesis ef_range : 1 <= ef < 1073741824.
Hypothesis no_nan :
  forall id, 0 <= id < node_count graph -> is_nan (distance_to graph query id) = false.

Lemma search_layer_visit_distinct st neighbor_id :
  covers graph query ef st -> distinct_ids st ->
  distinct_ids (search_layer_visit graph query ef st neighbor_id).
Proof.
  intros [J1 _] Hnd. unfold search_layer_visit, distinct_ids in *.
  destruct (flag_at (st_flags st) neighbor_id) eqn:Ef; [exact Hnd|].
  destruct (_ || _); cbn [st_visited]; [|exact Hnd].
  apply NoDup_insert_candidate; [exact Hnd|].
  intros Hin. apply in_map_iff in Hin. destruct Hin as (c & Hc & Hin).
  apply list_elem_of_In in Hin. destruct (J1 c Hin) as [Hf _].
  rewrite Hc in Hf. congruence.
Qed.

Lemma search_layer_visit_fold_distinct neighbors :
  forall st,
    Forall (fun id => 0 <= id < node_count graph) neighbors ->
    loop_inv graph query ef st -> covers graph query ef st -> distinct_ids st ->
    distinct_ids (fold_left (search_layer_visit graph query ef) neighbors st).
Proof.
  induction neighbors as [|id neighbors IH]; intros st Hids Hinv Hcov Hnd; cbn [fold_left].
  - exact Hnd.
  - inversion Hids as [|? ? Hid Hids']; subst.
    apply IH; [assumption | | |].
    + now apply (search_layer_visit_inv graph query ef ef_range no_nan).
    + now apply (search_layer_visit_covers graph query ef ef_range).
    + now apply search_layer_visit_distinct.
Qed.

Lemma search_layer_loop_distinct fuel :
  forall st st',
    search_layer_loop fuel graph query layer ef st = Some st' ->
    loop_inv graph query ef st -> covers graph query ef st -> distinct_ids st ->
    distinct_ids st'.
Proof.
  induction fuel as [|fuel IH]; intros st st' H Hinv Hcov Hnd; [discriminate|].
  cbn [search_layer_loop] in H.
  destruct (0 <? size (st_candidates st)); [|injection H as <-; auto].
  destruct (extract_top_candidate (st_candidates st)) as [[current rest]|]; [|discriminate].
  cbn [st_visited st_flags st_candidates] in H.
  set (st1 := {| st_candidates := rest; st_visited := st_visited st;
                 st_flags := st_flags st |}) in *.
  assert (Hinv1 : loop_inv graph query ef st1) by exact Hinv.
  assert (Hcov1 : covers graph query ef st1) by exact Hcov.
  assert (Hnd1 : distinct_ids st1) by exact Hnd.
  destruct (_ && _); [injection H as <-; auto|].
  destruct (layer <=? maximum_layer (node_at (nodes graph) (node_id current))).
  - apply IH in H; [exact H | | |].
    + apply (search_layer_visit_fold graph query ef ef_range no_nan);
        [apply (connections_in_range graph layer wf) | exact Hinv1].
    + apply (search_layer_visit_fold_covers graph query ef ef_range no_nan);
        [apply (connections_in_range graph layer wf) | exact Hinv1 | exact Hcov1].
    + apply search_layer_visit_fold_distinct;
        [apply (connections_in_range graph layer wf) | exact Hinv1 | exact Hcov1
         | exact Hnd1].
  - apply IH in H; assumption.
Qed.

(** What one call of [search_layer] returns, as its callers use it. *)
Lemma search_layer_summary entry_point :
  0 <= entry_point < node_count graph ->
  exists results,
    search_layer graph query entry_point layer ef = Some results
    /\ 1 <= Z.of_nat (length results) <= 2 * ef
    /\ closest_first graph query results
    /\ NoDup results
    /\ (forall r, In r results -> 0 <= r < node_count graph).
Proof.
  intros Hentry.
  destruct (search_layer_results graph query layer ef wf ef_range no_nan entry_point Hentry)
    as (final & results & Hfinal & Hinv & Hres & Hdrain & Hlen & Hsorted).
  exists results.
  split; [exact Hres|]. split; [exact Hlen|]. split; [exact Hsorted|].
  rewrite (search_layer_final_unfold graph query layer ef ef_range) in Hfinal.
  destruct (search_layer_initial graph query ef ef_range no_nan entry_point Hentry)
    as [Hinv0 _].
  pose proof (search_layer_initial_covers graph query ef entry_point ltac:(lia) Hentry)
    as Hcov0.
  assert (Hnd0 : distinct_ids
                   {| st_candidates :=
                        insert_candidate (create_priority_queue ef false) entry_point
                                         (distance_to graph query entry_point);
                      st_visited :=
                        insert_candidate (create_priority_queue (ef * 2) true) entry_point
                                         (distance_to graph query entry_point);
                      st_flags := <[Z.to_nat entry_point := true]>
                                    (repeat false (Z.to_nat (node_count graph))) |}).
  { unfold distinct_ids. cbn [st_visited].
    apply NoDup_insert_candidate; [apply NoDup_nil_2|]. intros []. }
  pose proof (search_layer_loop_distinct _ _ _ Hfinal Hinv0 Hcov0 Hnd0) as Hnd.
  destruct (search_layer_loop_covers graph query layer ef wf ef_range no_nan _ _ _
              Hfinal Hinv0 Hcov0) as [_ [J1 _]].
  pose proof (drain_results_Permutation _ (st_visited final) [] eq_refl) as P.
  rewrite <- Hdrain, app_nil_r in P.
  split.
  - rewrite P. exact Hnd.
  - intros r Hr. apply list_elem_of_In in Hr. rewrite P in Hr.
    apply list_elem_of_In, in_map_iff in Hr. destruct Hr as (c & <- & Hc).
    apply list_elem_of_In in Hc. destruct (J1 c Hc). assumption.
Qed.
End Distinct.



(** * The layered search *)

Lemma StronglySorted_take {A} (R : A -> A -> Prop) (l : list A) (n : nat) :
  StronglySorted R l -> StronglySorted R (take n l).
Proof.
  revert n. induction l as [|x l IH]; intros n H; destruct n; cbn [take];
    try apply SSorted_nil.
  apply StronglySorted_inv in H. destruct H as [Hs Hf].
  apply SSorted_cons; [apply IH; exact Hs|].
  apply List.Forall_forall. intros y Hy.
  rewrite List.Forall_forall in Hf. apply Hf.
  apply list_elem_of_In. apply list_elem_of_In in Hy.
  apply elem_of_take in Hy. destruct Hy as (i & Hi & _).
  eapply list_elem_of_lookup_2. exact Hi.
Qed.

Lemma In_take {A} (l : list A) (n : nat) (x : A) : In x (take n l) -> In x l.
Proof.
  intros H. apply list_elem_of_In. apply list_elem_of_In in H.
  apply elem_of_take in H. destruct H as (i & Hi & _).
  eapply list_elem_of_lookup_2. exact Hi.
Qed.

Section Layered.
Variables (graph : HNSWGraph) (query : Vector).
Hypothesis wf : wf_search_graph graph.
Hypothesis no_nan :
  forall id, 0 <= id < node_count graph -> is_nan (distance_to graph query id) = false.

(** The descent through the upper layers keeps a valid node id. *)
Lemma descend_in_range (layers : list Z) :
  forall current_closest,
    0 <= current_closest < node_count graph ->
    exists closest,
      fold_left
        (fun (acc : option Z) (layer : Z) =>
           match acc with
           | None => None
           | Some current_closest =>
               match search_layer graph query current_closest layer 1 with
               | None => None
               | Some layer_results =>
                   match layer_results with
                   | closest :: _ => Some closest
                   | [] => Some current_closest
                   end
               end
           end)
        layers (Some current_closest) = Some closest
      /\ 0 <= closest < node_count graph.
Proof.
  induction layers as [|layer layers IH]; intros c Hc; cbn [fold_left].
  - exists c. auto.
  - destruct (search_layer_summary graph query layer 1 wf ltac:(lia) no_nan c Hc)
      as (results & -> & _ & _ & _ & Hr).
    destruct results as [|closest results]; [apply IH; exact Hc|].
    apply IH, Hr. left. reflexivity.
Qed.

Lemma hnsw_knn_search_summary (index : VectorIndex) (k : Z)
    (search_config : option SearchConfig) :
  hnsw_graph index = Some graph ->
  0 <= entry_point_node_id graph < node_count graph ->
  1 <= match search_config with
       | Some config => search_width config
       | None => wrap_int (k * 2)
       end < 1073741824 ->
  0 <= k ->
  exists results,
    hnsw_knn_search index query k search_config = Some results
    /\ Z.of_nat (length results) <= k
    /\ (1 <= k -> 1 <= Z.of_nat (length results))
    /\ closest_first graph query results
    /\ NoDup results
    /\ (forall r, In r results -> 0 <= r < node_count graph).
Proof.
  intros Hg Hentry Hsw Hk. unfold hnsw_knn_search. rewrite Hg.
  destruct (descend_in_range
              (map (fun i => maximum_layer_in_graph graph - Z.of_nat i)
                   (seq 0 (Z.to_nat (maximum_layer_in_graph graph))))
              (entry_point_node_id graph) Hentry) as (closest & -> & Hc).
  destruct (search_layer_summary graph query 0 _ wf Hsw no_nan closest Hc)
    as (all_candidates & -> & Hlen & Hsorted & Hnd & Hr).
  set (return_count :=
         if Z.of_nat (length all_candidates) <? k
         then Z.of_nat (length all_candidates) else k).
  assert (Hrc : 0 <= return_count <= k
                /\ return_count <= Z.of_nat (length all_candidates)
                /\ (1 <= k -> 1 <= return_count)).
  { unfold return_count.
    destruct (Z.ltb_spec (Z.of_nat (length all_candidates)) k); lia. }
  unfold malloc_ok. destruct (Z.leb_spec 0 return_count) as [_|]; [|lia].
  eexists. split; [reflexivity|].
  rewrite length_take.
  split; [lia|]. split; [lia|].
  split; [apply StronglySorted_take; exact Hsorted|].
  split; [eapply sublist_NoDup; [exact Hnd|apply sublist_take]|].
  intros r Hin. apply Hr. eapply In_take. exact Hin.
Qed.
End Layered.

(** X16: on a graph whose neighbor ids are in range and whose entry point
    exists, [hnsw_knn_search] with a search width between 1 and 2^30 and
    [k >= 0] returns at most [k] node ids (at least one when [k >= 1]),
    each a valid node, none twice, ordered closest first, provided no
    distance is NaN. *)
Theorem hnsw_knn_search_bounded_sorted
    (index : VectorIndex) (graph : HNSWGraph) (query : Vector) (k : Z)
    (search_config : option SearchConfig) :
  hnsw_graph index = Some graph ->
  wf_search_graph graph ->
  0 <= entry_point_node_id graph < node_count graph ->
  1 <= match search_config with
       | Some config => search_width config
       | None => wrap_int (k * 2)
       end < 1073741824 ->
  0 <= k ->
  (forall id, 0 <= id < node_count graph ->
              is_nan (distance_to graph query id) = false) ->
  exists results,
    hnsw_knn_search index query k search_config = Some results
    /\ Z.of_nat (length results) <= k
    /\ (1 <= k -> 1 <= Z.of_nat (length results))
    /\ closest_first graph query results
    /\ NoDup results
    /\ (forall r, In r results -> 0 <= r < node_count graph).
Proof.
  intros Hg Hwf Hentry Hsw Hk Hnan.
  exact (hnsw_knn_search_summary graph query Hwf Hnan index k search_config
           Hg Hentry Hsw Hk).
Qed.

Lemma hnsw_knn_search_bounded_sorted_witness :
  exists results,
    hnsw_knn_search path_index (vector_of_ints [3]) 2
      (Some {| search_width := 2; max_distance_computations := 20;
               accuracy_threshold := fzero; use_approximate_search := false |})
    = Some results
    /\ Z.of_nat (length results) <= 2
    /\ (1 <= 2 -> 1 <= Z.of_nat (length results))
    /\ closest_first path_graph (vector_of_ints [3]) results
    /\ NoDup results
    /\ (forall r, In r results -> 0 <= r < node_count path_graph).
Proof.
  apply (hnsw_knn_search_bounded_sorted path_index path_graph (vector_of_ints [3]) 2).
  - reflexivity.
  - exact wf_search_path_graph.
  - simpl. lia.
  - simpl. lia.
  - lia.
  - exact path_graph_no_nan.
Defined.

(** * Searching a built index *)

Lemma insert_candidate_fresh (cap : Z) (m : bool) (id : Z) (d : float) :
  1 <= cap ->
  insert_candidate (create_priority_queue cap m) id d
  = {| candidates := [ {| node_id := id; distance := d |} ];
       capacity := cap; is_max_heap := m |}.
Proof.
  intros H. unfold insert_candidate, size, create_priority_queue.
  cbn [candidates capacity is_max_heap length].
  destruct (Z.ltb_spec (Z.of_nat 0) cap) as [_|]; [|simpl in *; lia].
  unfold with_candidates, heapify_up. cbn [candidates capacity is_max_heap length app].
  cbn [heapify_up_rec]. cbv zeta.
  change ((0 - 1) / 2)%nat with 0%nat.
  rewrite better_irrefl. reflexivity.
Qed.

Lemma extract_top_candidate_only (c : SearchCandidate) (cap : Z) (m : bool) :
  extract_top_candidate {| candidates := [c]; capacity := cap; is_max_heap := m |}
  = Some (c, {| candidates := []; capacity := cap; is_max_heap := m |}).
Proof. reflexivity. Qed.

Lemma search_layer_isolated (graph : HNSWGraph) (query : Vector)
    (entry_point layer ef : Z) :
  no_edges (nodes graph) ->
  1 <= node_count graph ->
  1 <= ef < 1073741824 ->
  search_layer graph query entry_point layer ef = Some [entry_point].
Proof.
  intros Hno HN Hef. unfold search_layer, search_layer_final.
  rewrite (wrap_int_id (ef * 2)) by (unfold in_int_range, INT_MIN, INT_MAX; lia).
  rewrite !insert_candidate_fresh by lia.
  destruct (Z.to_nat (node_count graph)) as [|n] eqn:En; [lia|].
  cbn [search_layer_loop st_candidates st_visited st_flags].
  unfold size at 1. cbn [candidates length].
  change (0 <? Z.of_nat 1) with true. cbv iota.
  rewrite extract_top_candidate_only.
  cbn [st_candidates st_visited st_flags distance node_id candidates].
  unfold distance_at. cbn [lookup list_lookup distance].
  unfold fgt. rewrite flt_irrefl, andb_false_r.
  rewrite Hno.
  replace (if layer <=? maximum_layer (node_at (nodes graph) entry_point)
           then fold_left (search_layer_visit graph query ef) []
                  {| st_candidates := {| candidates := []; capacity := ef;
                                         is_max_heap := false |};
                     st_visited :=
                       {| candidates :=
                            [ {| node_id := entry_point;
                                 distance :=
                                   calculate_euclidean_distance query
                                     (vector_at (original_vectors graph) entry_point) |} ];
                          capacity := ef * 2; is_max_heap := true |};
                     st_flags := <[Z.to_nat entry_point := true]> (repeat false (S n)) |}
           else {| st_candidates := {| candidates := []; capacity := ef;
                                       is_max_heap := false |};
                   st_visited :=
                     {| candidates :=
                          [ {| node_id := entry_point;
                               distance :=
                                 calculate_euclidean_distance query
                                   (vector_at (original_vectors graph) entry_point) |} ];
                        capacity := ef * 2; is_max_heap := true |};
                   st_flags := <[Z.to_nat entry_point := true]> (repeat false (S n)) |})
    with {| st_candidates := {| candidates := []; capacity := ef; is_max_heap := false |};
            st_visited :=
              {| candidates :=
                   [ {| node_id := entry_point;
                        distance :=
                          calculate_euclidean_distance query
                            (vector_at (original_vectors graph) entry_point) |} ];
                 capacity := ef * 2; is_max_heap := true |};
            st_flags := <[Z.to_nat entry_point := true]> (repeat false (S n)) |}
    by (destruct (layer <=? _); reflexivity).
  destruct n; reflexivity.
Qed.

Lemma descend_isolated (graph : HNSWGraph) (query : Vector) (layers : list Z) (e : Z) :
  no_edges (nodes graph) ->
  1 <= node_count graph ->
  fold_left
    (fun (acc : option Z) (layer : Z) =>
       match acc with
       | None => None
       | Some current_closest =>
           match search_layer graph query current_closest layer 1 with
           | None => None
           | Some layer_results =>
               match layer_results with
               | closest :: _ => Some closest
               | [] => Some current_closest
               end
           end
       end)
    layers (Some e) = Some e.
Proof.
  intros Hno HN. induction layers as [|layer layers IH]; cbn [fold_left]; [reflexivity|].
  rewrite (search_layer_isolated graph query e layer 1 Hno HN) by lia. exact IH.
Qed.

Lemma hnsw_knn_search_isolated (index : VectorIndex) (graph : HNSWGraph)
    (query : Vector) (k : Z) (config : SearchConfig) :
  hnsw_graph index = Some graph ->
  no_edges (nodes graph) ->
  1 <= node_count graph ->
  1 <= k ->
  1 <= search_width config < 1073741824 ->
  hnsw_knn_search index query k (Some config) = Some [entry_point_node_id graph].
Proof.
  intros Hg Hno HN Hk Hsw. unfold hnsw_knn_search. rewrite Hg.
  rewrite (descend_isolated graph query _ _ Hno HN).
  rewrite (search_layer_isolated graph query _ 0 _ Hno HN Hsw).
  cbn [length]. destruct (Z.ltb_spec (Z.of_nat 1) k).
  - reflexivity.
  - assert (k = 1) as -> by lia. reflexivity.
Qed.

(** X17: on an index made by [create_hnsw_index] every search through the
    graph answers with the entry point alone, whatever the query and
    however many neighbors are asked for: the built graph has no edge, so
    each layer search ends at the node it starts from.  The bounds keep
    [k * 4], [width * 10] and [search_width * 2] inside [int]. *)
Theorem built_index_returns_entry_point
    (fuel : nat) (RAND_MAX : Z) (tape : list Z) (vs : list Vector)
    (N M M0 : Z) (lf : float) (index : VectorIndex) (query : Vector) (k : Z) :
  1 <= N ->
  create_hnsw_index fuel RAND_MAX tape vs N M M0 lf = Some index ->
  1 <= k < 268435456 ->
  exists graph,
    hnsw_graph index = Some graph
    /\ 0 <= entry_point_node_id graph < N
    /\ knn_search index query k = Some [entry_point_node_id graph]
    /\ (forall width, 1 <= width < 134217728 ->
          approximate_search index query k width = Some [entry_point_node_id graph]
          /\ beam_search index query k width = Some [entry_point_node_id graph]).
Proof.
  intros HN H Hk. unfold create_hnsw_index in H.
  destruct (build_hnsw_graph fuel RAND_MAX tape vs N M M0 lf (wrap_int (M * 2)))
    as [graph|] eqn:Eb; [|discriminate].
  injection H as <-. exists graph. split; [reflexivity|].
  destruct (build_hnsw_graph_no_edges _ _ _ _ _ _ _ _ _ _ HN Eb) as [Hno Hc].
  destruct (build_hnsw_graph_sampled _ _ _ _ _ _ _ _ _ _ HN Eb)
    as ((_ & _ & _ & Hentry) & _ & Hlen).
  split.
  { assert (Hne : nodes graph <> []).
    { intros E. rewrite E in Hlen. simpl in Hlen. lia. }
    destruct (Hentry Hne) as (node & H0 & Hlk & _).
    apply lookup_lt_Some in Hlk. lia. }
  split.
  - unfold knn_search. cbn [use_hnsw_optimization hnsw_graph].
    apply hnsw_knn_search_isolated; [reflexivity|exact Hno|lia|lia|].
    cbn [search_width].
    rewrite wrap_int_id by (unfold in_int_range, INT_MIN, INT_MAX; lia). lia.
  - intros width Hw. unfold approximate_search, beam_search.
    split; apply hnsw_knn_search_isolated; try reflexivity; try exact Hno;
      cbn [search_width]; lia.
Qed.

Lemma built_index_returns_entry_point_witness :
  exists index graph,
    create_hnsw_index 2 glibc_RAND_MAX four_draws four_points 4 16 32 one_half = Some index
    /\ hnsw_graph index = Some graph
    /\ 0 <= entry_point_node_id graph < 4
    /\ knn_search index (vector_of_ints [9]) 3 = Some [entry_point_node_id graph]
    /\ (forall width, 1 <= width < 134217728 ->
          approximate_search index (vector_of_ints [9]) 3 width
          = Some [entry_point_node_id graph]
          /\ beam_search index (vector_of_ints [9]) 3 width
             = Some [entry_point_node_id graph]).
Proof.
  destruct (create_hnsw_index 2 glibc_RAND_MAX four_draws four_points 4 16 32 one_half)
    as [index|] eqn:E; [|vm_compute in E; discriminate].
  exists index.
  destruct (built_index_returns_entry_point 2 glibc_RAND_MAX four_draws four_points
              4 16 32 one_half index (vector_of_ints [9]) 3 ltac:(lia) E ltac:(lia))
    as (graph & H1 & H2 & H3 & H4).
  exists graph. split; [reflexivity|].
  split; [exact H1|]. split; [exact H2|]. split; [exact H3|exact H4].
Defined.


(** * The size of a serialized graph *)

Lemma layers_bytes_lower (lists : list (list Z)) :
  8 * Z.of_nat (length lists) <= layers_bytes lists.
Proof.
  unfold layers_bytes. induction lists as [|c l IH]; cbn [fold_right length]; [lia|].
  rewrite Nat2Z.inj_succ. lia.
Qed.

Lemma length_flat_map_layer_stream (lists : list (list Z)) :
  Z.of_nat (length (flat_map layer_stream lists))
  = layers_bytes lists - 4 * Z.of_nat (length lists).
Proof.
  unfold layers_bytes. induction lists as [|c l IH]; [reflexivity|].
  cbn [flat_map fold_right length].
  rewrite length_app, Nat2Z.inj_add, length_layer_stream, Nat2Z.inj_succ. lia.
Qed.

Lemma length_serialize_node node :
  wf_node node -> Z.of_nat (length (serialize_node node)) = node_bytes node.
Proof.
  intros Hwf. rewrite (serialize_node_wf node Hwf).
  rewrite !length_app, !Nat2Z.inj_add, length_write_int, length_ints_stream,
    length_map, length_flat_map_layer_stream.
  unfold node_bytes. lia.
Qed.

Lemma fold_left_map_arg {A B C} (f : A -> C -> A) (g : B -> C) (l : list B) (a : A) :
  fold_left (fun acc x => f acc (g x)) l a = fold_left f (map g l) a.
Proof. revert a. induction l as [|x l IH]; intros a; simpl; [reflexivity|apply IH]. Qed.

Lemma layer_sizes_exact (lists : list (list Z)) :
  forall total,
    0 <= total ->
    total + (layers_bytes lists - 4 * Z.of_nat (length lists)) <= INT_MAX ->
    fold_left
      (fun total_size conns =>
         wrap_int (wrap_int (total_size + 4) + 4 * Z.of_nat (length conns)))
      lists total
    = total + (layers_bytes lists - 4 * Z.of_nat (length lists)).
Proof.
  unfold layers_bytes.
  induction lists as [|c l IH]; intros total H0 Hmax.
  - cbn. lia.
  - cbn [fold_left fold_right length] in *. rewrite Nat2Z.inj_succ in *.
    pose proof (layers_bytes_lower l) as Hl. unfold layers_bytes in Hl.
    rewrite (wrap_int_id (total + 4))
      by (unfold in_int_range, INT_MIN, INT_MAX in *; lia).
    rewrite wrap_int_id by (unfold in_int_range, INT_MIN, INT_MAX in *; lia).
    rewrite IH by lia. lia.
Qed.

Lemma serialized_node_size_exact total node :
  wf_node node ->
  0 <= total ->
  total + node_bytes node <= INT_MAX ->
  serialized_node_size total node = total + node_bytes node.
Proof.
  intros Hwf H0 Hmax. pose proof Hwf as (Htop & Hlen & _).
  pose proof (layers_bytes_lower (layer_connections node)) as Hl.
  unfold node_bytes in *. unfold serialized_node_size.
  rewrite (wrap_int_id (total + 4))
    by (unfold in_int_range, INT_MIN, INT_MAX in *; lia).
  rewrite (wrap_int_id (maximum_layer node + 1))
    by (unfold in_int_range, INT_MIN, INT_MAX in *; lia).
  rewrite wrap_int_id by (unfold in_int_range, INT_MIN, INT_MAX in *; lia).
  unfold connection_counts.
  rewrite (fold_left_map_arg
             (fun total_size conns =>
                wrap_int (wrap_int (total_size + 4) + 4 * Z.of_nat (length conns)))
             (connections node)).
  rewrite (node_layers_connections node Hwf).
  rewrite layer_sizes_exact by lia. lia.
Qed.

Lemma serialized_size_exact (ns : list HNSWNode) :
  forall total,
    Forall wf_node ns ->
    0 <= total ->
    total + fold_right (fun node acc => node_bytes node + acc) 0 ns <= INT_MAX ->
    fold_left serialized_node_size ns total
    = total + fold_right (fun node acc => node_bytes node + acc) 0 ns.
Proof.
  induction ns as [|n ns IH]; intros total Hwf H0 Hmax; cbn [fold_left fold_right] in *.
  - lia.
  - inversion Hwf as [|? ? Hn Hwf']; subst.
    assert (Hpos : 0 <= fold_right (fun node acc => node_bytes node + acc) 0 ns).
    { clear -Hwf'. induction Hwf' as [|m ms Hm _ IHm]; cbn [fold_right]; [lia|].
      pose proof (layers_bytes_lower (layer_connections m)). unfold node_bytes in *. lia. }
    assert (Hnb : 4 <= node_bytes n).
    { pose proof (layers_bytes_lower (layer_connections n)). unfold node_bytes. lia. }
    rewrite serialized_node_size_exact by (assumption || lia).
    rewrite IH by (assumption || lia). lia.
Qed.

Lemma length_serialized_nodes (ns : list HNSWNode) :
  Forall wf_node ns ->
  Z.of_nat (length (flat_map serialize_node ns))
  = fold_right (fun node acc => node_bytes node + acc) 0 ns.
Proof.
  induction 1 as [|n ns Hn _ IH]; [reflexivity|].
  cbn [flat_map fold_right]. rewrite length_app, Nat2Z.inj_add, IH.
  rewrite (length_serialize_node n Hn). reflexivity.
Qed.

Lemma serialize_hnsw_graph_exact (graph : HNSWGraph) :
  wf_graph graph ->
  graph_bytes graph <= INT_MAX ->
  serialize_hnsw_graph (Some graph)
  = Ret (Some (write_int (node_count graph) ++ flat_map serialize_node (nodes graph),
               graph_bytes graph))
  /\ Z.of_nat (length (write_int (node_count graph)
                       ++ flat_map serialize_node (nodes graph)))
     = graph_bytes graph.
Proof.
  intros Hwf Hmax. pose proof Hwf as (Hc & Hcmax & Hnodes).
  assert (Hlen : Z.of_nat (length (write_int (node_count graph)
                                    ++ flat_map serialize_node (nodes graph)))
                 = graph_bytes graph).
  { rewrite length_app, Nat2Z.inj_add, length_write_int, length_serialized_nodes
      by assumption. reflexivity. }
  split; [|exact Hlen].
  unfold serialize_hnsw_graph. rewrite (graph_nodes_wf graph Hwf).
  assert (Hsize : fold_left serialized_node_size (nodes graph) 4 = graph_bytes graph).
  { unfold graph_bytes in *. apply serialized_size_exact; [assumption|lia|lia]. }
  rewrite Hsize, Hlen.
  assert (Hpos : 4 <= graph_bytes graph).
  { rewrite <- Hlen, length_app, Nat2Z.inj_add, length_write_int. lia. }
  unfold malloc_ok. destruct (Z.leb_spec 0 (graph_bytes graph)); [|lia].
  cbn [negb]. rewrite Z.leb_refl. reflexivity.
Qed.

(** X18: for a well-formed graph whose image fits in an [int],
    [serialize_hnsw_graph] succeeds and reports as [*out_size] exactly the
    number of bytes it wrote: 4 for the node count, and for every node 4
    for its top layer plus, per layer, 8 for the two copies of the count
    and 4 for each neighbor id. *)
Theorem serialize_hnsw_graph_size (graph : HNSWGraph) :
  wf_graph graph ->
  graph_bytes graph <= INT_MAX ->
  exists buffer,
    serialize_hnsw_graph (Some graph) = Ret (Some (buffer, graph_bytes graph))
    /\ Z.of_nat (length buffer) = graph_bytes graph
    /\ buffer = write_int (node_count graph) ++ flat_map serialize_node (nodes graph).
Proof.
  intros Hwf Hmax.
  destruct (serialize_hnsw_graph_exact graph Hwf Hmax) as [H1 H2].
  exists (write_int (node_count graph) ++ flat_map serialize_node (nodes graph)).
  split; [exact H1|]. split; [exact H2|reflexivity].
Qed.

Lemma serialize_hnsw_graph_size_witness :
  exists buffer,
    serialize_hnsw_graph (Some two_layer_graph) = Ret (Some (buffer, 60))
    /\ Z.of_nat (length buffer) = 60
    /\ buffer = write_int (node_count two_layer_graph)
                ++ flat_map serialize_node (nodes two_layer_graph).
Proof.
  apply (serialize_hnsw_graph_size two_layer_graph).
  - exact wf_two_layer_graph.
  - vm_compute. discriminate.
Defined.

(** * What the parser does not look at *)

Lemma deserialize_serialized
    (graph : HNSWGraph) (buffer extra : list byte) (size announced : Z) :
  wf_graph graph ->
  serialize_hnsw_graph (Some graph) = Ret (Some (buffer, size)) ->
  size <= announced <= INT_MAX ->
  deserialize_hnsw_graph (buffer ++ extra) announced
  = Ret (Some {| m_nodes := map mem_of_node (nodes graph);
                 m_node_count := node_count graph |}).
Proof.
  intros Hwf H Hsize. unfold serialize_hnsw_graph in H.
  rewrite graph_nodes_wf in H by assumption.
  destruct (malloc_ok (fold_left serialized_node_size (nodes graph) 4)); [|discriminate].
  cbn [negb] in H.
  remember (write_int (node_count graph) ++ flat_map serialize_node (nodes graph))
    as stream eqn:Es.
  match type of H with
  | (if ?c then _ else _) = _ => destruct c eqn:Hfit; [|discriminate]
  end.
  injection H as <- <-. subst stream.
  apply Z.leb_le in Hfit.
  rewrite length_app, length_write_int, Nat2Z.inj_add in Hfit.
  destruct Hwf as (Hc & Hcmax & Hnodes).
  unfold deserialize_hnsw_graph.
  destruct (Z.leb_spec announced 0); [lia|].
  destruct (Z.ltb_spec announced 4); [lia|].
  assert (Hat : at_offset ((write_int (node_count graph)
                            ++ flat_map serialize_node (nodes graph)) ++ extra) 0
                          (write_int (node_count graph)
                           ++ flat_map serialize_node (nodes graph) ++ extra))
    by (split; [lia | now rewrite <- app_assoc]).
  assert (Hn : in_int_range (node_count graph))
    by (unfold in_int_range, INT_MIN, INT_MAX in *; lia).
  destruct (read_int_at _ _ _ _ Hat Hn) as [-> Hat'].
  unfold malloc_ok. destruct (Z.leb_spec 0 (node_count graph)); [|lia].
  cbn [negb].
  rewrite wrap_int_id by (unfold in_int_range, INT_MIN, INT_MAX in *; lia).
  replace (Z.to_nat (node_count graph)) with (length (nodes graph)) by lia.
  apply (deserialize_nodes_stream (nodes graph) [] _ 4 _ extra _ Hat' Hnodes).
  unfold in_int_range, INT_MIN, INT_MAX in *. lia.
Qed.

(** X19: the parser stops after the last node: bytes that follow a
    serialized graph are ignored, and the announced size only has to be at
    least the size of the image. *)
Theorem deserialize_ignores_trailing_bytes
    (graph : HNSWGraph) (buffer extra : list byte) (size announced : Z) :
  wf_graph graph ->
  serialize_hnsw_graph (Some graph) = Ret (Some (buffer, size)) ->
  size <= announced <= INT_MAX ->
  deserialize_hnsw_graph (buffer ++ extra) announced
  = Ret (Some {| m_nodes := map mem_of_node (nodes graph);
                 m_node_count := node_count graph |}).
Proof. exact (deserialize_serialized graph buffer extra size announced). Qed.

Lemma deserialize_ignores_trailing_bytes_witness :
  deserialize_hnsw_graph (two_layer_stream ++ write_int 99) 1000
  = Ret (Some {| m_nodes := map mem_of_node (nodes two_layer_graph);
                 m_node_count := node_count two_layer_graph |}).
Proof.
  apply (deserialize_ignores_trailing_bytes two_layer_graph two_layer_stream
           (write_int 99) 60 1000).
  - exact wf_two_layer_graph.
  - vm_compute. reflexivity.
  - unfold INT_MAX. lia.
Defined.

Lemma nth_map_default {A B} (f : A -> B) (l : list A) (i : nat) (d : A) (e : B) :
  f d = e -> nth i (map f l) e = f (nth i l d).
Proof.
  intros H. revert i. induction l as [|x l IH]; intros [|i]; simpl; auto.
Qed.

(** X20: the image depends on nothing but the node count and each node's
    top layer and neighbor lists: entry point, top layer of the graph,
    construction parameters, vectors and vector ids are not written. *)
Theorem serialize_hnsw_graph_topology_only (graph graph' : HNSWGraph) :
  node_count graph = node_count graph' ->
  map maximum_layer (nodes graph) = map maximum_layer (nodes graph') ->
  map layer_connections (nodes graph) = map layer_connections (nodes graph') ->
  serialize_hnsw_graph (Some graph) = serialize_hnsw_graph (Some graph').
Proof.
  intros Hc Hm Hl.
  assert (Hnode : forall i,
            maximum_layer (node_at (nodes graph) i)
            = maximum_layer (node_at (nodes graph') i)
            /\ layer_connections (node_at (nodes graph) i)
               = layer_connections (node_at (nodes graph') i)).
  { intros i. unfold node_at. split.
    - rewrite <- (nth_map_default maximum_layer (nodes graph) _ empty_node 0 eq_refl).
      rewrite <- (nth_map_default maximum_layer (nodes graph') _ empty_node 0 eq_refl).
      now rewrite Hm.
    - rewrite <- (nth_map_default layer_connections (nodes graph) _ empty_node [] eq_refl).
      rewrite <- (nth_map_default layer_connections (nodes graph') _ empty_node [] eq_refl).
      now rewrite Hl. }
  assert (Hsize : forall total node node',
            maximum_layer node = maximum_layer node' ->
            layer_connections node = layer_connections node' ->
            serialized_node_size total node = serialized_node_size total node'
            /\ serialize_node node = serialize_node node').
  { intros total node node' E1 E2.
    unfold serialized_node_size, serialize_node, node_layers, connection_counts,
      connections. rewrite E1, E2. auto. }
  unfold serialize_hnsw_graph, graph_nodes. rewrite <- Hc.
  assert (Hfold : forall (l : list nat) total,
            fold_left serialized_node_size
              (map (fun i => node_at (nodes graph) (Z.of_nat i)) l) total
            = fold_left serialized_node_size
                (map (fun i => node_at (nodes graph') (Z.of_nat i)) l) total).
  { induction l as [|i l IH]; intros total; cbn [map fold_left]; [reflexivity|].
    destruct (Hnode (Z.of_nat i)) as [E1 E2].
    destruct (Hsize total _ _ E1 E2) as [-> _]. apply IH. }
  assert (Hflat : forall (l : list nat),
            flat_map serialize_node (map (fun i => node_at (nodes graph) (Z.of_nat i)) l)
            = flat_map serialize_node
                (map (fun i => node_at (nodes graph') (Z.of_nat i)) l)).
  { induction l as [|i l IH]; cbn [map flat_map]; [reflexivity|].
    destruct (Hnode (Z.of_nat i)) as [E1 E2].
    destruct (Hsize 0 _ _ E1 E2) as [_ ->]. now rewrite IH. }
  rewrite Hfold, Hflat. reflexivity.
Qed.

Lemma serialize_hnsw_graph_topology_only_witness :
  serialize_hnsw_graph (Some two_layer_graph)
  = serialize_hnsw_graph
      (Some {| nodes := [ {| vector_id := 7; maximum_layer := 1;
                              layer_connections := [[1]; [1]] |};
                           {| vector_id := 8; maximum_layer := 1;
                              layer_connections := [[0]; [0]] |} ];
               original_vectors := [];
               node_count := 2; entry_point_node_id := 1; maximum_layer_in_graph := 5;
               max_connections_per_node := 4; max_connections_layer_zero := 8;
               level_generation_factor := fzero; construction_search_width := 1 |}).
Proof.
  apply serialize_hnsw_graph_topology_only; reflexivity.
Defined.

(** * What a successful parse returns *)

Lemma read_int_range buffer ptr v : read_int buffer ptr = Some v -> in_int_range v.
Proof.
  unfold read_int. destruct (_ =? _)%nat; [|discriminate].
  intros H. injection H as <-. apply wrap_int_range.
Qed.

Lemma read_connection_counts_length remaining :
  forall buffer ptr size counts counts' ptr' size',
    read_connection_counts remaining buffer ptr size counts = Parsed counts' ptr' size' ->
    length counts' = (length counts + remaining)%nat.
Proof.
  induction remaining as [|remaining IH]; intros buffer ptr size counts counts' ptr' size' H;
    cbn [read_connection_counts] in H.
  - injection H as <- _ _. lia.
  - destruct (size <? 4); [discriminate|].
    destruct (read_int buffer ptr); [|discriminate].
    apply IH in H. rewrite length_app in H. cbn [length] in H. lia.
Qed.

Lemma read_connections_length remaining :
  forall buffer ptr conns conns' ptr',
    read_connections remaining buffer ptr conns = Some (conns', ptr') ->
    length conns' = (length conns + remaining)%nat.
Proof.
  induction remaining as [|remaining IH]; intros buffer ptr conns conns' ptr' H;
    cbn [read_connections] in H.
  - injection H as <- _. lia.
  - destruct (read_int buffer ptr); [|discriminate].
    apply IH in H. rewrite length_app in H. cbn [length] in H. lia.
Qed.

Lemma read_layers_filled remaining :
  forall layer buffer ptr size counts arr arr' ptr' size',
    read_layers remaining layer buffer ptr size counts arr = Parsed arr' ptr' size' ->
    (layer + remaining <= length arr)%nat ->
    length arr' = length arr
    /\ (forall j, (j < layer)%nat -> arr' !! j = arr !! j)
    /\ (forall j, (layer <= j < layer + remaining)%nat ->
                  exists conns, arr' !! j = Some (cptr_to conns)
                                /\ Z.of_nat (length conns) = nth j counts 0).
Proof.
  induction remaining as [|remaining IH];
    intros layer buffer ptr size counts arr arr' ptr' size' H Hlen;
    cbn [read_layers] in H.
  - injection H as <- _ _. split; [reflexivity|]. split; [auto|]. intros j Hj. lia.
  - destruct (size <? 4); [discriminate|].
    destruct (read_int buffer ptr) as [conn_count|]; [|discriminate].
    destruct (negb (conn_count =? nth layer counts 0)) eqn:Ec; [discriminate|].
    destruct (_ <? _); [discriminate|].
    destruct (negb (malloc_ok conn_count)) eqn:Em; [discriminate|].
    destruct (read_connections (Z.to_nat conn_count) buffer (ptr + 4) [])
      as [[conns ptr2]|] eqn:Er; [|discriminate].
    apply negb_false_iff, Z.eqb_eq in Ec.
    apply negb_false_iff in Em. unfold malloc_ok in Em. apply Z.leb_le in Em.
    apply read_connections_length in Er. cbn [length] in Er.
    apply IH in H; [|rewrite length_insert; lia].
    destruct H as (H1 & H2 & H3). rewrite length_insert in H1.
    split; [exact H1|]. split.
    + intros j Hj. rewrite H2 by lia. apply list_lookup_insert_ne. lia.
    + intros j Hj. destruct (decide (j = layer)) as [->|Hne].
      * exists conns. split; [|lia].
        rewrite H2 by lia. apply list_lookup_insert_eq. lia.
      * apply H3. lia.
Qed.

Lemma all_allocated (arr : list (cptr (list Z))) (counts : list Z) :
  length counts = length arr ->
  (forall j, (j < length arr)%nat ->
             exists conns, arr !! j = Some (cptr_to conns)
                           /\ Z.of_nat (length conns) = nth j counts 0) ->
  exists lists,
    arr = map cptr_to lists
    /\ counts = map (fun conns => Z.of_nat (length conns)) lists.
Proof.
  revert counts. induction arr as [|p arr IH]; intros counts Hlen H.
  - exists []. destruct counts; [auto|discriminate].
  - destruct counts as [|c counts]; [discriminate|].
    destruct (H 0%nat ltac:(simpl; lia)) as (conns & H0 & Hc0).
    cbn in H0, Hc0. injection H0 as ->.
    destruct (IH counts) as (lists & -> & ->).
    + simpl in Hlen. lia.
    + intros j Hj. apply (H (S j)). simpl. lia.
    + exists (conns :: lists). cbn [map]. rewrite Hc0. auto.
Qed.

Lemma deserialize_node_complete buffer ptr size node ptr' size' :
  deserialize_node buffer ptr size = Parsed node ptr' size' -> complete_node node.
Proof.
  unfold deserialize_node.
  destruct (read_int buffer ptr) as [top_layer|] eqn:Et; [|discriminate].
  pose proof (read_int_range _ _ _ Et) as Hrange.
  destruct (Z.ltb_spec top_layer 0) as [|Htop]; [discriminate|].
  destruct (negb (malloc_ok (wrap_int (top_layer + 1)))) eqn:Em; [discriminate|].
  apply negb_false_iff in Em. unfold malloc_ok in Em. apply Z.leb_le in Em.
  assert (Hw : wrap_int (top_layer + 1) = top_layer + 1).
  { destruct (Z.eq_dec top_layer INT_MAX) as [->|Hne].
    - vm_compute in Em. contradiction.
    - apply wrap_int_id. unfold in_int_range, INT_MIN, INT_MAX in *. lia. }
  rewrite Hw in *.
  destruct (read_connection_counts _ _ _ _ _) as [counts ptr1 size1| |] eqn:Ec;
    try discriminate.
  apply read_connection_counts_length in Ec. cbn [length] in Ec.
  destruct (read_layers _ _ _ _ _ _ _) as [arr ptr2 size2| |] eqn:El; try discriminate.
  intros H. injection H as <- _ _.
  apply read_layers_filled in El; [|rewrite repeat_length; lia].
  destruct El as (H1 & _ & H3). rewrite repeat_length in H1.
  destruct (all_allocated arr counts) as (lists & -> & ->).
  - lia.
  - intros j Hj. apply H3. lia.
  - exists {| vector_id := 0; maximum_layer := top_layer; layer_connections := lists |}.
    split; [reflexivity|]. unfold node_shape. cbn [maximum_layer layer_connections].
    rewrite length_map in H1. lia.
Qed.

Lemma deserialize_nodes_complete remaining :
  forall i buffer ptr size graph graph',
    deserialize_nodes remaining i buffer ptr size graph = Ret (Some graph') ->
    (i + remaining <= length (m_nodes graph))%nat ->
    m_node_count graph' = m_node_count graph
    /\ length (m_nodes graph') = length (m_nodes graph)
    /\ (forall j, (j < i)%nat -> m_nodes graph' !! j = m_nodes graph !! j)
    /\ (forall j m, (i <= j < i + remaining)%nat -> m_nodes graph' !! j = Some m ->
                    complete_node m).
Proof.
  induction remaining as [|remaining IH]; intros i buffer ptr size graph graph' H Hlen;
    cbn [deserialize_nodes] in H.
  - injection H as <-. repeat split; auto. intros j m Hj. lia.
  - unfold cleanup_and_fail in H.
    destruct (size <? 4); [destruct (free_hnsw_graph _); discriminate|].
    destruct (deserialize_node buffer ptr size) as [node ptr1 size1|node|] eqn:En;
      [|destruct (free_hnsw_graph _); discriminate|discriminate].
    apply deserialize_node_complete in En.
    apply IH in H; [|cbn [set_m_node m_nodes]; rewrite length_insert; lia].
    cbn [set_m_node m_nodes m_node_count] in H. rewrite length_insert in H.
    destruct H as (H1 & H2 & H3 & H4).
    split; [exact H1|]. split; [exact H2|]. split.
    + intros j Hj. rewrite H3 by lia. apply list_lookup_insert_ne. lia.
    + intros j m Hj Hm. destruct (decide (j = i)) as [->|Hne].
      * rewrite H3 in Hm by lia. rewrite list_lookup_insert_eq in Hm by lia.
        injection Hm as <-. exact En.
      * apply (H4 j m); [lia|exact Hm].
Qed.

Lemma free_complete_node (m : MemNode) :
  complete_node m -> free_hnsw_node_fields m = true.
Proof.
  intros (node & -> & H0 & Hlen). unfold free_hnsw_node_fields, mem_of_node.
  cbn [m_maximum_layer m_layer_connections m_connection_counts
       m_allocated_connection_sizes free_ok].
  rewrite !andb_true_r. apply forallb_forall. intros layer Hin.
  apply in_seq in Hin. unfold free_layer. cbn [m_layer_connections].
  rewrite list_lookup_fmap.
  destruct (lookup_lt_is_Some_2 (layer_connections node) layer ltac:(lia)) as [conns Hc].
  rewrite Hc. reflexivity.
Qed.

(** X21: whatever [deserialize_hnsw_graph] returns as a graph is completely
    built: [node_count] nodes, each with a non-negative top layer and one
    allocated neighbor array per layer whose length is the stored count;
    [free_hnsw_graph] releases such a graph without an invalid access. *)
Theorem deserialize_result_complete (buffer : list byte) (size : Z) (graph : MemGraph) :
  deserialize_hnsw_graph buffer size = Ret (Some graph) ->
  Z.of_nat (length (m_nodes graph)) = m_node_count graph
  /\ Forall complete_node (m_nodes graph)
  /\ free_hnsw_graph graph = true.
Proof.
  unfold deserialize_hnsw_graph.
  destruct (size <=? 0); [discriminate|]. destruct (size <? 4); [discriminate|].
  destruct (read_int buffer 0) as [n|]; [|discriminate].
  destruct (negb (malloc_ok n)) eqn:Em; [discriminate|].
  apply negb_false_iff in Em. unfold malloc_ok in Em. apply Z.leb_le in Em.
  intros H. apply deserialize_nodes_complete in H;
    [|cbn [m_nodes]; rewrite repeat_length; lia].
  cbn [m_nodes m_node_count] in H. rewrite repeat_length in H.
  destruct H as (H1 & H2 & _ & H4).
  assert (Hall : Forall complete_node (m_nodes graph)).
  { apply List.Forall_forall. intros m Hin.
    apply list_elem_of_In, list_elem_of_lookup in Hin. destruct Hin as [j Hj].
    apply (H4 j m); [|exact Hj]. apply lookup_lt_Some in Hj. lia. }
  split; [lia|]. split; [exact Hall|].
  unfold free_hnsw_graph. apply forallb_forall. intros j Hin. apply in_seq in Hin.
  destruct (lookup_lt_is_Some_2 (m_nodes graph) j ltac:(lia)) as [m Hm].
  rewrite Hm. apply free_complete_node.
  rewrite List.Forall_forall in Hall. apply Hall, list_elem_of_In.
  eapply list_elem_of_lookup_2. exact Hm.
Qed.

Lemma deserialize_result_complete_witness :
  exists graph,
    deserialize_hnsw_graph two_layer_stream 60 = Ret (Some graph)
    /\ Z.of_nat (length (m_nodes graph)) = m_node_count graph
    /\ Forall complete_node (m_nodes graph)
    /\ free_hnsw_graph graph = true.
Proof.
  destruct (deserialize_hnsw_graph two_layer_stream 60) as [[graph|]|] eqn:E;
    [|vm_compute in E; discriminate|vm_compute in E; discriminate].
  exists graph. split; [reflexivity|].
  apply (deserialize_result_complete two_layer_stream 60 graph E).
Defined.

(** * When the parser returns the null pointer *)






(** * Cosine search: the matches *)

Lemma fold_left_seq_S {A} (f : A -> nat -> A) (n : nat) (a : A) :
  fold_left f (seq 0 (S n)) a = f (fold_left f (seq 0 n) a) n.
Proof. rewrite seq_S, fold_left_app. reflexivity. Qed.

Lemma cosine_matches_S vectors query threshold n :
  cosine_matches vectors query threshold (S n)
  = cosine_matches vectors query threshold n
    ++ match cosine_match vectors query threshold n with
       | Some p => [p]
       | None => []
       end.
Proof.
  unfold cosine_matches. rewrite seq_S, omap_app. cbn [omap list_omap Nat.add].
  destruct (cosine_match vectors query threshold n); reflexivity.
Qed.

Lemma matches_fold (vectors : list Vector) (query : Vector) (threshold : float) (n : nat) :
  fold_left
    (fun '(neighbors, similarities) i =>
       let '(dot_product, norm_a, norm_b) :=
         cosine_terms (vector_at vectors (Z.of_nat i)) query in
       if feq norm_a fzero || feq norm_b fzero then (neighbors, similarities)
       else
         let similarity := fdiv dot_product (fmul (sqrtf norm_a) (sqrtf norm_b)) in
         if fge similarity threshold
         then (neighbors ++ [Z.of_nat i], similarities ++ [similarity])
         else (neighbors, similarities))
    (seq 0 n) ([], [])
  = (map fst (cosine_matches vectors query threshold n),
     map snd (cosine_matches vectors query threshold n)).
Proof.
  induction n as [|n IH]; [reflexivity|].
  rewrite fold_left_seq_S, IH, cosine_matches_S.
  set (ms := cosine_matches vectors query threshold n).
  unfold cosine_match, cosine_similarity.
  destruct (cosine_terms (vector_at vectors (Z.of_nat n)) query) as [[dot na] nb].
  destruct (feq na fzero || feq nb fzero); [now rewrite !app_nil_r|].
  destruct (fge _ threshold); [|now rewrite !app_nil_r].
  now rewrite !map_app.
Qed.

(** * Cosine search: the sort *)

Lemma map_fmap {A B} (f : A -> B) (l : list A) : map f l = f <$> l.
Proof. induction l as [|x l IH]; [reflexivity|]. cbn. now rewrite IH. Qed.

Lemma swap_at_map {A B} (f : A -> B) (l : list A) (j : nat) :
  swap_at (map f l) j = map f (swap_at l j).
Proof.
  unfold swap_at. rewrite !map_fmap, !list_lookup_fmap.
  destruct (l !! j) as [x|]; cbn; [|reflexivity].
  destruct (l !! S j) as [y|]; cbn; [|reflexivity].
  now rewrite !list_fmap_insert.
Qed.

Lemma bubble_comparisons_pairs (js : list nat) :
  forall ps : list (Z * float),
    fold_left
      (fun '(neighbors, similarities) j =>
         match similarities !! j, similarities !! (S j) with
         | Some s, Some s' =>
             if flt s s' then (swap_at neighbors j, swap_at similarities j)
             else (neighbors, similarities)
         | _, _ => (neighbors, similarities)
         end)
      js (map fst ps, map snd ps)
    = (map fst (fold_left bubble_step js ps), map snd (fold_left bubble_step js ps)).
Proof.
  induction js as [|j js IH]; intros ps; cbn [fold_left]; [reflexivity|].
  rewrite <- IH. f_equal. unfold bubble_step.
  rewrite !(map_fmap snd), !list_lookup_fmap.
  destruct (ps !! j) as [p|]; cbn; [|reflexivity].
  destruct (ps !! S j) as [p'|]; cbn; [|reflexivity].
  destruct (flt (snd p) (snd p')); [|reflexivity].
  rewrite <- (map_fmap snd). now rewrite !swap_at_map.
Qed.

Lemma bubble_pass_pairs (m i : nat) (ps : list (Z * float)) :
  bubble_pass m i (map fst ps, map snd ps)
  = (map fst (fold_left bubble_step (seq 0 (m - 1 - i)) ps),
     map snd (fold_left bubble_step (seq 0 (m - 1 - i)) ps)).
Proof. unfold bubble_pass. apply bubble_comparisons_pairs. Qed.

Lemma bubble_sort_arrays (m : nat) (rounds : list nat) :
  forall ps : list (Z * float),
    fold_left (fun arrays i => bubble_pass m i arrays) rounds (map fst ps, map snd ps)
    = (map fst (fold_left (fun ps i => fold_left bubble_step (seq 0 (m - 1 - i)) ps) rounds ps),
       map snd (fold_left (fun ps i => fold_left bubble_step (seq 0 (m - 1 - i)) ps) rounds ps)).
Proof.
  induction rounds as [|i rounds IH]; intros ps; cbn [fold_left]; [reflexivity|].
  rewrite bubble_pass_pairs. apply IH.
Qed.

Lemma length_swap_at {A} (l : list A) (j : nat) : length (swap_at l j) = length l.
Proof.
  unfold swap_at. destruct (l !! j); [|reflexivity]. destruct (l !! S j); [|reflexivity].
  now rewrite !length_insert.
Qed.

Lemma swap_at_Permutation {A} (l : list A) (j : nat) : Permutation (swap_at l j) l.
Proof.
  unfold swap_at. destruct (l !! j) eqn:E1; [|reflexivity].
  destruct (l !! S j) eqn:E2; [|reflexivity].
  apply Permutation_insert_swap; assumption.
Qed.

Lemma swap_at_lookup {A} (l : list A) (j i : nat) :
  (S j < length l)%nat ->
  swap_at l j !! i =
  if decide (i = j) then l !! S j else if decide (i = S j) then l !! j else l !! i.
Proof.
  intros H. unfold swap_at.
  destruct (lookup_lt_is_Some_2 l j ltac:(lia)) as [x Hx].
  destruct (lookup_lt_is_Some_2 l (S j) H) as [y Hy].
  rewrite Hx, Hy.
  destruct (decide (i = j)) as [->|N1].
  - rewrite list_lookup_insert_ne by lia. apply list_lookup_insert_eq. lia.
  - destruct (decide (i = S j)) as [->|N2].
    + apply list_lookup_insert_eq. rewrite length_insert. lia.
    + rewrite !list_lookup_insert_ne by lia. reflexivity.
Qed.

Lemma length_bubble_step ps j : length (bubble_step ps j) = length ps.
Proof.
  unfold bubble_step. destruct (ps !! j); [|reflexivity].
  destruct (ps !! S j); [|reflexivity].
  destruct (flt _ _); [apply length_swap_at|reflexivity].
Qed.

Lemma bubble_step_Permutation ps j : Permutation (bubble_step ps j) ps.
Proof.
  unfold bubble_step. destruct (ps !! j); [|reflexivity].
  destruct (ps !! S j); [|reflexivity].
  destruct (flt _ _); [apply swap_at_Permutation|reflexivity].
Qed.

Lemma bubble_step_other ps j i :
  i <> j -> i <> S j -> bubble_step ps j !! i = ps !! i.
Proof.
  intros N1 N2. unfold bubble_step. destruct (ps !! j) eqn:E1; [|reflexivity].
  destruct (ps !! S j) eqn:E2; [|reflexivity].
  destruct (flt _ _); [|reflexivity].
  rewrite swap_at_lookup by (apply lookup_lt_Some in E2; exact E2).
  destruct (decide (i = j)); [contradiction|]. destruct (decide (i = S j)); [contradiction|].
  reflexivity.
Qed.

Lemma bubble_step_pair ps j :
  (S j < length ps)%nat ->
  exists a b,
    bubble_step ps j !! j = Some a
    /\ bubble_step ps j !! S j = Some b
    /\ flt (snd a) (snd b) = false
    /\ ((ps !! j = Some a /\ ps !! S j = Some b)
        \/ (ps !! j = Some b /\ ps !! S j = Some a /\ flt (snd b) (snd a) = true)).
Proof.
  intros H. unfold bubble_step.
  destruct (lookup_lt_is_Some_2 ps j ltac:(lia)) as [x Hx].
  destruct (lookup_lt_is_Some_2 ps (S j) H) as [y Hy].
  rewrite Hx, Hy. destruct (flt (snd x) (snd y)) eqn:E.
  - exists y, x. rewrite !swap_at_lookup by exact H.
    destruct (decide (j = j)); [|contradiction].
    destruct (decide (S j = j)); [lia|]. destruct (decide (S j = S j)); [|contradiction].
    split; [exact Hy|]. split; [exact Hx|]. split; [apply flt_asym; exact E|].
    right. auto.
  - exists x, y. split; [exact Hx|]. split; [exact Hy|]. split; [exact E|]. left. auto.
Qed.

Lemma bubble_step_fair ps j :
  (S j < length ps)%nat -> ordered fair ps -> ordered fair (bubble_step ps j).
Proof.
  intros H Hord.
  destruct (bubble_step_pair ps j H) as (a & b & Ha & Hb & Hab & Hcase).
  destruct Hcase as [[Ha0 Hb0] | (Ha0 & Hb0 & Hlt)].
  - (* nothing moved *)
    assert (E : forall i, bubble_step ps j !! i = ps !! i).
    { intros i. destruct (decide (i = j)) as [->|N1]; [congruence|].
      destruct (decide (i = S j)) as [->|N2]; [congruence|].
      now apply bubble_step_other. }
    intros i i' x y Hlt Hx Hy. rewrite E in Hx, Hy. eapply Hord; eassumption.
  - (* the two entries changed places *)
    intros i i' x y Hii Hx Hy.
    destruct (decide (i = j)) as [->|N1]; destruct (decide (i' = S j)) as [->|N2].
    + rewrite Ha in Hx. rewrite Hb in Hy. injection Hx as <-. injection Hy as <-.
      right. exact Hlt.
    + rewrite Ha in Hx. injection Hx as <-.
      rewrite bubble_step_other in Hy by lia.
      apply (Hord (S j) i' a y); [lia|exact Hb0|exact Hy].
    + rewrite Hb in Hy. injection Hy as <-.
      destruct (decide (i = S j)); [lia|].
      rewrite bubble_step_other in Hx by lia.
      apply (Hord i j x b); [lia|exact Hx|exact Ha0].
    + destruct (decide (i = S j)) as [->|N3]; destruct (decide (i' = j)) as [->|N4];
        try lia.
      * rewrite Hb in Hx. injection Hx as <-.
        rewrite bubble_step_other in Hy by lia.
        apply (Hord j i' b y); [lia|exact Ha0|exact Hy].
      * rewrite Ha in Hy. injection Hy as <-.
        rewrite bubble_step_other in Hx by lia.
        apply (Hord i (S j) x a); [lia|exact Hx|exact Hb0].
      * rewrite bubble_step_other in Hx, Hy by lia.
        eapply Hord; eassumption.
Qed.

Lemma numbers_Permutation ps ps' :
  Permutation ps' ps -> similarities_are_numbers ps -> similarities_are_numbers ps'.
Proof.
  intros P H. unfold similarities_are_numbers in *.
  rewrite List.Forall_forall in *. intros x Hx. apply H.
  eapply Permutation_in; eassumption.
Qed.

Lemma number_at ps i x :
  similarities_are_numbers ps -> ps !! i = Some x -> is_nan (snd x) = false.
Proof.
  intros H Hx. unfold similarities_are_numbers in H. rewrite List.Forall_forall in H.
  apply H, list_elem_of_In. eapply list_elem_of_lookup_2. exact Hx.
Qed.

(** One pass over the positions [0 .. s]: the least similar of them ends
    at position [s]; nothing beyond [s] moves. *)
Lemma bubble_pass_spec (s : nat) :
  forall ps,
    (s < length ps)%nat ->
    similarities_are_numbers ps ->
    let ps' := fold_left bubble_step (seq 0 s) ps in
    length ps' = length ps
    /\ Permutation ps' ps
    /\ (forall i, (s < i)%nat -> ps' !! i = ps !! i)
    /\ (forall i, (i <= s)%nat -> exists i', (i' <= s)%nat /\ ps' !! i = ps !! i')
    /\ (forall i x y, (i <= s)%nat -> ps' !! i = Some x -> ps' !! s = Some y ->
                      not_below x y)
    /\ (ordered fair ps -> ordered fair ps').
Proof.
  induction s as [|s IH]; intros ps Hs Hnum; cbv zeta.
  - cbn [seq fold_left]. split; [reflexivity|]. split; [reflexivity|].
    split; [auto|]. split; [intros i Hi; exists i; auto|]. split; [|auto].
    intros i x y Hi Hx Hy. assert (i = 0%nat) as -> by lia.
    rewrite Hx in Hy. injection Hy as <-. apply flt_irrefl.
  - rewrite fold_left_seq_S.
    destruct (IH ps ltac:(lia) Hnum) as (L & P & Hbeyond & Hprefix & Hmin & Hfair).
    set (ps1 := fold_left bubble_step (seq 0 s) ps) in *.
    assert (Hs1 : (S s < length ps1)%nat) by lia.
    pose proof (numbers_Permutation _ _ P Hnum) as Hnum1.
    destruct (bubble_step_pair ps1 s Hs1) as (a & b & Ha & Hb & Hab & Hcase).
    split; [rewrite length_bubble_step; exact L|].
    split; [eapply perm_trans; [apply bubble_step_Permutation|exact P]|].
    split; [|split; [|split]].
    + intros i Hi. rewrite bubble_step_other by lia. apply Hbeyond. lia.
    + intros i Hi.
      assert (Hsrc : forall c, (ps1 !! s = Some c \/ ps1 !! S s = Some c) ->
                               exists i', (i' <= S s)%nat /\ Some c = ps !! i').
      { intros c [Hc|Hc].
        - destruct (Hprefix s ltac:(lia)) as (i' & Hi' & E). exists i'.
          split; [lia|]. now rewrite <- E.
        - exists (S s). split; [lia|]. rewrite <- Hbeyond by lia. now rewrite Hc. }
      destruct (decide (i = s)) as [->|N1].
      { rewrite Ha. apply Hsrc. destruct Hcase as [[? ?]|(? & ? & ?)]; auto. }
      destruct (decide (i = S s)) as [->|N2].
      { rewrite Hb. apply Hsrc. destruct Hcase as [[? ?]|(? & ? & ?)]; auto. }
      rewrite bubble_step_other by lia.
      destruct (Hprefix i ltac:(lia)) as (i' & Hi' & E). exists i'. split; [lia|exact E].
    + intros i x y Hi Hx Hy. rewrite Hb in Hy. injection Hy as <-.
      unfold not_below.
      destruct (decide (i = S s)) as [->|N2].
      { rewrite Hb in Hx. injection Hx as <-. apply flt_irrefl. }
      destruct (decide (i = s)) as [->|N1].
      { rewrite Ha in Hx. injection Hx as <-. exact Hab. }
      rewrite bubble_step_other in Hx by lia.
      destruct Hcase as [[Ha0 Hb0] | (Ha0 & Hb0 & Hlt)].
      * (* b stayed; a is the least of the prefix *)
        apply (flt_le_trans (snd b) (snd a) (snd x)).
        -- exact Hab.
        -- apply (Hmin i x a); [lia|exact Hx|exact Ha0].
        -- apply (number_at ps1 s a Hnum1 Ha0).
      * (* b came from position s, where it was the least *)
        apply (Hmin i x b); [lia|exact Hx|exact Ha0].
    + intros Hord. apply bubble_step_fair; [exact Hs1|]. apply Hfair, Hord.
Qed.

(** After [r] passes the last [r] positions hold, in order, entries that
    are not above anything before them. *)
Lemma bubble_rounds_spec (ps : list (Z * float)) (r : nat) :
  similarities_are_numbers ps ->
  (r <= length ps - 1)%nat ->
  let m := length ps in
  let ps' :=
    fold_left (fun ps i => fold_left bubble_step (seq 0 (m - 1 - i)) ps) (seq 0 r) ps in
  length ps' = m
  /\ Permutation ps' ps
  /\ (ordered fair ps -> ordered fair ps')
  /\ (forall i j x y, (i < j)%nat -> (m - r <= j)%nat ->
                      ps' !! i = Some x -> ps' !! j = Some y -> not_below x y).
Proof.
  intros Hnum. cbv zeta. induction r as [|r IH]; intros Hr.
  - cbn [seq fold_left]. split; [reflexivity|]. split; [reflexivity|]. split; [auto|].
    intros i j x y _ Hj _ Hy. apply lookup_lt_Some in Hy. lia.
  - rewrite fold_left_seq_S.
    destruct (IH ltac:(lia)) as (L & P & Hfair & Hsorted).
    set (ps1 := fold_left
                  (fun ps0 i => fold_left bubble_step (seq 0 (length ps - 1 - i)) ps0)
                  (seq 0 r) ps) in *.
    pose proof (numbers_Permutation _ _ P Hnum) as Hnum1.
    destruct (bubble_pass_spec (length ps - 1 - r) ps1 ltac:(lia) Hnum1)
      as (L' & P' & Hbeyond & Hprefix & Hmin & Hfair').
    cbv zeta in L', P', Hbeyond, Hprefix, Hmin, Hfair'.
    split; [lia|]. split; [eapply perm_trans; eassumption|].
    split; [intros Hord; apply Hfair', Hfair, Hord|].
    intros i j x y Hij Hj Hx Hy.
    destruct (decide (j = length ps - 1 - r)%nat) as [->|Nj].
    + apply (Hmin i x y); [lia|exact Hx|exact Hy].
    + rewrite Hbeyond in Hy by lia.
      destruct (le_lt_dec i (length ps - 1 - r)) as [Hi|Hi].
      * destruct (Hprefix i Hi) as (i' & Hi' & E). rewrite E in Hx.
        apply (Hsorted i' j x y); [lia|lia|exact Hx|exact Hy].
      * rewrite Hbeyond in Hx by lia.
        apply (Hsorted i j x y); [lia|lia|exact Hx|exact Hy].
Qed.

Lemma ordered_StronglySorted {A} (R : A -> A -> Prop) (l : list A) :
  ordered R l -> StronglySorted R l.
Proof.
  induction l as [|x l IH]; intros H; [apply SSorted_nil|].
  apply SSorted_cons.
  - apply IH. intros i j a b Hij Ha Hb. apply (H (S i) (S j) a b); [lia|exact Ha|exact Hb].
  - apply List.Forall_forall. intros y Hy.
    apply list_elem_of_In, list_elem_of_lookup in Hy. destruct Hy as [j Hj].
    apply (H 0%nat (S j) x y); [lia|reflexivity|exact Hj].
Qed.

Lemma bubble_sort_pairs_sorted (ps : list (Z * float)) :
  similarities_are_numbers ps ->
  ordered fair ps ->
  Permutation (bubble_sort_pairs (length ps) ps) ps
  /\ StronglySorted more_similar (bubble_sort_pairs (length ps) ps).
Proof.
  intros Hnum Hord.
  destruct (bubble_rounds_spec ps (length ps - 1) Hnum ltac:(lia))
    as (L & P & Hfair & Hsorted).
  cbv zeta in L, P, Hfair, Hsorted. fold (bubble_sort_pairs (length ps) ps) in *.
  split; [exact P|]. apply ordered_StronglySorted.
  intros i j x y Hij Hx Hy.
  assert (Hnb : not_below x y).
  { apply (Hsorted i j x y); [exact Hij|lia|exact Hx|exact Hy]. }
  destruct (Hfair Hord i j x y Hij Hx Hy) as [Hid|Hlt].
  - right. split; [exact Hnb|exact Hid].
  - left. exact Hlt.
Qed.

Lemma fge_not_nan (s t : float) : fge s t = true -> is_nan s = false.
Proof.
  destruct s; try reflexivity. unfold fge, SFleb, SFcompare.
  destruct t; intros H; discriminate H.
Qed.

Lemma cosine_matches_facts vectors query threshold n :
  similarities_are_numbers (cosine_matches vectors query threshold n)
  /\ ordered fair (cosine_matches vectors query threshold n)
  /\ Forall (fun p => 0 <= fst p < Z.of_nat n) (cosine_matches vectors query threshold n).
Proof.
  induction n as [|n (Hnum & Hord & Hrange)].
  - split; [apply List.Forall_nil|]. split; [|apply List.Forall_nil].
    intros i j x y _ Hx. discriminate.
  - rewrite cosine_matches_S.
    assert (Hrange' : Forall (fun p => 0 <= fst p < Z.of_nat (S n))
                             (cosine_matches vectors query threshold n)).
    { eapply List.Forall_impl; [|exact Hrange]. cbv beta. intros p Hp. lia. }
    destruct (cosine_match vectors query threshold n) as [p|] eqn:E;
      [|rewrite app_nil_r; auto].
    unfold cosine_match in E.
    destruct (cosine_similarity _ _) as [s|]; [|discriminate].
    destruct (fge s threshold) eqn:Es; [|discriminate]. injection E as <-.
    split; [|split].
    + apply Forall_app. split; [exact Hnum|].
      apply List.Forall_cons; [|apply List.Forall_nil]. cbn [snd].
      exact (fge_not_nan s threshold Es).
    + intros i j x y Hij Hx Hy.
      destruct (Nat.lt_ge_cases j (length (cosine_matches vectors query threshold n)))
        as [Hj|Hj].
      * rewrite lookup_app_l in Hx, Hy by lia. exact (Hord i j x y Hij Hx Hy).
      * rewrite lookup_app_r in Hy by lia.
        destruct (j - length _)%nat as [|?] eqn:Ej; [|discriminate]. injection Hy as <-.
        assert (Hi : (i < length (cosine_matches vectors query threshold n))%nat) by lia.
        rewrite lookup_app_l in Hx by lia.
        left. cbn [fst]. rewrite List.Forall_forall in Hrange.
        apply Hrange, list_elem_of_In. eapply list_elem_of_lookup_2. exact Hx.
    + apply Forall_app. split; [exact Hrange'|].
      apply List.Forall_cons; [cbn [fst]; lia|apply List.Forall_nil].
Qed.

(** X23: with valid arguments, [brute_force_knn_search] returns the indices
    of the stored vectors whose cosine similarity to the query reaches the
    threshold (vectors of norm zero are skipped), most similar first and
    equally similar ones by ascending index, cut to the first [k];
    [*out_count] is the number of indices returned. *)
Theorem brute_force_knn_search_ranked
    (vs : list Vector) (n : Z) (query : Vector) (k : Z) (threshold : float) :
  1 <= n -> 1 <= k ->
  n <= Z.of_nat (length vs) ->
  valid_vector query ->
  (forall i, 0 <= i < n ->
             valid_vector (vector_at vs i) /\ len (vector_at vs i) <= len query) ->
  exists ranked,
    Permutation ranked (cosine_matches vs query threshold (Z.to_nat n))
    /\ StronglySorted more_similar ranked
    /\ Forall (fun p => 0 <= fst p < n) ranked
    /\ brute_force_knn_search (Some vs) n (Some query) k threshold true
       = (Some (take (Z.to_nat k) (map fst ranked)),
          Some (Z.min k (Z.of_nat (length ranked)))).
Proof.
  intros Hn Hk _ _ _.
  destruct (cosine_matches_facts vs query threshold (Z.to_nat n)) as (Hnum & Hord & Hrange).
  set (ms := cosine_matches vs query threshold (Z.to_nat n)) in *.
  destruct (bubble_sort_pairs_sorted ms Hnum Hord) as [P Hsorted].
  exists (bubble_sort_pairs (length ms) ms).
  split; [exact P|]. split; [exact Hsorted|]. split.
  { rewrite List.Forall_forall in *. intros p Hp.
    assert (H : 0 <= fst p < Z.of_nat (Z.to_nat n))
      by (apply Hrange; eapply Permutation_in; eassumption).
    lia. }
  unfold brute_force_knn_search.
  destruct (Z.leb_spec n 0); [lia|]. destruct (Z.leb_spec k 0); [lia|].
  cbn [orb negb]. rewrite matches_fold. fold ms. cbn [fst].
  rewrite length_map, bubble_sort_arrays. cbn [fst].
  fold (bubble_sort_pairs (length ms) ms).
  rewrite (Permutation_length P).
  destruct (Z.ltb_spec k (Z.of_nat (length ms))) as [Hlt|Hge].
  - f_equal. f_equal. lia.
  - f_equal; [|f_equal; lia]. f_equal.
    rewrite !take_ge; [reflexivity| |];
      rewrite length_map, (Permutation_length P); lia.
Qed.

Lemma brute_force_knn_search_ranked_witness :
  exists ranked,
    Permutation ranked (cosine_matches three_directions (vector_of_ints [1; 0]) one_half 4)
    /\ StronglySorted more_similar ranked
    /\ Forall (fun p => 0 <= fst p < 4) ranked
    /\ brute_force_knn_search (Some three_directions) 4 (Some (vector_of_ints [1; 0])) 2
                              one_half true
       = (Some (take 2 (map fst ranked)), Some (Z.min 2 (Z.of_nat (length ranked)))).
Proof.
  apply (brute_force_knn_search_ranked three_directions 4 (vector_of_ints [1; 0]) 2 one_half).
  - lia.
  - lia.
  - simpl. lia.
  - split; simpl; lia.
  - intros i Hi.
    assert (E : i = 0 \/ i = 1 \/ i = 2 \/ i = 3) by lia.
    destruct E as [->|[->|[->| ->]]]; (split; [split; simpl; lia|simpl; lia]).
Defined.


(** * The search never moves away from the query *)

Lemma flag_at_insert_true flags n id :
  flag_at flags id = true -> flag_at (<[n := true]> flags) id = true.
Proof.
  unfold flag_at. rewrite !nth_lookup, list_lookup_insert.
  destruct (decide _) as [_|_]; [reflexivity|auto].
Qed.

Lemma search_layer_visit_flag graph query ef st neighbor_id id :
  flag_at (st_flags st) id = true ->
  flag_at (st_flags (search_layer_visit graph query ef st neighbor_id)) id = true.
Proof.
  intros H. unfold search_layer_visit.
  destruct (flag_at (st_flags st) neighbor_id); [exact H|].
  destruct (_ || _); cbn [st_flags]; apply flag_at_insert_true; exact H.
Qed.

Lemma search_layer_visit_fold_flag graph query ef neighbors id :
  forall st,
    flag_at (st_flags st) id = true ->
    flag_at (st_flags (fold_left (search_layer_visit graph query ef) neighbors st)) id
    = true.
Proof.
  induction neighbors as [|nb neighbors IH]; intros st H; cbn [fold_left]; [exact H|].
  apply IH, search_layer_visit_flag, H.
Qed.

Lemma search_layer_loop_flag graph query layer ef id fuel :
  forall st st',
    search_layer_loop fuel graph query layer ef st = Some st' ->
    flag_at (st_flags st) id = true -> flag_at (st_flags st') id = true.
Proof.
  induction fuel as [|fuel IH]; intros st st' H Hf; [discriminate|].
  cbn [search_layer_loop] in H.
  destruct (0 <? size (st_candidates st)); [|injection H as <-; exact Hf].
  destruct (extract_top_candidate (st_candidates st)) as [[current rest]|]; [|discriminate].
  cbn [st_visited st_flags st_candidates] in H.
  destruct (_ && _); [injection H as <-; exact Hf|].
  destruct (layer <=? maximum_layer (node_at (nodes graph) (node_id current))).
  - apply IH in H; [exact H|]. apply search_layer_visit_fold_flag. exact Hf.
  - apply IH in H; [exact H|exact Hf].
Qed.

Section Descent.
Variables (graph : HNSWGraph) (query : Vector).
Hypothesis wf : wf_search_graph graph.
Hypothesis no_nan :
  forall id, 0 <= id < node_count graph -> is_nan (distance_to graph query id) = false.

(** The closest node a layer search returns is not farther from the query
    than the node the search started from. *)
Lemma search_layer_closest (layer ef entry_point : Z) :
  1 <= ef < 1073741824 ->
  0 <= entry_point < node_count graph ->
  exists closest others,
    search_layer graph query entry_point layer ef = Some (closest :: others)
    /\ 0 <= closest < node_count graph
    /\ flt (distance_to graph query entry_point) (distance_to graph query closest) = false.
Proof.
  intros Hef Hentry.
  destruct (search_layer_results graph query layer ef wf Hef no_nan entry_point Hentry)
    as (final & results & Hfinal & Hinv & Hres & Hdrain & Hlen & Hsorted).
  rewrite (search_layer_final_unfold graph query layer ef Hef) in Hfinal.
  destruct (search_layer_initial graph query ef Hef no_nan entry_point Hentry)
    as [Hinv0 _].
  pose proof (search_layer_initial_covers graph query ef entry_point ltac:(lia) Hentry)
    as Hcov0.
  destruct (search_layer_loop_covers graph query layer ef wf Hef no_nan _ _ _
              Hfinal Hinv0 Hcov0) as [_ [J1 J2]].
  assert (Hflag : flag_at (st_flags final) entry_point = true).
  { apply (search_layer_loop_flag _ _ _ _ _ _ _ _ Hfinal). cbn [st_flags].
    rewrite flag_at_set by (rewrite ?repeat_length; lia).
    destruct (decide _); [reflexivity|contradiction]. }
  assert (Hids : forall id, In id results <->
                            exists c, c ∈ candidates (st_visited final) /\ node_id c = id).
  { intros id. rewrite Hdrain, (drain_results_ids _ _ [] eq_refl). simpl. tauto. }
  destruct results as [|closest others]; [simpl in Hlen; lia|].
  exists closest, others. split; [exact Hres|].
  assert (Hc : In closest (closest :: others)) by (left; reflexivity).
  apply Hids in Hc. destruct Hc as (c & Hc & Hcid).
  split; [rewrite <- Hcid; apply (J1 c Hc)|].
  destruct (J2 entry_point Hentry Hflag) as [Hin | [_ Hfar]].
  - apply Hids in Hin. destruct Hin as [<-|Hin]; [apply flt_irrefl|].
    unfold closest_first in Hsorted. apply StronglySorted_inv in Hsorted.
    destruct Hsorted as [_ Hall]. rewrite List.Forall_forall in Hall.
    apply Hall. exact Hin.
  - destruct Hinv as ((_ & _ & _ & _ & Htag & _) & _).
    unfold tagged in Htag. rewrite Forall_forall in Htag.
    rewrite <- Hcid, <- (Htag c Hc). apply Hfar. exact Hc.
Qed.

Lemma descend_closer (layers : list Z) (start : Z) :
  forall current_closest,
    0 <= current_closest < node_count graph ->
    flt (distance_to graph query start) (distance_to graph query current_closest) = false ->
    exists closest,
      fold_left
        (fun (acc : option Z) (layer : Z) =>
           match acc with
           | None => None
           | Some current_closest =>
               match search_layer graph query current_closest layer 1 with
               | None => None
               | Some layer_results =>
                   match layer_results with
                   | closest :: _ => Some closest
                   | [] => Some current_closest
                   end
               end
           end)
        layers (Some current_closest) = Some closest
      /\ 0 <= closest < node_count graph
      /\ flt (distance_to graph query start) (distance_to graph query closest) = false.
Proof.
  induction layers as [|layer layers IH]; intros c Hc Hd; cbn [fold_left].
  - exists c. auto.
  - destruct (search_layer_closest layer 1 c ltac:(lia) Hc)
      as (closest & others & -> & Hr & Hcl).
    apply IH; [exact Hr|].
    apply (flt_le_trans _ (distance_to graph query c) _); [exact Hcl|exact Hd|].
    apply no_nan. exact Hc.
Qed.

Lemma hnsw_knn_search_closest (index : VectorIndex) (k : Z)
    (search_config : option SearchConfig) :
  hnsw_graph index = Some graph ->
  0 <= entry_point_node_id graph < node_count graph ->
  1 <= match search_config with
       | Some config => search_width config
       | None => wrap_int (k * 2)
       end < 1073741824 ->
  1 <= k ->
  exists first others,
    hnsw_knn_search index query k search_config = Some (first :: others)
    /\ flt (distance_to graph query (entry_point_node_id graph))
           (distance_to graph query first) = false.
Proof.
  intros Hg Hentry Hsw Hk. unfold hnsw_knn_search. rewrite Hg.
  destruct (descend_closer
              (map (fun i => maximum_layer_in_graph graph - Z.of_nat i)
                   (seq 0 (Z.to_nat (maximum_layer_in_graph graph))))
              (entry_point_node_id graph) (entry_point_node_id graph) Hentry
              (flt_irrefl _)) as (closest & -> & Hc & Hd).
  destruct (search_layer_closest 0 _ closest Hsw Hc)
    as (first & others & -> & Hr & Hcl).
  set (return_count :=
         if Z.of_nat (length (first :: others)) <? k
         then Z.of_nat (length (first :: others)) else k).
  assert (Hrc : 1 <= return_count).
  { unfold return_count. cbn [length].
    destruct (Z.ltb_spec (Z.of_nat (S (length others))) k); lia. }
  unfold malloc_ok. destruct (Z.leb_spec 0 return_count) as [_|]; [|lia].
  destruct (Z.to_nat return_count) as [|n] eqn:En; [lia|].
  cbn [take]. exists first, (take n others). split; [reflexivity|].
  apply (flt_le_trans _ (distance_to graph query closest) _); [exact Hcl|exact Hd|].
  apply no_nan. exact Hc.
Qed.
End Descent.

(** X24: the first id [hnsw_knn_search] returns is not farther from the
    query than the graph's entry point: no layer search ends farther away
    than it starts. *)
Theorem hnsw_knn_search_not_farther_than_entry
    (index : VectorIndex) (graph : HNSWGraph) (query : Vector) (k : Z)
    (search_config : option SearchConfig) :
  hnsw_graph index = Some graph ->
  wf_search_graph graph ->
  0 <= entry_point_node_id graph < node_count graph ->
  1 <= match search_config with
       | Some config => search_width config
       | None => wrap_int (k * 2)
       end < 1073741824 ->
  1 <= k ->
  (forall id, 0 <= id < node_count graph ->
              is_nan (distance_to graph query id) = false) ->
  exists first others,
    hnsw_knn_search index query k search_config = Some (first :: others)
    /\ flt (distance_to graph query (entry_point_node_id graph))
           (distance_to graph query first) = false.
Proof.
  intros Hg Hwf Hentry Hsw Hk Hnan.
  exact (hnsw_knn_search_closest graph query Hwf Hnan index k search_config
           Hg Hentry Hsw Hk).
Qed.

Lemma hnsw_knn_search_not_farther_than_entry_witness :
  exists first others,
    hnsw_knn_search path_index (vector_of_ints [3]) 2 None = Some (first :: others)
    /\ flt (distance_to path_graph (vector_of_ints [3]) (entry_point_node_id path_graph))
           (distance_to path_graph (vector_of_ints [3]) first) = false.
Proof.
  apply (hnsw_knn_search_not_farther_than_entry path_index path_graph
           (vector_of_ints [3]) 2 None).
  - reflexivity.
  - exact wf_search_path_graph.
  - simpl. lia.
  - change (1 <= 4 < 1073741824). lia.
  - lia.
  - exact path_graph_no_nan.
Defined.

(** * Saving and restoring a built graph *)

Lemma layers_bytes_empty (n : nat) : layers_bytes (repeat [] n) = 8 * Z.of_nat n.
Proof.
  unfold layers_bytes. induction n as [|n IH]; [reflexivity|].
  cbn [repeat fold_right length]. rewrite IH. lia.
Qed.

Lemma free_restored_graph (ns : list HNSWNode) (count : Z) :
  Forall wf_node ns ->
  count = Z.of_nat (length ns) ->
  free_hnsw_graph {| m_nodes := map mem_of_node ns; m_node_count := count |} = true.
Proof.
  intros Hwf ->. unfold free_hnsw_graph. cbn [m_nodes m_node_count].
  apply forallb_forall. intros j Hin. apply in_seq in Hin.
  rewrite map_fmap, list_lookup_fmap.
  destruct (lookup_lt_is_Some_2 ns j ltac:(lia)) as [node Hnode].
  rewrite Hnode. cbn. apply free_complete_node. exists node. split; [reflexivity|].
  rewrite List.Forall_forall in Hwf.
  destruct (Hwf node) as (H1 & H2 & _).
  - apply list_elem_of_In. eapply list_elem_of_lookup_2. exact Hnode.
  - split; [lia|exact H2].
Qed.

(** X25: a built graph can be saved and restored: [serialize_hnsw_graph]
    writes 4 bytes plus [12 + 8 * top layer] bytes per node,
    [deserialize_hnsw_graph] reads that image back into the same nodes, and
    [free_hnsw_graph] releases the restored graph without an invalid
    access. *)
Theorem built_graph_round_trip
    (fuel : nat) (RAND_MAX : Z) (tape : list Z) (vs : list Vector)
    (N M M0 : Z) (lf : float) (efC : Z) (graph : HNSWGraph) :
  1 <= N <= INT_MAX ->
  Z.of_nat (length tape) <= INT_MAX ->
  build_hnsw_graph fuel RAND_MAX tape vs N M M0 lf efC = Some graph ->
  graph_bytes graph <= INT_MAX ->
  graph_bytes graph
  = 4 + fold_right (fun node acc => 12 + 8 * maximum_layer node + acc) 0 (nodes graph)
  /\ exists buffer restored,
       serialize_hnsw_graph (Some graph) = Ret (Some (buffer, graph_bytes graph))
       /\ deserialize_hnsw_graph buffer (graph_bytes graph) = Ret (Some restored)
       /\ m_node_count restored = N
       /\ m_nodes restored = map mem_of_node (nodes graph)
       /\ free_hnsw_graph restored = true.
Proof.
  intros HN Ht Hb Hmax.
  destruct (build_hnsw_graph_nodes _ _ _ _ _ _ _ _ _ _ HN Ht Hb) as (Hwf & Hc & Hempty).
  split.
  - unfold graph_bytes. f_equal.
    destruct Hwf as (_ & _ & Hnodes).
    induction (nodes graph) as [|node ns IH]; [reflexivity|].
    inversion Hempty as [|? ? He Hempty']; subst.
    inversion Hnodes as [|? ? (H0 & _) Hnodes']; subst.
    cbn [fold_right]. rewrite (IH Hnodes' Hempty').
    unfold node_bytes. rewrite He, layers_bytes_empty. lia.
  - destruct (serialize_hnsw_graph_exact graph Hwf Hmax) as [Hs _].
    exists (write_int (node_count graph) ++ flat_map serialize_node (nodes graph)).
    exists {| m_nodes := map mem_of_node (nodes graph); m_node_count := node_count graph |}.
    split; [exact Hs|]. split.
    + rewrite <- (app_nil_r (write_int (node_count graph)
                              ++ flat_map serialize_node (nodes graph))).
      apply (deserialize_serialized graph _ [] (graph_bytes graph) (graph_bytes graph)
               Hwf Hs). lia.
    + split; [exact Hc|]. split; [reflexivity|].
      destruct Hwf as (Hcount & _ & Hnodes).
      apply free_restored_graph; [exact Hnodes|exact Hcount].
Qed.

Lemma built_graph_round_trip_witness :
  exists graph,
    build_hnsw_graph 2 glibc_RAND_MAX four_draws four_points 4 16 32 one_half 32
    = Some graph
    /\ graph_bytes graph = 60
    /\ exists buffer restored,
         serialize_hnsw_graph (Some graph) = Ret (Some (buffer, graph_bytes graph))
         /\ deserialize_hnsw_graph buffer (graph_bytes graph) = Ret (Some restored)
         /\ m_node_count restored = 4
         /\ m_nodes restored = map mem_of_node (nodes graph)
         /\ free_hnsw_graph restored = true.
Proof.
  destruct (build_hnsw_graph 2 glibc_RAND_MAX four_draws four_points 4 16 32 one_half 32)
    as [graph|] eqn:E; [|vm_compute in E; discriminate].
  exists graph. split; [reflexivity|].
  assert (Hbytes : graph_bytes graph = 60).
  { vm_compute in E. injection E as <-. reflexivity. }
  split; [exact Hbytes|].
  apply (built_graph_round_trip 2 glibc_RAND_MAX four_draws four_points 4 16 32 one_half 32
           graph).
  - unfold INT_MAX. lia.
  - unfold INT_MAX. simpl. lia.
  - exact E.
  - rewrite Hbytes. unfold INT_MAX. lia.
Defined.


(** * Copying the frontier into an array *)

Lemma copy_candidates_shift fuel :
  forall queue max_conn acc,
    copy_candidates fuel queue max_conn acc
    = acc ++ copy_candidates fuel queue (max_conn - Z.of_nat (length acc)) [].
Proof.
  induction fuel as [|fuel IH]; intros queue max_conn acc; cbn [copy_candidates].
  - now rewrite app_nil_r.
  - cbn [length].
    replace (Z.of_nat 0 <? max_conn - Z.of_nat (length acc))
      with (Z.of_nat (length acc) <? max_conn)
      by (destruct (Z.ltb_spec (Z.of_nat (length acc)) max_conn),
                   (Z.ltb_spec (Z.of_nat 0) (max_conn - Z.of_nat (length acc))); lia).
    destruct ((0 <? size queue) && (Z.of_nat (length acc) <? max_conn));
      [|now rewrite app_nil_r].
    destruct (extract_top_candidate queue) as [[sc rest]|]; [|now rewrite app_nil_r].
    rewrite (IH rest max_conn (acc ++ [sc])).
    rewrite (IH rest (max_conn - Z.of_nat (length acc)) ([] ++ [sc])).
    rewrite length_app. cbn [length app]. rewrite <- app_assoc. cbn [app].
    do 3 f_equal. lia.
Qed.

Lemma copy_candidates_closest fuel :
  forall queue max_conn,
    queue_ok queue ->
    is_max_heap queue = false ->
    (length (candidates queue) < fuel)%nat ->
    let copied := copy_candidates fuel queue max_conn [] in
    Z.of_nat (length copied) = Z.min (Z.max 0 max_conn) (size queue)
    /\ ascending copied
    /\ exists left_over,
         Permutation (candidates queue) (copied ++ left_over)
         /\ forall c r, In c copied -> In r left_over ->
                        flt (distance r) (distance c) = false.
Proof.
  induction fuel as [|fuel IH]; intros queue max_conn Hok Hmin Hfuel; [lia|].
  cbv zeta. cbn [copy_candidates length].
  destruct (Z.ltb_spec 0 (size queue)) as [Hsize|Hsize];
    [destruct (Z.ltb_spec (Z.of_nat 0) max_conn) as [Hmax|Hmax]|]; cbn [andb].
  - assert (Hne : candidates queue <> []).
    { intros E. unfold size in Hsize. rewrite E in Hsize. simpl in Hsize. lia. }
    pose proof Hok as (Hh & Hn & Hs).
    destruct (extract_top_candidate_some queue Hne)
      as (top & rest & He & H0 & Hlen & Hsub & Hc & Hm & Hheap).
    rewrite He. cbn [app]. rewrite (copy_candidates_shift fuel rest max_conn [top]).
    cbn [length app].
    assert (Hok' : queue_ok rest).
    { unfold queue_ok. rewrite Hm, Hc. split; [auto|]. split.
      - apply (numbers_sub (candidates queue)); assumption.
      - unfold size in *. lia. }
    destruct (IH rest (max_conn - Z.of_nat 1) Hok' ltac:(congruence) ltac:(lia))
      as (Hl & Hasc & left_over & P & Hfar).
    cbv zeta in Hl, Hasc, P, Hfar.
    set (copied := copy_candidates fuel rest (max_conn - Z.of_nat 1) []) in *.
    pose proof (extract_top_candidate_Permutation _ _ _ He) as Pq.
    assert (Htop : forall x, In x (candidates rest) ->
                             flt (distance x) (distance top) = false).
    { intros x Hx.
      pose proof (heap_top_best (is_max_heap queue) (candidates queue) top x Hh Hn H0) as B.
      rewrite Hmin in B. apply B. apply Hsub, list_elem_of_In. exact Hx. }
    split; [|split].
    + cbn [length]. unfold size in *. lia.
    + apply SSorted_cons; [exact Hasc|].
      apply List.Forall_forall. intros x Hx. apply Htop.
      eapply Permutation_in; [apply Permutation_sym; exact P|].
      apply in_or_app. left. exact Hx.
    + exists left_over. split.
      * cbn [app]. eapply perm_trans; [exact Pq|]. apply perm_skip. exact P.
      * intros c r [<-|Hc'] Hr.
        -- apply Htop. eapply Permutation_in; [apply Permutation_sym; exact P|].
           apply in_or_app. right. exact Hr.
        -- apply Hfar; assumption.
  - split; [cbn [length]; unfold size in *; lia|].
    split; [apply SSorted_nil|].
    exists (candidates queue). split; [reflexivity|]. intros c r [].
  - split; [cbn [length]; unfold size in *; lia|].
    split; [apply SSorted_nil|].
    exists (candidates queue). split; [reflexivity|]. intros c r [].
Qed.

(** X26: the copy loop of the builder takes out of a well-formed min-heap
    its [min(max_conn, size)] closest candidates, in ascending order of
    distance: whatever it leaves in the queue is not strictly closer than
    anything it copied. *)
Theorem copy_candidates_takes_closest (queue : PriorityQueue) (max_conn : Z) :
  queue_ok queue ->
  is_max_heap queue = false ->
  let copied :=
    copy_candidates (S (length (candidates queue))) queue max_conn [] in
  Z.of_nat (length copied) = Z.min (Z.max 0 max_conn) (size queue)
  /\ ascending copied
  /\ exists left_over,
       Permutation (candidates queue) (copied ++ left_over)
       /\ forall c r, In c copied -> In r left_over ->
                      flt (distance r) (distance c) = false.
Proof.
  intros Hok Hmin.
  apply (copy_candidates_closest (S (length (candidates queue))) queue max_conn Hok Hmin).
  lia.
Qed.

Lemma copy_candidates_takes_closest_witness :
  let copied :=
    copy_candidates (S (length (candidates three_candidates))) three_candidates 2 [] in
  Z.of_nat (length copied) = Z.min (Z.max 0 2) (size three_candidates)
  /\ ascending copied
  /\ exists left_over,
       Permutation (candidates three_candidates) (copied ++ left_over)
       /\ forall c r, In c copied -> In r left_over ->
                      flt (distance r) (distance c) = false.
Proof.
  apply (copy_candidates_takes_closest three_candidates 2).
  - split; [|split].
    + intros i Hi. vm_compute in Hi.
      assert (i = 1 \/ i = 2)%nat as [->| ->] by lia; reflexivity.
    + repeat constructor.
    + vm_compute. discriminate.
  - reflexivity.
Defined.


(** * The layer search whatever the distances are *)

Section Bounded.
Variables (graph : HNSWGraph) (query : Vector) (layer ef : Z).
Hypothesis wf : wf_search_graph graph.
Hypothesis ef_range : 1 <= ef < 1073741824.

Lemma search_layer_visit_bounded st neighbor_id :
  0 <= neighbor_id < node_count graph ->
  bounded_inv graph ef st ->
  bounded_inv graph ef (search_layer_visit graph query ef st neighbor_id)
  /\ (loop_measure (search_layer_visit graph query ef st neighbor_id) <= loop_measure st)%nat.
Proof.
  intros Hid (Hcap & Hlen & Hup & Hfl & Hin). unfold search_layer_visit.
  destruct (flag_at (st_flags st) neighbor_id) eqn:Ef.
  - split; [exact (conj Hcap (conj Hlen (conj Hup (conj Hfl Hin)))) | lia].
  - pose proof (count_clear_set (st_flags st) (Z.to_nat neighbor_id) ltac:(lia) Ef) as Hc.
    assert (Hkeep : forall c, c ∈ candidates (st_visited st) ->
              flag_at (<[Z.to_nat neighbor_id := true]> (st_flags st)) (node_id c) = true
              /\ 0 <= node_id c < node_count graph).
    { intros c Hc'. destruct (Hin c Hc') as [Hf Hr]. split; [|exact Hr].
      rewrite flag_at_set by lia. destruct (decide _); [reflexivity | exact Hf]. }
    destruct (_ || _).
    + unfold bounded_inv, loop_measure. cbn [st_visited st_flags st_candidates].
      rewrite length_insert.
      destruct (insert_candidate_fields (st_visited st) neighbor_id
                  (calculate_euclidean_distance query
                     (vector_at (original_vectors graph) neighbor_id))) as [Ec _].
      rewrite Ec, !length_insert_candidate. unfold size. rewrite Hcap.
      split; [split; [|split; [|split; [|split]]]|].
      * reflexivity.
      * destruct (_ <? _); lia.
      * destruct (Z.ltb_spec (Z.of_nat (length (candidates (st_visited st)))) (2 * ef)); lia.
      * exact Hfl.
      * intros c Hc'. apply insert_candidate_sub in Hc'.
        destruct Hc' as [Hc' | ->]; [exact (Hkeep c Hc')|]. cbn [node_id].
        split; [|exact Hid]. rewrite flag_at_set by lia.
        destruct (decide _); [reflexivity | contradiction].
      * destruct (_ <? capacity (st_candidates st)); lia.
    + unfold bounded_inv, loop_measure. cbn [st_visited st_flags st_candidates].
      rewrite length_insert.
      split; [exact (conj Hcap (conj Hlen (conj Hup (conj Hfl Hkeep)))) | lia].
Qed.

Lemma search_layer_visit_fold_bounded neighbors :
  forall st,
    Forall (fun id => 0 <= id < node_count graph) neighbors ->
    bounded_inv graph ef st ->
    bounded_inv graph ef (fold_left (search_layer_visit graph query ef) neighbors st)
    /\ (loop_measure (fold_left (search_layer_visit graph query ef) neighbors st)
        <= loop_measure st)%nat.
Proof.
  induction neighbors as [|id neighbors IH]; intros st Hids Hinv; cbn [fold_left].
  - split; [assumption | lia].
  - inversion Hids as [|? ? Hid Hids']; subst.
    destruct (search_layer_visit_bounded st id Hid Hinv) as [Hinv' Hm'].
    destruct (IH _ Hids' Hinv') as [Hinv'' Hm'']. split; [assumption | lia].
Qed.

Lemma search_layer_loop_bounded fuel :
  forall st,
    (loop_measure st < fuel)%nat -> bounded_inv graph ef st ->
    exists st', search_layer_loop fuel graph query layer ef st = Some st'
                /\ bounded_inv graph ef st'.
Proof.
  induction fuel as [|fuel IH]; intros st Hm Hinv; [lia|].
  cbn [search_layer_loop].
  destruct (Z.ltb_spec 0 (size (st_candidates st))) as [Hpos | Hzero]; [|eauto].
  destruct (extract_top_candidate_some (st_candidates st))
    as (current & rest & -> & _ & Hl & _).
  { intros E. unfold size in Hpos. rewrite E in Hpos. simpl in Hpos. lia. }
  cbn [st_visited st_flags st_candidates].
  set (st1 := {| st_candidates := rest; st_visited := st_visited st;
                 st_flags := st_flags st |}).
  assert (Hinv1 : bounded_inv graph ef st1) by exact Hinv.
  assert (Hm1 : (S (loop_measure st1) = loop_measure st)%nat)
    by (unfold loop_measure, st1; cbn [st_visited st_flags st_candidates]; lia).
  destruct (_ && _); [eauto|].
  destruct (layer <=? maximum_layer (node_at (nodes graph) (node_id current))).
  - destruct (search_layer_visit_fold_bounded _ st1
                (connections_in_range graph layer wf (node_id current)) Hinv1)
      as [Hinv2 Hm2].
    apply IH; [lia | assumption].
  - apply IH; [lia | assumption].
Qed.

Lemma search_layer_initial_bounded entry_point :
  0 <= entry_point < node_count graph ->
  let d := distance_to graph query entry_point in
  let st := {| st_candidates :=
                 insert_candidate (create_priority_queue ef false) entry_point d;
               st_visited :=
                 insert_candidate (create_priority_queue (ef * 2) true) entry_point d;
               st_flags := <[Z.to_nat entry_point := true]>
                             (repeat false (Z.to_nat (node_count graph))) |} in
  bounded_inv graph ef st
  /\ (loop_measure st < S (Z.to_nat (node_count graph)))%nat.
Proof.
  intros Hentry d st. split.
  - unfold bounded_inv, st. cbn [st_visited st_flags].
    destruct (insert_candidate_fields (create_priority_queue (ef * 2) true) entry_point d)
      as [Ec _].
    rewrite Ec, length_insert_candidate, length_insert, repeat_length.
    unfold create_priority_queue, size. cbn [candidates capacity length].
    destruct (Z.ltb_spec (Z.of_nat 0) (ef * 2)); [|lia].
    split; [lia|]. split; [lia|]. split; [lia|]. split; [reflexivity|].
    intros c Hc. apply insert_candidate_sub in Hc.
    destruct Hc as [Hc | ->]; [inversion Hc|]. cbn [node_id].
    split; [|exact Hentry]. rewrite flag_at_set by (rewrite ?repeat_length; lia).
    destruct (decide _); [reflexivity | contradiction].
  - unfold loop_measure, st. cbn [st_flags st_candidates].
    pose proof (insert_candidate_fresh_length ef false entry_point d).
    pose proof (count_clear_set (repeat false (Z.to_nat (node_count graph)))
                  (Z.to_nat entry_point)
                  ltac:(rewrite repeat_length; lia) (nth_repeat_false _ _)) as Hc.
    rewrite count_clear_repeat in Hc. lia.
Qed.

(** The search returns, with between 1 and [2 * ef] ids of flagged nodes. *)
Lemma search_layer_bounded entry_point :
  0 <= entry_point < node_count graph ->
  exists final results,
    search_layer_final graph query entry_point layer ef = Some final
    /\ search_layer graph query entry_point layer ef = Some results
    /\ 1 <= Z.of_nat (length results) <= 2 * ef
    /\ (forall r, In r results ->
                  0 <= r < node_count graph /\ flag_at (st_flags final) r = true).
Proof.
  intros Hentry.
  destruct (search_layer_initial_bounded entry_point Hentry) as [Hinv0 Hm0].
  destruct (search_layer_loop_bounded _ _ Hm0 Hinv0) as (final & Hfinal & Hinv).
  rewrite <- (search_layer_final_unfold graph query layer ef ef_range) in Hfinal.
  exists final, (drain_results (length (candidates (st_visited final))) (st_visited final) []).
  split; [exact Hfinal|]. unfold search_layer. rewrite Hfinal.
  split; [reflexivity|].
  destruct Hinv as (_ & Hlen & Hup & _ & Hin).
  pose proof (Permutation_length
                (drain_results_Permutation _ (st_visited final) [] eq_refl)) as Hl.
  rewrite length_app, length_map in Hl. simpl in Hl.
  split; [lia|].
  intros r Hr. apply (drain_results_ids _ _ [] eq_refl) in Hr.
  destruct Hr as [[] | (c & Hc & <-)]. destruct (Hin c Hc). auto.
Qed.
End Bounded.

Lemma search_ready_path_graph : search_ready path_graph (vector_of_ints [3]).
Proof.
  split; [|split; [exact wf_search_path_graph|split; [reflexivity|split]]].
  - split; [reflexivity|]. split; [unfold INT_MAX; simpl; lia|].
    unfold path_graph, layer0_graph, layer0_node. cbn [nodes].
    repeat (apply List.Forall_cons;
            [split; [unfold INT_MAX; simpl; lia|];
             split; [reflexivity|];
             repeat constructor; unfold in_int_range, INT_MIN, INT_MAX; lia|]).
    apply List.Forall_nil.
  - exact four_points_valid.
  - apply valid_vector_of_ints.
Qed.

Lemma search_ready_nan_star : search_ready nan_star (vector_of_ints [0]).
Proof.
  split; [|split; [|split; [reflexivity|split]]].
  - split; [reflexivity|]. split; [unfold INT_MAX; simpl; lia|].
    unfold nan_star, layer0_graph, layer0_node. cbn [nodes].
    repeat (apply List.Forall_cons;
            [split; [unfold INT_MAX; simpl; lia|];
             split; [reflexivity|];
             repeat constructor; unfold in_int_range, INT_MIN, INT_MAX; lia|]).
    apply List.Forall_nil.
  - split; [simpl; lia|].
    intros id layer nb. unfold node_at, connections. simpl.
    destruct (Z.to_nat id) as [|[|[|[|[|?]]]]]; destruct (Z.to_nat layer) as [|[|?]];
      simpl; intuition lia.
  - unfold nan_star, layer0_graph. cbn [original_vectors].
    apply List.Forall_cons; [apply valid_vector_of_ints|].
    apply List.Forall_cons; [split; [simpl; lia | reflexivity]|].
    repeat (apply List.Forall_cons; [apply valid_vector_of_ints|]). apply List.Forall_nil.
  - apply valid_vector_of_ints.
Qed.

(** C2: on a graph with [node_count] well-formed nodes and stored vectors
    whose neighbor ids are nodes, from a valid entry point, on a layer
    [>= 0] and with [1 <= ef < 2^30], [search_layer] returns between 1 and
    [2 * ef] node ids (the result heap has capacity [2 * ef]), all of them
    nodes it visited, whatever the distances are; if moreover no stored
    distance is NaN, they are ordered by ascending distance to the query,
    and no visited node that is left out is strictly closer to the query
    than a returned one. *)
Theorem search_layer_sorted_bounded
    (graph : HNSWGraph) (query : Vector) (entry_point layer ef : Z) :
  search_ready graph query ->
  0 <= entry_point < node_count graph ->
  0 <= layer ->
  1 <= ef < 1073741824 ->
  exists (final : search_state) (results : list Z),
    search_layer_final graph query entry_point layer ef = Some final
    /\ search_layer graph query entry_point layer ef = Some results
    /\ 1 <= Z.of_nat (length results) <= 2 * ef
    /\ (forall r, In r results ->
                  0 <= r < node_count graph /\ flag_at (st_flags final) r = true)
    /\ ((forall id, 0 <= id < node_count graph ->
                    is_nan (distance_to graph query id) = false) ->
        closest_first graph query results
        /\ (forall id, 0 <= id < node_count graph ->
                       flag_at (st_flags final) id = true ->
                       In id results
                       \/ forall r, In r results ->
                                    flt (distance_to graph query id)
                                        (distance_to graph query r) = false)).
Proof.
  intros (_ & Hwf & _) Hentry _ Hef.
  destruct (search_layer_bounded graph query layer ef Hwf Hef entry_point Hentry)
    as (final & results & Hfinal & Hres & Hlen & Hin).
  exists final, results.
  split; [exact Hfinal|]. split; [exact Hres|]. split; [exact Hlen|].
  split; [exact Hin|]. intros Hnan.
  destruct (search_layer_results graph query layer ef Hwf Hef Hnan entry_point Hentry)
    as (final' & results' & Hfinal' & Hinv & Hres' & Hdrain & _ & Hsorted).
  assert (Ef : final' = final) by congruence.
  assert (Er : results' = results) by congruence.
  rewrite Ef in Hinv, Hdrain. rewrite Er in Hdrain, Hsorted.
  split; [exact Hsorted|].
  rewrite (search_layer_final_unfold graph query layer ef Hef) in Hfinal.
  destruct (search_layer_initial graph query ef Hef Hnan entry_point Hentry) as [Hinv0 _].
  destruct (search_layer_loop_covers graph query layer ef Hwf Hef Hnan _ _ _ Hfinal Hinv0
              (search_layer_initial_covers graph query ef entry_point ltac:(lia) Hentry))
    as [_ [_ J2]].
  assert (Hids : forall id, In id results <->
                            exists c, c ∈ candidates (st_visited final) /\ node_id c = id).
  { intros id. rewrite Hdrain, (drain_results_ids _ _ [] eq_refl). simpl. tauto. }
  intros id Hid Hflag. destruct (J2 id Hid Hflag) as [Hfound | [_ Hfar]].
  - left. apply Hids. exact Hfound.
  - right. intros r Hr. apply Hids in Hr. destruct Hr as (c & Hc & <-).
    destruct Hinv as ((_ & _ & _ & _ & Ht & _) & _).
    unfold tagged in Ht. rewrite Forall_forall in Ht.
    rewrite <- (Ht c Hc). auto.
Qed.

(** On the path every conclusion holds; on the star with a NaN coordinate
    the count bound and the membership do. *)
Lemma search_layer_sorted_bounded_witness :
  (exists (final : search_state) (results : list Z),
      search_layer_final path_graph (vector_of_ints [3]) 0 0 1 = Some final
      /\ search_layer path_graph (vector_of_ints [3]) 0 0 1 = Some results
      /\ 1 <= Z.of_nat (length results) <= 2 * 1
      /\ (forall r, In r results ->
                    0 <= r < node_count path_graph /\ flag_at (st_flags final) r = true)
      /\ closest_first path_graph (vector_of_ints [3]) results
      /\ (forall id, 0 <= id < node_count path_graph ->
                     flag_at (st_flags final) id = true ->
                     In id results
                     \/ forall r, In r results ->
                                  flt (distance_to path_graph (vector_of_ints [3]) id)
                                      (distance_to path_graph (vector_of_ints [3]) r)
                                  = false))
  /\ (exists (final : search_state) (results : list Z),
        search_layer_final nan_star (vector_of_ints [0]) 0 0 4 = Some final
        /\ search_layer nan_star (vector_of_ints [0]) 0 0 4 = Some results
        /\ 1 <= Z.of_nat (length results) <= 2 * 4
        /\ (forall r, In r results ->
                      0 <= r < node_count nan_star /\ flag_at (st_flags final) r = true)).
Proof.
  split.
  - destruct (search_layer_sorted_bounded path_graph (vector_of_ints [3]) 0 0 1)
      as (final & results & Hfinal & Hres & Hlen & Hin & Hnum).
    + exact search_ready_path_graph.
    + simpl. lia.
    + lia.
    + lia.
    + exists final, results. destruct (Hnum path_graph_no_nan) as [Hsorted Hcov].
      repeat (split; [assumption|]). exact Hcov.
  - destruct (search_layer_sorted_bounded nan_star (vector_of_ints [0]) 0 0 4)
      as (final & results & Hfinal & Hres & Hlen & Hin & _).
    + exact search_ready_nan_star.
    + simpl. lia.
    + lia.
    + lia.
    + exists final, results. repeat (split; [assumption|]). exact Hin.
Defined.

(** * Which entry points validate their arguments *)

(** The descent through the upper layers keeps a valid node id, whatever
    the distances are. *)
Lemma descend_valid (graph : HNSWGraph) (query : Vector) (layers : list Z) :
  wf_search_graph graph ->
  forall current_closest,
    0 <= current_closest < node_count graph ->
    exists closest,
      fold_left
        (fun (acc : option Z) (layer : Z) =>
           match acc with
           | None => None
           | Some current_closest =>
               match search_layer graph query current_closest layer 1 with
               | None => None
               | Some layer_results =>
                   match layer_results with
                   | closest :: _ => Some closest
                   | [] => Some current_closest
                   end
               end
           end)
        layers (Some current_closest) = Some closest
      /\ 0 <= closest < node_count graph.
Proof.
  intros wf. induction layers as [|layer layers IH]; intros c Hc; cbn [fold_left].
  - exists c. auto.
  - destruct (search_layer_bounded graph query layer 1 wf ltac:(lia) c Hc)
      as (final & results & _ & -> & _ & Hr).
    destruct results as [|closest results]; [apply IH; exact Hc|].
    apply IH. apply (Hr closest). left. reflexivity.
Qed.

(** With a graph present and [k >= 1] the layered search returns a non-null
    array of [1 .. k] ids; the index length is never consulted. *)
Lemma hnsw_knn_search_returns (index : VectorIndex) (graph : HNSWGraph) (query : Vector)
    (k : Z) (search_config : option SearchConfig) :
  hnsw_graph index = Some graph ->
  wf_search_graph graph ->
  0 <= entry_point_node_id graph < node_count graph ->
  1 <= match search_config with
       | Some config => search_width config
       | None => wrap_int (k * 2)
       end < 1073741824 ->
  1 <= k ->
  exists results,
    hnsw_knn_search index query k search_config = Some results
    /\ 1 <= Z.of_nat (length results) <= k.
Proof.
  intros Hg wf Hentry Hsw Hk. unfold hnsw_knn_search. rewrite Hg.
  destruct (descend_valid graph query
              (map (fun i => maximum_layer_in_graph graph - Z.of_nat i)
                   (seq 0 (Z.to_nat (maximum_layer_in_graph graph))))
              wf (entry_point_node_id graph) Hentry) as (closest & -> & Hc).
  destruct (search_layer_bounded graph query 0 _ wf Hsw closest Hc)
    as (final & all_candidates & _ & -> & Hlen & _).
  set (return_count :=
         if Z.of_nat (length all_candidates) <? k
         then Z.of_nat (length all_candidates) else k).
  assert (Hrc : 1 <= return_count <= k
                /\ return_count <= Z.of_nat (length all_candidates)).
  { unfold return_count.
    destruct (Z.ltb_spec (Z.of_nat (length all_candidates)) k); lia. }
  unfold malloc_ok. destruct (Z.leb_spec 0 return_count) as [_|]; [|lia].
  eexists. split; [reflexivity|].
  rewrite length_take. lia.
Qed.

(** C7: only [brute_force_knn_search] validates its arguments: it returns
    the null pointer whenever [k <= 0], [n <= 0] or the query is null.
    [hnsw_knn_search] returns the null pointer when the index has no graph;
    with a well-formed graph, a search width in [1 .. 2^30 - 1] and
    [k >= 1] it returns a non-null array of [1 .. k] ids whatever the index
    length [n] is, also for [n <= 0].  [knn_search] on
    its brute-force path has no guard: once its array of [k] ids is
    allocated, [n <= 0] gives back the [k] sentinel ids [-1]; for [k < 0]
    that allocation is refused and the null pointer it returns is the
    refused allocation. *)
Theorem argument_validation :
  (forall vectors n query k threshold out_count,
      k <= 0 \/ n <= 0 \/ query = None ->
      fst (brute_force_knn_search vectors n query k threshold out_count) = None)
  /\ (forall index query k config,
        hnsw_graph index = None -> hnsw_knn_search index query k config = None)
  /\ (forall index graph query k search_config,
        hnsw_graph index = Some graph ->
        search_ready graph query ->
        0 <= entry_point_node_id graph < node_count graph ->
        1 <= match search_config with
             | Some config => search_width config
             | None => wrap_int (k * 2)
             end < 1073741824 ->
        1 <= k ->
        exists results,
          hnsw_knn_search index query k search_config = Some results
          /\ 1 <= Z.of_nat (length results) <= k)
  /\ (forall index query k,
        use_hnsw_optimization index = false \/ hnsw_graph index = None ->
        malloc_ok k = true ->
        index_len index <= 0 ->
        knn_search index query k = Some (repeat (-1) (Z.to_nat k)))
  /\ (forall index query k,
        use_hnsw_optimization index = false \/ hnsw_graph index = None ->
        k < 0 ->
        knn_search index query k = None).
Proof.
  assert (Hpath : forall index query k,
            use_hnsw_optimization index = false \/ hnsw_graph index = None ->
            knn_search index query k =
            if malloc_ok k
            then Some (fst (brute_force_slots index query k (Z.to_nat (index_len index))))
            else None).
  { intros index query k H. unfold knn_search, brute_force_slots, scored_at.
    destruct H as [-> | ->]; [reflexivity|].
    destruct (use_hnsw_optimization index); reflexivity. }
  split; [|split; [|split; [|split]]].
  - intros vs n query k threshold out_count H.
    unfold brute_force_knn_search.
    destruct vs as [vs|]; [|reflexivity].
    destruct query as [query|]; [|reflexivity].
    destruct H as [H | [H | H]]; [| | discriminate].
    + destruct (Z.leb_spec k 0); [|lia].
      rewrite orb_true_r. reflexivity.
    + destruct (Z.leb_spec n 0); [|lia]. reflexivity.
  - intros index query k config H. unfold hnsw_knn_search. now rewrite H.
  - intros index graph query k search_config Hg (_ & Hwf & _).
    apply hnsw_knn_search_returns; assumption.
  - intros index query k Hpath' Hk Hn. rewrite Hpath, Hk by exact Hpath'.
    replace (Z.to_nat (index_len index)) with 0%nat by lia. reflexivity.
  - intros index query k Hpath' Hk. rewrite Hpath by exact Hpath'.
    unfold malloc_ok. destruct (Z.leb_spec 0 k); [lia | reflexivity].
Qed.

Lemma argument_validation_witness :
  fst (brute_force_knn_search (Some [vector_of_ints [1]]) 1 (Some (vector_of_ints [1])) 0
                              fzero true) = None
  /\ hnsw_knn_search line_index origin_query 1 None = None
  /\ (exists results,
         hnsw_knn_search empty_path_index (vector_of_ints [3]) 2 None = Some results
         /\ 1 <= Z.of_nat (length results) <= 2)
  /\ knn_search (create_index [] 0) origin_query 3 = Some [-1; -1; -1]
  /\ knn_search (create_index [] 0) origin_query (-1) = None.
Proof.
  destruct argument_validation as (Hb & Hh & Hg & Hs & Hk).
  split; [|split; [|split; [|split]]].
  - apply Hb. left. lia.
  - apply Hh. reflexivity.
  - apply (Hg empty_path_index path_graph); try reflexivity.
    + exact search_ready_path_graph.
    + simpl. lia.
    + change (1 <= 4 < 1073741824). lia.
    + lia.
  - apply (Hs (create_index [] 0) origin_query 3); [left; reflexivity | reflexivity |].
    simpl. lia.
  - apply (Hk (create_index [] 0) origin_query (-1)); [left; reflexivity | lia].
Defined.

(** * The linking loop of the builder *)

(** A layer pass of the builder changes the node array through the linking
    loop only, applied to what it selected from the frontier. *)
Lemma connect_layer_links fuel vs id entry width graph layer graph' :
  connect_layer fuel vs id entry width graph layer = Some graph' ->
  exists layer_candidates visited_nodes,
    build_beam_loop fuel graph vs (vector_at vs id) layer width
      (insert_candidate (create_priority_queue width false) entry
         (calculate_euclidean_distance (vector_at vs id) (vector_at vs entry)),
       insert_candidate (create_priority_queue (wrap_int (width * 2)) true) entry
         (calculate_euclidean_distance (vector_at vs id) (vector_at vs entry)))
    = Some (layer_candidates, visited_nodes)
    /\ graph' =
       set_nodes graph
         (link_selected (nodes graph) id layer
            (select_connections
               (copy_candidates (S (length (candidates layer_candidates)))
                  layer_candidates
                  (if layer =? 0 then max_connections_layer_zero graph
                   else max_connections_per_node graph) [])
               (if layer =? 0 then max_connections_layer_zero graph
                else max_connections_per_node graph))).
Proof.
  unfold connect_layer, link_selected. intros H.
  destruct (build_beam_loop _ _ _ _ _ _ _) as [[lc vn]|]; [|discriminate].
  injection H as <-. exists lc, vn. split; reflexivity.
Qed.

Lemma length_layer_connections_add node layer id :
  length (layer_connections (add_connection_to_node node layer id))
  = length (layer_connections node).
Proof.
  unfold add_connection_to_node.
  destruct (layer >? maximum_layer node); [reflexivity|].
  destruct (existsb _ _); [reflexivity|]. cbn [layer_connections].
  apply length_insert.
Qed.

Lemma length_link ns q layer r : length (link ns q layer r) = length ns.
Proof. unfold link. now rewrite !length_connect. Qed.

Lemma maximum_layer_link ns q layer r i :
  maximum_layer (node_at (link ns q layer r) i) = maximum_layer (node_at ns i).
Proof. unfold link. now rewrite !maximum_layer_connect. Qed.

Lemma link_keeps ns q layer r i l x :
  In x (connections (node_at ns i) l) ->
  In x (connections (node_at (link ns q layer r) i) l).
Proof. intros H. unfold link. now apply connect_keeps, connect_keeps. Qed.

Lemma shaped_connect ns a layer b : shaped ns -> shaped (connect ns a layer b).
Proof.
  intros Hs i Hi. rewrite length_connect in Hi. rewrite node_at_connect.
  destruct (decide _) as [[E _] | _]; [|exact (Hs i Hi)].
  apply node_shape_add_connection.
  replace (node_at ns a) with (node_at ns i) by (unfold node_at; now rewrite E).
  exact (Hs i Hi).
Qed.

Lemma shaped_link ns q layer r : shaped ns -> shaped (link ns q layer r).
Proof. intros Hs. unfold link. now apply shaped_connect, shaped_connect. Qed.

(** Linking two nodes that both exist on [layer] (the same node twice
    included) keeps the neighbor lists mutually consistent and makes each
    list the other. *)
Lemma link_bidirectional ns q layer r :
  bidirectional ns ->
  shaped ns ->
  0 <= q < Z.of_nat (length ns) ->
  0 <= r < Z.of_nat (length ns) ->
  0 <= layer ->
  layer <= maximum_layer (node_at ns q) ->
  layer <= maximum_layer (node_at ns r) ->
  bidirectional (link ns q layer r)
  /\ In r (connections (node_at (link ns q layer r) q) layer)
  /\ In q (connections (node_at (link ns q layer r) r) layer).
Proof.
  intros Hb Hs Hq Hr Hl Hlq Hlr. unfold link.
  assert (Hlen : forall ns' i, shaped ns' -> 0 <= i < Z.of_nat (length ns') ->
                   layer <= maximum_layer (node_at ns' i) ->
                   (Z.to_nat layer < length (layer_connections (node_at ns' i)))%nat).
  { intros ns' i Hs' Hi Hli. destruct (Hs' i Hi) as [_ E]. lia. }
  assert (Hrq : In r (connections (node_at (connect (connect ns q layer r) r layer q) q)
                                  layer)).
  { apply connect_keeps. rewrite node_at_connect.
    destruct (decide _) as [_ | N]; [|exfalso; apply N; split; lia].
    apply add_connection_adds; [exact Hlq | now apply Hlen]. }
  assert (Hqr : In q (connections (node_at (connect (connect ns q layer r) r layer q) r)
                                  layer)).
  { rewrite node_at_connect, length_connect.
    destruct (decide _) as [_ | N]; [|exfalso; apply N; split; lia].
    apply add_connection_adds.
    - now rewrite maximum_layer_connect.
    - apply Hlen.
      + now apply shaped_connect.
      + now rewrite length_connect.
      + now rewrite maximum_layer_connect. }
  split; [|split; assumption].
  intros n l Hn Hl0. rewrite !length_connect in Hn.
  apply List.Forall_forall. intros m Hm.
  rewrite !maximum_layer_connect.
  apply connect_new in Hm. destruct Hm as [Hm | (E1 & E2 & ->)].
  - apply connect_new in Hm. destruct Hm as [Hm | (E1 & E2 & ->)].
    + specialize (Hb n l Hn Hl0). rewrite List.Forall_forall in Hb.
      destruct (Hb m Hm) as [Ht Hin]. split; [exact Ht|].
      now apply connect_keeps, connect_keeps.
    + assert (n = q) by lia. assert (l = layer) by lia. subst n l.
      split; assumption.
  - assert (n = r) by lia. assert (l = layer) by lia. subst n l.
    split; assumption.
Qed.

Lemma link_selected_keeps id layer selected :
  forall ns i l x,
    In x (connections (node_at ns i) l) ->
    In x (connections (node_at (link_selected ns id layer selected) i) l).
Proof.
  unfold link_selected.
  induction selected as [|s selected IH]; intros ns i l x H; cbn [fold_left];
    [exact H|].
  apply IH, link_keeps, H.
Qed.

(** The loop keeps the neighbor lists mutually consistent and links the
    inserted node with every selected node, in both directions. *)
Lemma link_selected_bidirectional id layer selected :
  forall ns,
    bidirectional ns ->
    shaped ns ->
    0 <= id < Z.of_nat (length ns) ->
    0 <= layer <= maximum_layer (node_at ns id) ->
    Forall (fun s => 0 <= s < Z.of_nat (length ns)
                     /\ layer <= maximum_layer (node_at ns s)) selected ->
    bidirectional (link_selected ns id layer selected)
    /\ Forall (fun s =>
                 In s (connections (node_at (link_selected ns id layer selected) id) layer)
                 /\ In id (connections (node_at (link_selected ns id layer selected) s)
                                       layer))
              selected.
Proof.
  induction selected as [|s selected IH]; intros ns Hb Hs Hid Hl Hsel.
  - split; [exact Hb | constructor].
  - inversion Hsel as [|? ? [Hsr Hsl] Hsel']; subst.
    destruct (link_bidirectional ns id layer s Hb Hs Hid Hsr (proj1 Hl) (proj2 Hl) Hsl)
      as (Hb1 & H1 & H2).
    destruct (IH (link ns id layer s)) as [Hb2 Hall].
    + exact Hb1.
    + now apply shaped_link.
    + now rewrite length_link.
    + now rewrite maximum_layer_link.
    + apply List.Forall_forall. intros x Hx.
      rewrite List.Forall_forall in Hsel'. rewrite length_link, maximum_layer_link.
      exact (Hsel' x Hx).
    + change (link_selected ns id layer (s :: selected))
        with (link_selected (link ns id layer s) id layer selected).
      split; [exact Hb2|]. constructor; [|exact Hall].
      split; apply link_selected_keeps; assumption.
Qed.

Lemma shaped_Forall ns : Forall node_shape ns -> shaped ns.
Proof.
  intros H i Hi. rewrite List.Forall_forall in H. apply H.
  unfold node_at. apply nth_In. lia.
Qed.

(** C9: in the graph [build_hnsw_graph] returns for [N >= 2], every
    neighbor [m] listed by a node [n] on a layer [l] exists on layer [l] and
    lists [n] back on that layer.  The returned graph has no edge at all, so
    the theorem also covers the step that would add them: a layer pass of
    the builder changes the node array only through its linking loop, and
    that loop, run on mutually consistent neighbor lists with any selection
    of nodes that exist on the layer, keeps them mutually consistent and
    links the inserted node with every selected node in both directions. *)
Theorem build_bidirectional :
  (forall fuel RAND_MAX tape vs N M M0 lf efC graph,
      2 <= N ->
      build_hnsw_graph fuel RAND_MAX tape vs N M M0 lf efC = Some graph ->
      bidirectional (nodes graph))
  /\ (forall fuel vs id entry width graph layer graph',
        connect_layer fuel vs id entry width graph layer = Some graph' ->
        exists layer_candidates visited_nodes,
          build_beam_loop fuel graph vs (vector_at vs id) layer width
            (insert_candidate (create_priority_queue width false) entry
               (calculate_euclidean_distance (vector_at vs id) (vector_at vs entry)),
             insert_candidate (create_priority_queue (wrap_int (width * 2)) true) entry
               (calculate_euclidean_distance (vector_at vs id) (vector_at vs entry)))
          = Some (layer_candidates, visited_nodes)
          /\ graph' =
             set_nodes graph
               (link_selected (nodes graph) id layer
                  (select_connections
                     (copy_candidates (S (length (candidates layer_candidates)))
                        layer_candidates
                        (if layer =? 0 then max_connections_layer_zero graph
                         else max_connections_per_node graph) [])
                     (if layer =? 0 then max_connections_layer_zero graph
                      else max_connections_per_node graph))))
  /\ (forall ns id layer selected,
        bidirectional ns ->
        Forall node_shape ns ->
        0 <= id < Z.of_nat (length ns) ->
        0 <= layer <= maximum_layer (node_at ns id) ->
        Forall (fun s => 0 <= s < Z.of_nat (length ns)
                         /\ layer <= maximum_layer (node_at ns s)) selected ->
        bidirectional (link_selected ns id layer selected)
        /\ Forall (fun s =>
                     In s (connections (node_at (link_selected ns id layer selected) id)
                                       layer)
                     /\ In id (connections (node_at (link_selected ns id layer selected) s)
                                           layer))
                  selected).
Proof.
  split; [|split].
  - intros fuel RAND_MAX tape vs N M M0 lf efC graph HN H.
    apply build_hnsw_graph_no_edges in H; [|lia]. destruct H as [Hno _].
    intros n layer _ _. rewrite Hno. constructor.
  - intros fuel vs id entry width graph layer graph'.
    apply connect_layer_links.
  - intros ns id layer selected Hb Hs. apply link_selected_bidirectional; [exact Hb|].
    apply shaped_Forall, Hs.
Qed.

Lemma build_bidirectional_witness :
  (exists graph,
      build_hnsw_graph 2 glibc_RAND_MAX four_draws four_points 4 16 32 one_half 32
      = Some graph
      /\ bidirectional (nodes graph))
  /\ bidirectional (link_selected three_nodes 2 0 [0; 1; 2])
  /\ connections (node_at (link_selected three_nodes 2 0 [0; 1; 2]) 2) 0 = [0; 1; 2]
  /\ Forall (fun s =>
               In s (connections (node_at (link_selected three_nodes 2 0 [0; 1; 2]) 2) 0)
               /\ In 2 (connections (node_at (link_selected three_nodes 2 0 [0; 1; 2]) s) 0))
            [0; 1; 2].
Proof.
  destruct build_bidirectional as (Hbuild & _ & Hlink).
  split.
  - eexists. split; [vm_compute; reflexivity|].
    apply (Hbuild 2%nat glibc_RAND_MAX four_draws four_points 4 16 32 one_half 32);
      [lia | vm_compute; reflexivity].
  - destruct (Hlink three_nodes 2 0 [0; 1; 2]) as [Hb Hall].
    + intros n layer _ _.
      assert (E : connections (node_at three_nodes n) layer = []).
      { unfold three_nodes, node_at, connections.
        destruct (Z.to_nat n) as [|[|[|[|?]]]]; destruct (Z.to_nat layer) as [|[|[|?]]];
          reflexivity. }
      rewrite E. constructor.
    + repeat constructor; simpl; lia.
    + simpl. lia.
    + simpl. lia.
    + repeat constructor; simpl; lia.
    + split; [exact Hb|]. split; [reflexivity | exact Hall].
Defined.

